(** * ShelfTech: the overlay tracker, the audio pipeline and the live session

    A shallow embedding of the TypeScript modules of the web client that
    compute without the network:

    - [web/src/lib/tracking.ts]: box matching and smoothing ([Tracking]);
    - [web/src/lib/audioPipeline.ts]: microphone encoder and playback
      scheduler ([Audio]);
    - the [GeminiLiveClient] class, the WebSocket session ([Session]);
    - [detection.ts]: clamping of a detected box ([Detection]);
    - [web/src/lib/hitTest.ts]: the tracked item under a point ([HitTest]);
    - the environment getters and the key predicates ([Env]);
    - [rag.ts]: the shopping-list test ([Rag]);
    - [overlayRelevance.ts]: the snippet drawn over a box ([Overlay]);
    - [web/src/lib/camera.ts]: the frame captured for detection
      ([Camera]);
    - [iou] and the scheduling step of [drainPlayback] once more, on
      binary64 numbers ([Binary64]).

    The definitions come first, one module per source file; the facts
    proved about them follow, one module of facts per module of
    definitions ([TrackingFacts], [AudioFacts], [SessionFacts], ...).

    Numbers.  A JavaScript [number] that holds a coordinate, an overlap or a
    time is a rational ([Q]) in the modules of the source: a sum, a product
    or a quotient is exact there, where the code rounds it to binary64.
    The theorems about these modules take the numbers as the code compares
    and combines them, with its own sums, products, maxima and tests; what
    only exact arithmetic gives, such as [iou a a == 1], is not stated of
    the code.  [Binary64] runs the code on binary64 numbers where the
    rounding decides the result.  The samples of the audio path also range
    over NaN and the infinities.  Array indices and lengths are [nat].

    Strings.  A string is a sequence of UTF-16 code units; the model has
    the code units below 256 (Basic Latin and the Latin-1 Supplement), with
    the white space and the case mapping JavaScript has on them.

    Effects.  The session is a record of the fields of the client object
    and of what its host holds for it (sockets, pending timers, a clock in
    milliseconds, the callbacks invoked); methods and event handlers are
    functions on that record, and a run is a list of events. *)

From Stdlib Require Import QArith Qminmax Qround ZArith NArith String Ascii List Lia Lqa.
From Stdlib Require PrimFloat FloatClass.
From stdpp Require Import gmap strings list.

Open Scope Q_scope.

(** ** Comparisons of the source on [Q] *)

(** [a > b] of the source. *)
Definition Qgt_bool (a b : Q) : bool := negb (Qle_bool a b).

(** ** Strings of the source: [toLowerCase], [trim], [split(/\s+/)] *)

Module JsString.

(** A character is one UTF-16 code unit below 256: Basic Latin and the
    Latin-1 Supplement. *)

(** White space of [String.prototype.trim] and of the class [\s] among
    these code units: TAB, LF, VT, FF, CR, SPACE and the no-break space
    U+00A0. *)
Definition isWhiteSpace (c : ascii) : bool :=
  let n := nat_of_ascii c in
  ((9 <=? n)%nat && (n <=? 13)%nat) || (n =? 32)%nat || (n =? 160)%nat.

(** [toLowerCase] on one code unit: the letters A-Z and the capital letters
    of the Latin-1 Supplement, U+00C0 to U+00DE without the multiplication
    sign U+00D7, move up by 32; every other code unit below 256 is its own
    lower case. *)
Definition toLowerChar (c : ascii) : ascii :=
  let n := nat_of_ascii c in
  if ((65 <=? n)%nat && (n <=? 90)%nat)
     || ((192 <=? n)%nat && (n <=? 222)%nat && negb (n =? 215)%nat)
  then ascii_of_nat (n + 32) else c.

Fixpoint toLowerCase (s : string) : string :=
  match s with
  | EmptyString => EmptyString
  | String c r => String (toLowerChar c) (toLowerCase r)
  end.

Fixpoint trimStartL (s : list ascii) : list ascii :=
  match s with
  | c :: r => if isWhiteSpace c then trimStartL r else s
  | [] => []
  end.

Definition trimL (s : list ascii) : list ascii :=
  rev (trimStartL (rev (trimStartL s))).

Definition trim (s : string) : string :=
  string_of_list_ascii (trimL (list_ascii_of_string s)).

(** [s.split(/\s+/)]: the pieces between the maximal runs of white space.
    A run at either end of the string leaves an empty piece there, and the
    empty string gives one empty piece.  [cur] is the piece being read,
    reversed; [inRun] says that the previous character was white space. *)
Fixpoint splitRuns (cur : list ascii) (inRun : bool) (s : list ascii)
  : list string :=
  match s with
  | [] => [string_of_list_ascii (rev cur)]
  | c :: r =>
      if isWhiteSpace c then
        if inRun then splitRuns cur true r
        else string_of_list_ascii (rev cur) :: splitRuns [] true r
      else splitRuns (c :: cur) false r
  end.

Definition splitWhitespace (s : string) : list string :=
  splitRuns [] false (list_ascii_of_string s).

Definition startsWith (s prefix : string) : bool := String.prefix prefix s.




(** [s.includes(search)]: [search] occurs in [s]. *)
Fixpoint includes (s search : string) : bool :=
  String.prefix search s ||
  match s with
  | EmptyString => false
  | String _ rest => includes rest search
  end.


(** A string as a condition: the empty string is falsy. *)
Definition truthy (s : string) : bool := negb (String.eqb s "").

End JsString.

(** ** [tracking.ts] *)

Module Tracking.

Import JsString.

(** The type [BoundingBox] of [./detection]: [x], [y] are the top-left
    corner, normalized to 0-1.  The fields are finite numbers here;
    [Detection.BoundingBox] below has them range over NaN and the
    infinities as well. *)
Record BoundingBox := { x : Q; y : Q; width : Q; height : Q }.

(** The type [DetectedItem] of [./detection]. *)
Record DetectedItem := { label : string; bbox : BoundingBox }.

Definition iou (a b : BoundingBox) : Q :=
  let ax1 := x a in
  let ay1 := y a in
  let ax2 := x a + width a in
  let ay2 := y a + height a in
  let bx1 := x b in
  let by1 := y b in
  let bx2 := x b + width b in
  let by2 := y b + height b in
  let ix1 := Qmax ax1 bx1 in
  let iy1 := Qmax ay1 by1 in
  let ix2 := Qmin ax2 bx2 in
  let iy2 := Qmin ay2 by2 in
  if Qle_bool ix2 ix1 || Qle_bool iy2 iy1 then 0
  else
    let inter := (ix2 - ix1) * (iy2 - iy1) in
    let areaA := width a * height a in
    let areaB := width b * height b in
    let union := areaA + areaB - inter in
    if Qle_bool union 0 then 0 else inter / union.

(** The geometry the overlap is measured against: the intersection of two
    boxes is the rectangle between the larger of the two left (top) edges
    and the smaller of the two right (bottom) edges, empty when an extent is
    not positive. *)
Definition overlapWidth (a b : BoundingBox) : Q :=
  Qmin (x a + width a) (x b + width b) - Qmax (x a) (x b).

Definition overlapHeight (a b : BoundingBox) : Q :=
  Qmin (y a + height a) (y b + height b) - Qmax (y a) (y b).

(** Zero overlap: the intersection is empty or degenerate. *)
Definition noOverlap (a b : BoundingBox) : Prop :=
  overlapWidth a b <= 0 \/ overlapHeight a b <= 0.

Definition lerpBbox (a b : BoundingBox) (t : Q) : BoundingBox :=
  {| x := x a + (x b - x a) * t;
     y := y a + (y b - y a) * t;
     width := width a + (width b - width a) * t;
     height := height a + (height b - height a) * t |}.

Definition MATCH_IOU_THRESH : Q := 0.15.
Definition LERP_SPEED : Q := 0.18.
Definition STABILITY_IOU : Q := 0.82.

Definition GENERIC_LABELS : gset string :=
  list_to_set
    ["box"; "boxes"; "bottle"; "bottles"; "can"; "cans"; "container";
     "containers"; "item"; "items"]%string.

Definition isGenericLabel (label : string) : bool :=
  let lower := trim (toLowerCase label) in
  bool_decide (lower ∈ GENERIC_LABELS) || (String.length lower <=? 3)%nat.

Definition isMoreSpecificThan (prevLabel newLabel : string) : bool :=
  if negb (isGenericLabel prevLabel) then false
  else if isGenericLabel newLabel then false
  else (String.length prevLabel <=? String.length newLabel)%nat
       || (1 <? List.length (splitWhitespace newLabel))%nat.

(** The running best of the inner loops: [bestIdx] is [None] for the
    source's [-1]. *)
Record Best := { bestIdx : option nat; bestIou : Q }.

(** The inner [for (let i = 0; i < items.length; i++)] loop of both
    functions, from index [i] on: skip the used indices, keep the first
    strictly larger overlap. *)
Fixpoint findBest (overlap : DetectedItem -> Q) (items : list DetectedItem)
    (i : nat) (used : gset nat) (best : Best) : Best :=
  match items with
  | [] => best
  | it :: rest =>
      if bool_decide (i ∈ used) then findBest overlap rest (S i) used best
      else
        let o := overlap it in
        if Qgt_bool o (bestIou best)
        then findBest overlap rest (S i) used {| bestIdx := Some i; bestIou := o |}
        else findBest overlap rest (S i) used best
  end.

(** [{ ...b }]: a copy with the same fields. *)
Definition copyBbox (b : BoundingBox) : BoundingBox :=
  {| x := x b; y := y b; width := width b; height := height b |}.

Definition addUsed (m : Best) (used : gset nat) : gset nat :=
  match bestIdx m with
  | Some i => {[ i ]} ∪ used
  | None => used
  end.

(** One iteration of the outer loop of [mergeWithPrevious]: the match that
    was found and the item pushed on [out]. *)
Definition mergeOne (displayed : list DetectedItem) (used : gset nat)
    (t : DetectedItem) (lerpT : Q) : Best * DetectedItem :=
  let m := findBest (fun d => iou (bbox d) (bbox t)) displayed 0 used
             {| bestIdx := None; bestIou := MATCH_IOU_THRESH |} in
  match bestIdx m with
  | Some i =>
      match displayed !! i with
      | Some prev =>
          let useNewLabel := isMoreSpecificThan (label prev) (label t) in
          let stableLabel := if useNewLabel then label t else label prev in
          let stableBbox :=
            if Qle_bool STABILITY_IOU (bestIou m) then bbox prev
            else lerpBbox (bbox prev) (bbox t) lerpT in
          (m, {| label := stableLabel; bbox := stableBbox |})
      | None => (m, {| label := label t; bbox := copyBbox (bbox t) |})
      end
  | None => (m, {| label := label t; bbox := copyBbox (bbox t) |})
  end.

Fixpoint mergeLoop (displayed target : list DetectedItem) (used : gset nat)
    (lerpT : Q) : list (Best * DetectedItem) :=
  match target with
  | [] => []
  | t :: ts =>
      let r := mergeOne displayed used t lerpT in
      r :: mergeLoop displayed ts (addUsed (fst r) used) lerpT
  end.

Definition mergeWithPrevious (displayed target : list DetectedItem)
    (lerpT : Q) : list DetectedItem :=
  map snd (mergeLoop displayed target ∅ lerpT).

(** The default [lerpT = 0.35]. *)
Definition mergeWithPrevious_default (displayed target : list DetectedItem) :=
  mergeWithPrevious displayed target 0.35.

(** One iteration of the first loop of [stepDisplayedTowardTarget]: the
    match found for the displayed item [d] and the item pushed, if any. *)
Definition stepOne (target : list DetectedItem) (used : gset nat)
    (d : DetectedItem) (lerpT : Q) : Best * option DetectedItem :=
  let m := findBest (fun t => iou (bbox d) (bbox t)) target 0 used
             {| bestIdx := None; bestIou := 0.05 |} in
  match bestIdx m with
  | Some i =>
      match target !! i with
      | Some t =>
          let overlap := iou (bbox d) (bbox t) in
          let bbox' :=
            if Qle_bool STABILITY_IOU overlap then bbox d
            else lerpBbox (bbox d) (bbox t) lerpT in
          let useNewLabel := isMoreSpecificThan (label d) (label t) in
          (m, Some {| label := if useNewLabel then label t else label d;
                      bbox := bbox' |})
      | None => (m, None)
      end
  | None => (m, None)
  end.

Fixpoint stepLoop (displayed target : list DetectedItem) (used : gset nat)
    (lerpT : Q) : gset nat * list (Best * option DetectedItem) :=
  match displayed with
  | [] => (used, [])
  | d :: ds =>
      let r := stepOne target used d lerpT in
      let '(used', rs) := stepLoop ds target (addUsed (fst r) used) lerpT in
      (used', r :: rs)
  end.

(** The second loop: the targets whose index is not used, from index [i]. *)
Fixpoint appendUnmatched (target : list DetectedItem) (i : nat)
    (used : gset nat) : list DetectedItem :=
  match target with
  | [] => []
  | t :: ts =>
      if bool_decide (i ∈ used) then appendUnmatched ts (S i) used
      else {| label := label t; bbox := copyBbox (bbox t) |}
             :: appendUnmatched ts (S i) used
  end.

Definition stepDisplayedTowardTarget (displayed target : list DetectedItem)
    (lerpT : Q) : list DetectedItem :=
  let '(used, rs) := stepLoop displayed target ∅ lerpT in
  omap snd rs ++ appendUnmatched target 0 used.

(** The default [lerpT = LERP_SPEED]. *)
Definition stepDisplayedTowardTarget_default (displayed target : list DetectedItem) :=
  stepDisplayedTowardTarget displayed target LERP_SPEED.





(** Boxes used to run the functions on concrete inputs. *)
Definition boxA : BoundingBox := {| x := 0.1; y := 0.1; width := 0.4; height := 0.5 |}.
Definition boxNear : BoundingBox := {| x := 0.1; y := 0.1; width := 0.4; height := 0.55 |}.
Definition boxShifted : BoundingBox := {| x := 0.3; y := 0.1; width := 0.4; height := 0.5 |}.
Definition boxFar : BoundingBox := {| x := 0.6; y := 0.1; width := 0.3; height := 0.5 |}.

End Tracking.

(** ** [audioPipeline.ts] *)

Module Audio.

(** *** Numbers of the audio path

    A sample read from a [Float32Array] may be any float: a finite value,
    an infinity or NaN.  Finite values are exact rationals. *)
Inductive number : Type :=
| NaN
| PosInf
| NegInf
| Fin (q : Q).

(** [Math.max(a, b)] and [Math.min(a, b)]: NaN when an argument is NaN. *)
Definition Math_max (a b : number) : number :=
  match a, b with
  | NaN, _ | _, NaN => NaN
  | PosInf, _ | _, PosInf => PosInf
  | NegInf, v | v, NegInf => v
  | Fin p, Fin q => Fin (Qmax p q)
  end.

Definition Math_min (a b : number) : number :=
  match a, b with
  | NaN, _ | _, NaN => NaN
  | NegInf, _ | _, NegInf => NegInf
  | PosInf, v | v, PosInf => v
  | Fin p, Fin q => Fin (Qmin p q)
  end.

(** The sign of an infinity times a finite factor; zero times an infinity is
    NaN. *)
Definition infTimes (positive : bool) (q : Q) : number :=
  match Qcompare q 0 with
  | Eq => NaN
  | Gt => if positive then PosInf else NegInf
  | Lt => if positive then NegInf else PosInf
  end.

Definition mul (a b : number) : number :=
  match a, b with
  | NaN, _ | _, NaN => NaN
  | Fin p, Fin q => Fin (p * q)
  | PosInf, Fin q | Fin q, PosInf => infTimes true q
  | NegInf, Fin q | Fin q, NegInf => infTimes false q
  | PosInf, PosInf | NegInf, NegInf => PosInf
  | PosInf, NegInf | NegInf, PosInf => NegInf
  end.

Definition Math_floor (a : number) : number :=
  match a with
  | Fin q => Fin (inject_Z (Qfloor q))
  | _ => a
  end.

(** Storing into an [Int16Array] converts with ToInt16: NaN and the
    infinities become 0; a finite value is truncated toward zero and
    reduced modulo 2^16 into [-32768, 32767]. *)
Definition truncate (q : Q) : Z :=
  if Qle_bool 0 q then Qfloor q else Qceiling q.

Definition wrapInt16 (z : Z) : Z :=
  let u := (z mod 65536)%Z in
  if (32768 <=? u)%Z then (u - 65536)%Z else u.

Definition ToInt16 (a : number) : Z :=
  match a with
  | Fin q => wrapInt16 (truncate q)
  | _ => 0%Z
  end.

Definition SEND_SAMPLE_RATE : Z := 16000.
Definition RECV_SAMPLE_RATE : Z := 24000.
Definition CHUNK_MS : Z := 100.
Definition SEND_FRAMES : nat :=
  Z.to_nat ((SEND_SAMPLE_RATE * CHUNK_MS) / 1000).

(** *** [startMicCapture]: the [onaudioprocess] callback *)

(** [Math.max(-1, Math.min(1, inputData[i]))]. *)
Definition clampSample (s : number) : number :=
  Math_max (Fin (-1)) (Math_min (Fin 1) s).

(** The value computed for [int16[i]], before the store converts it. *)
Definition quantize (s : number) : number :=
  let v := Math_floor (mul s (Fin 32767)) in
  Math_max (Fin (-32768)) (Math_min (Fin 32767) v).

(** [new Uint8Array(int16.buffer)]: the two bytes of a sample, low byte
    first. *)
Definition int16Bytes (z : Z) : list Z :=
  let u := (z mod 65536)%Z in [(u mod 256)%Z; (u / 256)%Z].

(** The [Int16Array] filled from one chunk. *)
Definition encodeChunk (chunk : list number) : list Z :=
  map (fun s => ToInt16 (quantize s)) chunk.

(** The [while (buffer.length >= SEND_FRAMES)] loop: the arrays emitted, in
    order, and the buffer that is left.  [fuel] bounds the iterations; the
    callback gives the length of the buffer, which no run exhausts. *)
Fixpoint drainChunks (fuel : nat) (buffer : list number)
  : list (list Z) * list number :=
  match fuel with
  | O => ([], buffer)
  | S fuel' =>
      if (SEND_FRAMES <=? List.length buffer)%nat then
        let chunk := take SEND_FRAMES buffer in
        let rest := drop SEND_FRAMES buffer in
        let int16 := encodeChunk chunk in
        let '(emitted, remaining) := drainChunks fuel' rest in
        (int16 :: emitted, remaining)
      else ([], buffer)
  end.

(** One call of the callback on the samples of [inputData], from the buffer
    kept between calls.  Each emitted array is what [onChunk] receives, as
    the base64 text of its bytes. *)
Definition onaudioprocess (buffer inputData : list number)
  : list (list Z) * list number :=
  let buffer' := buffer ++ map clampSample inputData in
  drainChunks (List.length buffer') buffer'.

(** The bytes handed to [btoa] for one emitted array. *)
Definition chunkBytes (int16 : list Z) : list Z := flat_map int16Bytes int16.

(** *** [playPcm24k] and [drainPlayback] *)

(** [AudioContext.state]. *)
Inductive ContextState := suspended | running.

(** A buffer source started on the destination: [node.start(start)] with a
    buffer of the given samples, lasting [duration] seconds. *)
Record Scheduled := { start : Q; duration : Q; samples : list Q }.

(** The module state: the three module variables, the state of the playback
    context once it exists, the [then(drainPlayback)] continuations waiting
    for [resume()], and the sources started so far. *)
Record Playback := {
  playbackQueue : list (list Z);
  playbackContext : option ContextState;
  nextPlayTime : Q;
  resumeWaiters : nat;
  started : list Scheduled
}.

Definition initialPlayback : Playback :=
  {| playbackQueue := []; playbackContext := None; nextPlayTime := 0;
     resumeWaiters := 0; started := [] |}.

(** What the host decides at a call: the clock of the context and the state
    a context is created in. *)
Record Host := { currentTime : Q; createdState : ContextState }.

(** [new Int16Array(chunk)]: the little-endian 16-bit view of the bytes, or
    nothing when the byte length is odd (a RangeError). *)
Fixpoint int16View (bytes : list Z) : option (list Z) :=
  match bytes with
  | [] => Some []
  | lo :: hi :: rest =>
      match int16View rest with
      | Some vs => Some (wrapInt16 (lo + 256 * hi) :: vs)
      | None => None
      end
  | [_] => None
  end.

(** The result of a call: it returns, or it throws after the state changes
    it made ([new Int16Array] on an odd number of bytes, [createBuffer] on a
    length of zero). *)
Inductive Outcome := Returned (p : Playback) | Threw (p : Playback).

Definition stateOf (o : Outcome) : Playback :=
  match o with Returned p | Threw p => p end.

Definition drainPlayback (h : Host) (p : Playback) : Outcome :=
  match playbackQueue p with
  | [] => Returned p
  | chunk :: queue =>
      let ctx := match playbackContext p with
                 | Some st => st
                 | None => createdState h
                 end in
      match ctx with
      | suspended =>
          Returned {| playbackQueue := playbackQueue p;
                      playbackContext := Some ctx;
                      nextPlayTime := nextPlayTime p;
                      resumeWaiters := S (resumeWaiters p);
                      started := started p |}
      | running =>
          match int16View chunk with
          | None =>
              Threw {| playbackQueue := queue;
                       playbackContext := Some ctx;
                       nextPlayTime := nextPlayTime p;
                       resumeWaiters := resumeWaiters p;
                       started := started p |}
          | Some int16 =>
              let float32 := map (fun v => inject_Z v / 32768) int16 in
              if (List.length float32 =? 0)%nat then
                Threw {| playbackQueue := queue;
                         playbackContext := Some ctx;
                         nextPlayTime := nextPlayTime p;
                         resumeWaiters := resumeWaiters p;
                         started := started p |}
              else
              let bufferDuration :=
                inject_Z (Z.of_nat (List.length float32)) / inject_Z RECV_SAMPLE_RATE in
              let start := Qmax (nextPlayTime p) (currentTime h) in
              Returned {| playbackQueue := queue;
                          playbackContext := Some ctx;
                          nextPlayTime := start + bufferDuration;
                          resumeWaiters := resumeWaiters p;
                          started := started p ++
                            [ {| start := start; duration := bufferDuration;
                                 samples := float32 |} ] |}
          end
      end
  end.

(** [playPcm24k], on the bytes that [atob] gives for the base64 text. *)
Definition playPcm24k (h : Host) (bytes : list Z) (p : Playback) : Outcome :=
  drainPlayback h
    {| playbackQueue := playbackQueue p ++ [bytes];
       playbackContext := playbackContext p;
       nextPlayTime := nextPlayTime p;
       resumeWaiters := resumeWaiters p;
       started := started p |}.

Definition stopPlayback (p : Playback) : Playback :=
  {| playbackQueue := []; playbackContext := playbackContext p;
     nextPlayTime := 0; resumeWaiters := resumeWaiters p;
     started := started p |}.

(** The continuations of [resume().then(drainPlayback)] run once the
    context is running, one call of [drainPlayback] each; a call that throws
    rejects its own promise only. *)
Fixpoint runWaiters (n : nat) (h : Host) (p : Playback) : Playback :=
  match n with
  | O => p
  | S n' => runWaiters n' h (stateOf (drainPlayback h p))
  end.

Definition onResumed (h : Host) (p : Playback) : Playback :=
  runWaiters (resumeWaiters p) h
    {| playbackQueue := playbackQueue p; playbackContext := Some running;
       nextPlayTime := nextPlayTime p; resumeWaiters := 0;
       started := started p |}.

(** The microphone callback run on successive input buffers, from an empty
    buffer: all the arrays emitted, in order, and the samples left. *)
Fixpoint captureRun (buffer : list number) (calls : list (list number))
  : list (list Z) * list number :=
  match calls with
  | [] => ([], buffer)
  | inputData :: rest =>
      let '(emitted, buffer') := onaudioprocess buffer inputData in
      let '(emitted', buffer'') := captureRun buffer' rest in
      (emitted ++ emitted', buffer'')
  end.

Definition capture (calls : list (list number)) : list (list Z) * list number :=
  captureRun [] calls.

(** The 16-bit value of one input sample, as the claim gives it: NaN is
    stored as 0; a finite sample is clamped to [-1, 1], scaled by 32767 and
    rounded down, and stored as that integer. *)
Definition sampleValue (s : number) (z : Z) : Prop :=
  match s with
  | NaN => z = 0%Z
  | PosInf => z = 32767%Z
  | NegInf => z = (-32767)%Z
  | Fin q => z = Qfloor (Qmax (-1) (Qmin 1 q) * 32767)
  end.

(** The state of the context a call works with: the one that exists, or the
    one the call creates. *)
Definition contextState (h : Host) (p : Playback) : ContextState :=
  match playbackContext p with
  | Some st => st
  | None => createdState h
  end.

(** A host whose clock reads [t] and whose contexts are created running. *)
Definition hostAt (t : Q) : Host := {| currentTime := t; createdState := running |}.

(** The duration of a chunk of PCM bytes at 24 kHz. *)
Definition chunkDuration (bytes : list Z) : Q :=
  inject_Z (Z.of_nat (List.length bytes / 2)) / inject_Z RECV_SAMPLE_RATE.

(** *** Runs of the playback module *)

(** What happens to the playback module: [playPcm24k] is called on the
    bytes of a chunk, the suspended context resumes, or [stopPlayback] is
    called.  A call of [playPcm24k] that throws leaves the state it made. *)
Inductive PlaybackEvent :=
| Play (h : Host) (bytes : list Z)
| Resume (h : Host)
| Stop.

Definition playbackStep (e : PlaybackEvent) (p : Playback) : option Playback :=
  match e with
  | Play h bytes => Some (stateOf (playPcm24k h bytes p))
  | Resume h =>
      match playbackContext p with
      | Some suspended => Some (onResumed h p)
      | _ => None
      end
  | Stop => Some (stopPlayback p)
  end.

Fixpoint playbackRun (es : list PlaybackEvent) (p : Playback) : option Playback :=
  match es with
  | [] => Some p
  | e :: rest =>
      match playbackStep e p with
      | Some p' => playbackRun rest p'
      | None => None
      end
  end.

(** The chunks given to [playPcm24k] in a run, in order. *)
Fixpoint playedChunks (es : list PlaybackEvent) : list (list Z) :=
  match es with
  | [] => []
  | Play _ bytes :: rest => bytes :: playedChunks rest
  | _ :: rest => playedChunks rest
  end.

(** The event is a call of [stopPlayback]. *)
Definition isStop (e : PlaybackEvent) : bool :=
  match e with Stop => true | _ => false end.

(** The samples a chunk of PCM bytes is played as. *)
Definition pcmSamples (bytes : list Z) : list Q :=
  match int16View bytes with
  | Some int16 => map (fun v => inject_Z v / 32768) int16
  | None => []
  end.

(** A chunk that [drainPlayback] can play: an even, positive number of
    bytes. *)
Definition playable (bytes : list Z) : Prop :=
  Nat.Even (List.length bytes) /\ (0 < List.length bytes)%nat.

(** Each source ends before the next one starts. *)
Definition sequential (l : list Scheduled) : Prop :=
  forall (i : nat) (a b : Scheduled),
    l !! i = Some a -> l !! S i = Some b -> start a + duration a <= start b.

(** What is true of the sources between two calls of [stopPlayback]: they
    last, and they end by the watermark, in the order they were started. *)
Definition Scheduling (p : Playback) : Prop :=
  sequential (started p) /\
  Forall (fun a => 0 < duration a) (started p) /\
  Forall (fun a => start a + duration a <= nextPlayTime p) (started p).

(** What a run without [stopPlayback] keeps, for the chunks fed so far. *)
Definition Conserved (chunks : list (list Z)) (p : Playback) : Prop :=
  map samples (started p) ++ map pcmSamples (playbackQueue p) = map pcmSamples chunks /\
  Forall playable (playbackQueue p) /\
  (playbackContext p = Some running -> playbackQueue p = []) /\
  (playbackContext p = Some suspended ->
   List.length (playbackQueue p) = resumeWaiters p) /\
  (playbackContext p = None -> playbackQueue p = [] /\ resumeWaiters p = 0%nat).

(** A host whose context is created suspended, as before a user gesture. *)
Definition suspendedHostAt (t : Q) : Host :=
  {| currentTime := t; createdState := suspended |}.

(** A run on short chunks: two chunks arrive while the context is suspended,
    the context resumes at 0.5 s, and a third chunk arrives at 0.6 s. *)
Definition twoSamples : list Z := [0; 64; 0; 192]%Z.

Definition resumedRun : list PlaybackEvent :=
  [Play (suspendedHostAt 0.1) twoSamples; Play (suspendedHostAt 0.2) twoSamples;
   Resume (hostAt 0.5); Play (hostAt 0.6) twoSamples].

(** *** The schedule of a run *)

(** The time of the audio clock at the call an event makes. *)
Definition eventTime (e : PlaybackEvent) : Q :=
  match e with
  | Play h _ | Resume h => currentTime h
  | Stop => 0
  end.

(** For each source started in a run, in the order they are started, the
    time of the clock at the call of [drainPlayback] that started it: the
    call made by [playPcm24k] on a running context, or the continuation of
    [resume()] for a chunk queued while the context was suspended. *)
Fixpoint scheduleTimes (es : list PlaybackEvent) (p : Playback) : list Q :=
  match es with
  | [] => []
  | e :: rest =>
      match playbackStep e p with
      | Some p' =>
          replicate (List.length (started p') - List.length (started p)) (eventTime e)
          ++ scheduleTimes rest p'
      | None => []
      end
  end.

(** The watermark after the sources [l], started from the watermark [w]. *)
Definition watermarkAfter (w : Q) (l : list Scheduled) : Q :=
  match last l with
  | Some a => start a + duration a
  | None => w
  end.

(** The sources [l] were started one after the other from the watermark
    [w], at the times [ts] of the clock: each at the later of the watermark
    and the current time, moving the watermark to its end. *)
Fixpoint Chained (w : Q) (l : list Scheduled) (ts : list Q) : Prop :=
  match l, ts with
  | [], [] => True
  | a :: l', t :: ts' =>
      start a = Qmax w t /\ Chained (start a + duration a) l' ts'
  | _, _ => False
  end.

(** What [drainPlayback] plays a chunk as: the duration and the samples of
    the source, or nothing when the call throws on the chunk. *)
Definition sourceOf (bytes : list Z) : option (Q * list Q) :=
  match int16View bytes with
  | Some int16 =>
      let float32 := map (fun v => inject_Z v / 32768) int16 in
      if Nat.eqb (List.length float32) 0 then None
      else Some (inject_Z (Z.of_nat (List.length float32)) / inject_Z RECV_SAMPLE_RATE,
                 float32)
  | None => None
  end.

(** The duration and the samples of a source. *)
Definition played (a : Scheduled) : Q * list Q := (duration a, samples a).

(** What every state of the module satisfies: nothing is queued on a
    running context, and on a suspended one a continuation of [resume()]
    waits for each queued chunk. *)
Definition Tidy (p : Playback) : Prop :=
  match playbackContext p with
  | Some running => playbackQueue p = []
  | Some suspended => (List.length (playbackQueue p) <= resumeWaiters p)%nat
  | None => playbackQueue p = [] /\ resumeWaiters p = 0%nat
  end.

(** The chunk an event feeds, if any. *)
Definition chunkOf (e : PlaybackEvent) : list (list Z) :=
  match e with Play _ bytes => [bytes] | _ => [] end.

(** Three chunks of two samples each: two arrive while the context is
    suspended, the context resumes at 0.5 s, and the third arrives at
    0.5001 s, before the first two have been played. *)
Definition backToBackRun : list PlaybackEvent :=
  [Play (suspendedHostAt 0.1) twoSamples; Play (suspendedHostAt 0.2) twoSamples;
   Resume (hostAt 0.5); Play (hostAt 0.5001) twoSamples].

End Audio.

(** ** The [GeminiLiveClient] class *)

Module Session.

Import JsString.

Open Scope N_scope.

Inductive ConnectionState := disconnected | connecting | settingUp | ready | error.

(** [WebSocket.readyState]. *)
Inductive ReadyState := CONNECTING | OPEN | CLOSING | CLOSED.

(** The [result] argument of [sendToolResponse]. *)
Record ToolResult := { result : option string; errorText : option string }.

(** The JSON texts the client sends, by their content: [{setup: ...}] (a
    constant), [{realtimeInput: {video}}], [{realtimeInput: {audio}}] and
    [{toolResponse: {functionResponses: [{id, name, response}]}}]. *)
Inductive Frame :=
| SetupFrame
| VideoFrame (data : string)
| AudioFrame (data : string)
| ToolResponseFrame (id name : string) (response : ToolResult).

(** The parsed payload of an inbound message, by the fields that
    [handleMessage] reads.  A [bool] field says that the property is
    present and not null (for [interrupted] and [turnComplete]: that it is
    [true]); an [option] field holds the value when it is present with the
    type the source tests for. *)
Record FunctionCall := { fcId : string; fcName : string; fcArgs : option string }.

Record InlineData := { mimeType : option string; data : option string }.

Record Part := { inlineData : option InlineData; text : option string }.

Record ServerContent := {
  interrupted : bool;
  modelTurnParts : option (list Part);
  turnComplete : bool;
  inputTranscriptionText : option string;
  outputTranscriptionText : option string
}.

Record ServerMessage := {
  setupComplete : bool;
  goAway : bool;
  toolCallFunctionCalls : option (list FunctionCall);
  serverContent : option ServerContent
}.

(** [event.data]: a text that parses as JSON, or anything else (a binary
    frame, a text that [JSON.parse] rejects). *)
Inductive MessageData := Unparseable | Json (json : ServerMessage).

(** The callbacks of [GeminiLiveCallbacks], as the calls made. *)
Inductive Notification :=
| onStateChange (state : ConnectionState) (message : option string)
| onAudioReceived (pcmBase64 : string)
| onInputTranscription (text : string)
| onOutputTranscription (text : string)
| onToolCall (id name : string) (args : option string)
| onTurnComplete
| onInterrupted
| onDisconnected (reason : string).

(** A socket made by [connect], with the [resolved] flag of that call: the
    frames given to [send], whether the close event was dispatched, and
    the value the promise of the call was resolved with, if it was. *)
Record WebSocket := {
  readyState : ReadyState;
  sent : list Frame;
  closeDispatched : bool;
  resolved : option bool
}.

(** The two [setTimeout] closures of the connect call that made socket [k]:
    the one whose handle is kept in [connectTimeoutId], and the second one,
    whose handle is dropped. *)
Inductive TimerCallback := TrackedTimeout (k : nat) | UntrackedTimeout (k : nat).

Record Timer := { handle : nat; due : N; callback : TimerCallback }.

(** The client object and its host: the four fields of the class; the
    sockets made so far (a socket is named by its index); the pending
    timers, oldest first, and the next timer handle; the clock in
    milliseconds; and the callbacks invoked, newest first. *)
Record World := {
  ws : option nat;
  sendQueue : list Frame;
  isModelSpeaking : bool;
  connectTimeoutId : option nat;
  sockets : list WebSocket;
  timers : list Timer;
  nextHandle : nat;
  now : N;
  notified : list Notification
}.

Definition initialWorld : World :=
  {| ws := None; sendQueue := []; isModelSpeaking := false;
     connectTimeoutId := None; sockets := []; timers := [];
     nextHandle := 0; now := 0; notified := [] |}.

(** *** Field updates *)

Definition setWs (v : option nat) (w : World) : World :=
  {| ws := v; sendQueue := sendQueue w; isModelSpeaking := isModelSpeaking w;
     connectTimeoutId := connectTimeoutId w; sockets := sockets w;
     timers := timers w; nextHandle := nextHandle w; now := now w;
     notified := notified w |}.

Definition setSendQueue (v : list Frame) (w : World) : World :=
  {| ws := ws w; sendQueue := v; isModelSpeaking := isModelSpeaking w;
     connectTimeoutId := connectTimeoutId w; sockets := sockets w;
     timers := timers w; nextHandle := nextHandle w; now := now w;
     notified := notified w |}.

Definition setIsModelSpeaking (v : bool) (w : World) : World :=
  {| ws := ws w; sendQueue := sendQueue w; isModelSpeaking := v;
     connectTimeoutId := connectTimeoutId w; sockets := sockets w;
     timers := timers w; nextHandle := nextHandle w; now := now w;
     notified := notified w |}.

Definition setConnectTimeoutId (v : option nat) (w : World) : World :=
  {| ws := ws w; sendQueue := sendQueue w; isModelSpeaking := isModelSpeaking w;
     connectTimeoutId := v; sockets := sockets w;
     timers := timers w; nextHandle := nextHandle w; now := now w;
     notified := notified w |}.

Definition setSockets (v : list WebSocket) (w : World) : World :=
  {| ws := ws w; sendQueue := sendQueue w; isModelSpeaking := isModelSpeaking w;
     connectTimeoutId := connectTimeoutId w; sockets := v;
     timers := timers w; nextHandle := nextHandle w; now := now w;
     notified := notified w |}.

Definition setTimers (v : list Timer) (w : World) : World :=
  {| ws := ws w; sendQueue := sendQueue w; isModelSpeaking := isModelSpeaking w;
     connectTimeoutId := connectTimeoutId w; sockets := sockets w;
     timers := v; nextHandle := nextHandle w; now := now w;
     notified := notified w |}.

Definition setNextHandle (v : nat) (w : World) : World :=
  {| ws := ws w; sendQueue := sendQueue w; isModelSpeaking := isModelSpeaking w;
     connectTimeoutId := connectTimeoutId w; sockets := sockets w;
     timers := timers w; nextHandle := v; now := now w;
     notified := notified w |}.

Definition setNow (v : N) (w : World) : World :=
  {| ws := ws w; sendQueue := sendQueue w; isModelSpeaking := isModelSpeaking w;
     connectTimeoutId := connectTimeoutId w; sockets := sockets w;
     timers := timers w; nextHandle := nextHandle w; now := v;
     notified := notified w |}.

(** [this.callbacks.<name>?.(...)]. *)
Definition notify (n : Notification) (w : World) : World :=
  {| ws := ws w; sendQueue := sendQueue w; isModelSpeaking := isModelSpeaking w;
     connectTimeoutId := connectTimeoutId w; sockets := sockets w;
     timers := timers w; nextHandle := nextHandle w; now := now w;
     notified := n :: notified w |}.

(** The connection state: the one last given to [onStateChange]; the class
    keeps no state field of its own. *)
Fixpoint lastState (ns : list Notification) : ConnectionState :=
  match ns with
  | [] => disconnected
  | onStateChange st _ :: _ => st
  | _ :: rest => lastState rest
  end.

Definition state (w : World) : ConnectionState := lastState (notified w).

(** *** The host side of a socket and of the timers *)

Definition setReadyState (v : ReadyState) (s : WebSocket) : WebSocket :=
  {| readyState := v; sent := sent s; closeDispatched := closeDispatched s;
     resolved := resolved s |}.

Definition alterSocket (k : nat) (f : WebSocket -> WebSocket) (w : World) : World :=
  setSockets (alter f k (sockets w)) w.

Definition readyStateOf (k : nat) (w : World) : option ReadyState :=
  readyState <$> sockets w !! k.

(** [this.ws?.readyState === WebSocket.OPEN]. *)
Definition wsOpen (w : World) : bool :=
  match ws w with
  | Some k =>
      match readyStateOf k w with
      | Some OPEN => true
      | _ => false
      end
  | None => false
  end.

(** [ws.send(text)] on socket [k]. *)
Definition wsSend (k : nat) (f : Frame) (w : World) : World :=
  alterSocket k (fun s => {| readyState := readyState s; sent := sent s ++ [f];
                             closeDispatched := closeDispatched s;
                             resolved := resolved s |}) w.

(** [ws.close()] on socket [k]: the closing handshake starts unless the
    socket is closing or closed already. *)
Definition wsClose (k : nat) (w : World) : World :=
  alterSocket k (fun s => match readyState s with
                          | CONNECTING | OPEN => setReadyState CLOSING s
                          | _ => s
                          end) w.

(** [resolveOnce(ok)] of the connect call that made socket [k]. *)
Definition resolveOnce (k : nat) (ok : bool) (w : World) : World :=
  alterSocket k (fun s => match resolved s with
                          | Some _ => s
                          | None => {| readyState := readyState s; sent := sent s;
                                       closeDispatched := closeDispatched s;
                                       resolved := Some ok |}
                          end) w.

Definition promiseOf (k : nat) (w : World) : option bool :=
  match sockets w !! k with
  | Some s => resolved s
  | None => None
  end.

Definition sentOn (k : nat) (w : World) : list Frame :=
  match sockets w !! k with
  | Some s => sent s
  | None => []
  end.

(** [setTimeout(callback, delay)]: the new handle and the world. *)
Definition setTimeout (cb : TimerCallback) (delay : N) (w : World) : nat * World :=
  (nextHandle w,
   setNextHandle (S (nextHandle w))
     (setTimers (timers w ++ [ {| handle := nextHandle w; due := now w + delay;
                                  callback := cb |} ]) w)).

Definition clearTimeout (h : nat) (w : World) : World :=
  setTimers (List.filter (fun t => negb (handle t =? h)%nat) (timers w)) w.

(** *** The methods *)

Definition sendJSON (f : Frame) (w : World) : World :=
  match ws w with
  | Some k =>
      match readyStateOf k w with
      | Some OPEN => wsSend k f w
      | _ => setSendQueue (sendQueue w ++ [f]) w
      end
  | None => setSendQueue (sendQueue w ++ [f]) w
  end.

Definition sendSetup (w : World) : World := sendJSON SetupFrame w.

(** The loop of [flushSendQueue], on the queue it starts with. *)
Fixpoint flushLoop (queue : list Frame) (w : World) : World :=
  match queue with
  | [] => w
  | f :: rest =>
      match ws w with
      | Some k =>
          match readyStateOf k w with
          | Some OPEN => flushLoop rest (wsSend k f (setSendQueue rest w))
          | _ => w
          end
      | None => w
      end
  end.

Definition flushSendQueue (w : World) : World := flushLoop (sendQueue w) w.

Definition handlePart (p : Part) (w : World) : World :=
  let w1 :=
    match inlineData p with
    | Some {| mimeType := Some mt; data := Some d |} =>
        if startsWith mt "audio/"
        then notify (onAudioReceived d) (setIsModelSpeaking true w)
        else w
    | _ => w
    end in
  match text p with
  | Some t => notify (onOutputTranscription t) w1
  | None => w1
  end.

Definition handleTranscription (mk : string -> Notification) (t : option string)
    (w : World) : World :=
  match t with
  | Some txt => if String.eqb (trim txt) "" then w else notify (mk (trim txt)) w
  | None => w
  end.

(** [handleMessage(json, resolveConnect)], for a message that arrived on
    socket [k]: [resolveConnect] is the [resolveOnce] of the call that made
    that socket. *)
Definition handleMessage (k : nat) (json : ServerMessage) (w : World) : World :=
  if setupComplete json then
    let w1 := match connectTimeoutId w with
              | Some h => setConnectTimeoutId None (clearTimeout h w)
              | None => w
              end in
    resolveOnce k true (flushSendQueue (notify (onStateChange ready None) w1))
  else if goAway json then
    notify (onDisconnected "Server closing")
      (notify (onStateChange disconnected None) w)
  else
    match toolCallFunctionCalls json with
    | Some calls =>
        fold_left (fun w' c => notify (onToolCall (fcId c) (fcName c) (fcArgs c)) w')
          calls w
    | None =>
        match serverContent json with
        | None => w
        | Some sc =>
            if interrupted sc then
              notify onInterrupted (setIsModelSpeaking false w)
            else
              let w1 := match modelTurnParts sc with
                        | Some parts => fold_left (fun w' p => handlePart p w') parts w
                        | None => w
                        end in
              let w2 := if turnComplete sc
                        then notify onTurnComplete (setIsModelSpeaking false w1)
                        else w1 in
              let w3 := handleTranscription onInputTranscription
                          (inputTranscriptionText sc) w2 in
              handleTranscription onOutputTranscription
                (outputTranscriptionText sc) w3
        end
    end.

(** The timeout closures of the connect call that made socket [k]. *)
Definition runTimer (cb : TimerCallback) (w : World) : World :=
  match cb with
  | TrackedTimeout k =>
      let w1 := setConnectTimeoutId None w in
      let w2 := resolveOnce k false w1 in
      let w3 := notify (onStateChange error (Some "Connection timed out"%string)) w2 in
      if bool_decide (ws w3 = Some k) then wsClose k w3 else w3
  | UntrackedTimeout k =>
      let w2 := resolveOnce k false w in
      let w3 := notify (onStateChange error (Some "Connection timed out"%string)) w2 in
      if bool_decide (ws w3 = Some k) then wsClose k w3 else w3
  end.

(** What [connect] returns: a promise already resolved, or the promise of
    the call that made socket [k]. *)
Inductive PromiseRef := Resolved (ok : bool) | PromiseOfSocket (k : nat).

Definition connect (apiKey : string) (w : World) : PromiseRef * World :=
  if wsOpen w then (Resolved true, w)
  else
    let w1 := notify (onStateChange connecting None) w in
    let k := List.length (sockets w1) in
    let w2 := setSockets (sockets w1 ++ [ {| readyState := CONNECTING; sent := [];
                                             closeDispatched := false;
                                             resolved := None |} ]) w1 in
    let w3 := setWs (Some k) w2 in
    let '(h, w4) := setTimeout (TrackedTimeout k) 15000 w3 in
    let w5 := setConnectTimeoutId (Some h) w4 in
    let '(_, w6) := setTimeout (UntrackedTimeout k) 15000 w5 in
    (PromiseOfSocket k, w6).

Definition onopen (k : nat) (w : World) : World :=
  sendSetup (notify (onStateChange settingUp None) w).

Definition onclose (k : nat) (code reason : string) (w : World) : World :=
  let w1 := setWs None w in
  let w2 := notify (onStateChange disconnected None) w1 in
  let w3 := notify (onDisconnected
                      ("Connection closed: " ++ code ++ " " ++ reason)%string) w2 in
  resolveOnce k false w3.

Definition onerror (k : nat) (w : World) : World :=
  resolveOnce k false (notify (onStateChange error (Some "WebSocket error"%string)) w).

Definition onmessage (k : nat) (d : MessageData) (w : World) : World :=
  match d with
  | Json json => handleMessage k json w
  | Unparseable => w
  end.

Definition sendVideoFrame (jpegBase64 : string) (w : World) : World :=
  if negb (wsOpen w) then w else sendJSON (VideoFrame jpegBase64) w.

Definition sendAudio (pcmBase64 : string) (w : World) : World :=
  if negb (wsOpen w) then w else sendJSON (AudioFrame pcmBase64) w.

Definition sendToolResponse (callId name : string) (r : ToolResult) (w : World) : World :=
  sendJSON (ToolResponseFrame callId name r) w.

Definition disconnect (w : World) : World :=
  let w1 := match ws w with
            | Some k => setWs None (wsClose k w)
            | None => w
            end in
  notify (onStateChange disconnected None)
    (setIsModelSpeaking false (setSendQueue [] w1)).

(** *** The event loop *)

(** The host fires the pending timers that are due, one at a time: each
    time the oldest one that is due, looked up among the timers pending
    then.  All timers are armed with the same delay on a clock that does
    not go back, so the oldest is the one due first.  A timeout closure
    arms no timer, so as many rounds as there are pending timers fire all
    that are due. *)
Fixpoint fireDue (rounds : nat) (w : World) : World :=
  match rounds with
  | O => w
  | S rounds' =>
      match List.find (fun t => due t <=? now w) (timers w) with
      | Some t => fireDue rounds' (runTimer (callback t) (clearTimeout (handle t) w))
      | None => w
      end
  end.

Definition elapse (ms : N) (w : World) : World :=
  let w1 := setNow (now w + ms) w in
  fireDue (List.length (timers w1)) w1.

(** What happens to the client: a method is called, the host dispatches an
    event of socket [k], or time passes.  [WsError] is a failed connection:
    the error event, then the close event. *)
Inductive Event :=
| Connect (apiKey : string)
| SendVideoFrame (jpegBase64 : string)
| SendAudio (pcmBase64 : string)
| SendToolResponse (callId name : string) (r : ToolResult)
| Disconnect
| WsOpen (k : nat)
| WsMessage (k : nat) (d : MessageData)
| WsError (k : nat) (code reason : string)
| WsClose (k : nat) (code reason : string)
| Elapse (ms : N).

Definition dispatchClose (k : nat) (w : World) : World :=
  alterSocket k (fun s => {| readyState := CLOSED; sent := sent s;
                             closeDispatched := true; resolved := resolved s |}) w.

(** One event, when the host can dispatch it: a socket opens from
    CONNECTING only, a message arrives on an OPEN socket only, and a
    socket is closed once. *)
Definition step (e : Event) (w : World) : option World :=
  match e with
  | Connect apiKey => Some (snd (connect apiKey w))
  | SendVideoFrame d => Some (sendVideoFrame d w)
  | SendAudio d => Some (sendAudio d w)
  | SendToolResponse i n r => Some (sendToolResponse i n r w)
  | Disconnect => Some (disconnect w)
  | WsOpen k =>
      match readyStateOf k w with
      | Some CONNECTING => Some (onopen k (alterSocket k (setReadyState OPEN) w))
      | _ => None
      end
  | WsMessage k d =>
      match readyStateOf k w with
      | Some OPEN => Some (onmessage k d w)
      | _ => None
      end
  | WsError k code reason =>
      match closeDispatched <$> sockets w !! k with
      | Some false => Some (onclose k code reason (onerror k (dispatchClose k w)))
      | _ => None
      end
  | WsClose k code reason =>
      match closeDispatched <$> sockets w !! k with
      | Some false => Some (onclose k code reason (dispatchClose k w))
      | _ => None
      end
  | Elapse ms => Some (elapse ms w)
  end.

Fixpoint run (es : list Event) (w : World) : option World :=
  match es with
  | [] => Some w
  | e :: rest =>
      match step e w with
      | Some w' => run rest w'
      | None => None
      end
  end.

(** The time that passes in a list of events. *)
Fixpoint elapsed (es : list Event) : N :=
  match es with
  | [] => 0
  | Elapse ms :: rest => ms + elapsed rest
  | _ :: rest => elapsed rest
  end.

(** The message that acknowledges the setup, and one that does not. *)
Definition setupCompleteMessage : ServerMessage :=
  {| setupComplete := true; goAway := false; toolCallFunctionCalls := None;
     serverContent := None |}.

Definition isSetupComplete (d : MessageData) : bool :=
  match d with
  | Json json => setupComplete json
  | Unparseable => false
  end.

(** No acknowledgment of the setup arrives on socket [k] in [es]. *)
Fixpoint noSetupCompleteOn (k : nat) (es : list Event) : bool :=
  match es with
  | [] => true
  | WsMessage k' d :: rest =>
      negb ((k' =? k)%nat && isSetupComplete d) && noSetupCompleteOn k rest
  | _ :: rest => noSetupCompleteOn k rest
  end.

(** Inputs used to run the client on concrete traces. *)
Definition firstToolResult : ToolResult :=
  {| result := Some "added milk"%string; errorText := None |}.
Definition secondToolResult : ToolResult :=
  {| result := None; errorText := Some "not found"%string |}.
Definition firstResponse : Frame := ToolResponseFrame "call-1" "execute" firstToolResult.
Definition secondResponse : Frame := ToolResponseFrame "call-2" "execute" secondToolResult.

(** A connect that succeeds: the transport opens and the setup is
    acknowledged, 300 ms after the call. *)
Definition successfulConnect : list Event :=
  [Connect "key"; Elapse 200; WsOpen 0; Elapse 100;
   WsMessage 0 (Json setupCompleteMessage)].

(** A tool response submitted while connecting, another one submitted after
    the transport opened, then the acknowledgment of the setup. *)
Definition overtakingTrace : list Event :=
  [Connect "key"; SendToolResponse "call-1" "execute" firstToolResult;
   WsOpen 0; SendToolResponse "call-2" "execute" secondToolResult;
   WsMessage 0 (Json setupCompleteMessage)].

(** The world right after the transport opened: the setup is sent and not
    yet acknowledged. *)
Definition settingUpWorld : World :=
  default initialWorld (run [Connect "key"; WsOpen 0] initialWorld).

(** The world in which the transport has just opened with one tool response
    queued. *)
Definition worldWithQueuedResponse : World :=
  default initialWorld (run (take 3 overtakingTrace) initialWorld).

(** *** What the timers of a connect call depend on *)

(** The ready state of socket [k] and the value its promise was resolved
    with. *)
Definition socketCore (s : WebSocket) : ReadyState * option bool :=
  (readyState s, resolved s).

Definition coreAt (k : nat) (w : World) : option (ReadyState * option bool) :=
  (socketCore <$> sockets w) !! k.

(** [w'] differs from [w] in nothing that the timers or the promises can
    see: frames sent, the queue, the current socket, the speaking flag and
    the callbacks invoked may differ. *)
Definition sameCore (w w' : World) : Prop :=
  timers w' = timers w /\ now w' = now w /\
  connectTimeoutId w' = connectTimeoutId w /\ nextHandle w' = nextHandle w /\
  socketCore <$> sockets w' = socketCore <$> sockets w.

(** A timer of the connect call that made socket [k]. *)
Definition timerOf (k : nat) (t : Timer) : Prop :=
  callback t = TrackedTimeout k \/ callback t = UntrackedTimeout k.

(** The second timer of the connect call that made socket [k]. *)
Definition secondTimer (k h : nat) (T : N) : Timer :=
  {| handle := h; due := T; callback := UntrackedTimeout k |}.

(** Timer handles are below the next handle, and timers belong to sockets
    that exist. *)
Definition WellFormed (w : World) : Prop :=
  forall t : Timer,
    In t (timers w) ->
    (handle t < nextHandle w)%nat /\
    forall j : nat, timerOf j t -> (j < List.length (sockets w))%nat.

(** Before its deadline [T], the connect call that made socket [k] has its
    second timer pending under a handle [h] that nothing else uses and that
    [connectTimeoutId] does not hold; its timers are due at [T]; and its
    promise is resolved with [false] only once the socket is closed. *)
Record Pending (k h : nat) (T : N) (w : World) : Prop := {
  pend_timer : In (secondTimer k h T) (timers w);
  pend_unique : forall t, In t (timers w) -> handle t = h -> t = secondTimer k h T;
  pend_due : forall t, In t (timers w) -> timerOf k t -> due t = T;
  pend_now : now w < T;
  pend_ctid : connectTimeoutId w <> Some h;
  pend_handle : (h < nextHandle w)%nat;
  pend_socket : exists rs res, coreAt k w = Some (rs, res) /\
                               (res = Some false -> rs = CLOSED)
}.

(** The promise of the call that made socket [k] is not resolved with
    [true]. *)
Definition NotTrue (k : nat) (w : World) : Prop :=
  forall rs : ReadyState, coreAt k w <> Some (rs, Some true).

(** The socket of a timeout closure. *)
Definition timerSocket (cb : TimerCallback) : nat :=
  match cb with TrackedTimeout k | UntrackedTimeout k => k end.

(** The steps a handler is made of, as far as the timers and the promises
    can see.  [ack] says for which sockets the setup is being acknowledged:
    only their promise may be resolved with [true]. *)
Inductive CoreOp (ack : nat -> Prop) : World -> World -> Prop :=
| co_same (w w' : World) :
    sameCore w w' -> CoreOp ack w w'
| co_move (j : nat) (f : WebSocket -> WebSocket) (w : World) :
    (forall s, resolved (f s) = resolved s /\
               (readyState s = CLOSED -> readyState (f s) = CLOSED)) ->
    CoreOp ack w (alterSocket j f w)
| co_open (j : nat) (w : World) :
    readyStateOf j w = Some CONNECTING ->
    CoreOp ack w (alterSocket j (setReadyState OPEN) w)
| co_reject_closed (j : nat) (w : World) :
    readyStateOf j w = Some CLOSED ->
    CoreOp ack w (resolveOnce j false w)
| co_accept (j : nat) (w : World) :
    ack j -> CoreOp ack w (resolveOnce j true w)
| co_fire (t : Timer) (w : World) :
    In t (timers w) -> due t <= now w ->
    CoreOp ack w (runTimer (callback t) (clearTimeout (handle t) w))
| co_clear (h : nat) (w : World) :
    connectTimeoutId w = Some h ->
    CoreOp ack w (setConnectTimeoutId None (clearTimeout h w))
| co_connect (apiKey : string) (w : World) :
    CoreOp ack w (snd (connect apiKey w))
| co_now (ms : N) (w : World) :
    CoreOp ack w (setNow (now w + ms) w).

(** The sockets whose setup an event acknowledges. *)
Definition ackOf (e : Event) (j : nat) : Prop :=
  exists d, e = WsMessage j d /\ isSetupComplete d = true.

(** What follows a call of [connect] whose transport opens after 200 ms and
    whose setup is not acknowledged. *)
Definition openedNotAcknowledged : list Event := [Elapse 200; WsOpen 0; Elapse 100].

(** Every socket has, in [w'], the frames it had in [w], then possibly
    more. *)
Definition sentPrefix (w w' : World) : Prop :=
  forall k : nat, exists more : list Frame, sentOn k w' = sentOn k w ++ more.

(** *** What every run keeps of the frames sent *)

(** The first frame a socket was given, if any, is the setup message; and a
    socket that was given none is not the current socket while it is
    open. *)
Definition SetupFirst (w : World) : Prop :=
  forall (k : nat) (s : WebSocket),
    sockets w !! k = Some s ->
    (sent s = [] /\ (ws w = Some k -> readyState s <> OPEN)) \/
    (exists rest : list Frame, sent s = SetupFrame :: rest).

(** Nothing is sent. *)
Definition Quiet (w w' : World) : Prop :=
  forall k : nat, sentOn k w' = sentOn k w.

(** Nothing is sent, and the current socket and the ready states stay. *)
Definition Keeps (w w' : World) : Prop :=
  ws w' = ws w /\
  forall k : nat, sentOn k w' = sentOn k w /\ readyStateOf k w' = readyStateOf k w.

(** A socket that was given a frame is the current one, and open. *)
Definition SentOnOpen (w w' : World) : Prop :=
  forall k : nat,
    sentOn k w' = sentOn k w \/ (ws w' = Some k /\ readyStateOf k w' = Some OPEN).

End Session.

(** ** [detection.ts]: [normalizeBbox] *)

Module Detection.

Import Audio.

(** A property read from the argument of [normalizeBbox], of type
    [number | undefined]. *)
Inductive value := undefined | num (n : number).

(** The argument [{x?: number; y?: number; width?: number; height?: number}]. *)
Record PartialBbox := {
  argX : value; argY : value; argWidth : value; argHeight : value
}.

(** [BoundingBox], its fields ranging over all numbers. *)
Record BoundingBox := { x : number; y : number; width : number; height : number }.

(** [Number(v)]: NaN for [undefined]. *)
Definition Number (v : value) : number :=
  match v with
  | undefined => NaN
  | num n => n
  end.

(** [a ?? b]: [b] when [a] is [undefined]. *)
Definition nullishCoalesce (a b : value) : value :=
  match a with
  | undefined => b
  | num _ => a
  end.

Definition normalizeBbox (b : PartialBbox) : BoundingBox :=
  {| x := Math_max (Fin 0)
            (Math_min (Fin 1)
               (Number (nullishCoalesce (num (Number (argX b))) (num (Fin 0)))));
     y := Math_max (Fin 0)
            (Math_min (Fin 1)
               (Number (nullishCoalesce (num (Number (argY b))) (num (Fin 0)))));
     width := Math_max (Fin 0.01)
                (Math_min (Fin 1)
                   (Number (nullishCoalesce (num (Number (argWidth b))) (num (Fin 0.1)))));
     height := Math_max (Fin 0.01)
                 (Math_min (Fin 1)
                    (Number (nullishCoalesce (num (Number (argHeight b))) (num (Fin 0.1))))) |}.

(** A property that holds a number other than NaN. *)
Definition isNumeric (v : value) : Prop :=
  match v with
  | undefined | num NaN => False
  | num _ => True
  end.

(** The box as [tracking.ts] computes with it, when its four fields are
    finite. *)
Definition finiteBox (b : BoundingBox) : option Tracking.BoundingBox :=
  match x b, y b, width b, height b with
  | Fin x', Fin y', Fin w, Fin h =>
      Some {| Tracking.x := x'; Tracking.y := y';
              Tracking.width := w; Tracking.height := h |}
  | _, _, _, _ => None
  end.

(** An argument with a coordinate out of range and an infinite height. *)
Definition rawBox : PartialBbox :=
  {| argX := num (Fin (-0.2)); argY := num (Fin 0.3);
     argWidth := num (Fin 0.5); argHeight := num PosInf |}.

End Detection.

(** ** [hitTest.ts] *)

Module HitTest.

Import Tracking Audio.

(** *** [findItemAtPoint] *)

(** The test of the loop: the point lies in the box of the item, edges
    included. *)
Definition contains (normX normY : Q) (item : DetectedItem) : bool :=
  let b := bbox item in
  Qle_bool (x b) normX && Qle_bool normX (x b + width b) &&
  Qle_bool (y b) normY && Qle_bool normY (y b + height b).

(** The area of the box of an item. *)
Definition area (it : DetectedItem) : Q := width (bbox it) * height (bbox it).

(** The comparator given to [sort]: the difference of the areas. *)
Definition compareArea (a b : DetectedItem) : Q :=
  width (bbox a) * height (bbox a) - width (bbox b) * height (bbox b).

(** [Array.prototype.sort(compare)].  The sort is stable, so with a
    comparator that orders by a key its result is determined: ascending,
    items that compare equal in the order they had.  [sort] computes it by
    insertion from the right, an item going before the first one it does
    not compare greater than. *)
Fixpoint insert {A : Type} (compare : A -> A -> Q) (a : A) (sorted : list A) : list A :=
  match sorted with
  | [] => [a]
  | b :: rest =>
      if Qle_bool (compare a b) 0 then a :: b :: rest
      else b :: insert compare a rest
  end.

Definition sort {A : Type} (compare : A -> A -> Q) (l : list A) : list A :=
  fold_right (insert compare) [] l.

Definition findItemAtPoint (items : list DetectedItem) (normX normY : Q)
  : option DetectedItem :=
  let hit := List.filter (contains normX normY) items in
  if (List.length hit =? 0)%nat then None
  else if (List.length hit =? 1)%nat then head hit
  else head (sort compareArea hit).

End HitTest.

(** ** [env.ts] *)

Module Env.

Import JsString.

(** [import.meta.env]: the variables the module reads, each a string or
    [undefined]. *)
Record ImportMetaEnv := {
  VITE_GEMINI_API_KEY : option string;
  VITE_OPENCLAW_HOST : option string;
  VITE_OPENCLAW_PORT : option string;
  VITE_OPENCLAW_GATEWAY_TOKEN : option string;
  VITE_GROCEREEYE_API_URL : option string;
  VITE_DEDALUS_VOICE_API_KEY : option string;
  VITE_DEDALUS_VOICE_MODEL : option string;
  VITE_GEMINI_LIVE_API_KEY : option string
}.

(** [a ?? b]: [b] when [a] is [undefined]; with a string for [b] the
    result is a string. *)
Definition coalesce (a b : option string) : option string :=
  match a with
  | Some s => Some s
  | None => b
  end.

Definition orElse (a : option string) (b : string) : string :=
  match a with
  | Some s => s
  | None => b
  end.

(** The getters of [env]. *)
Definition geminiApiKey (e : ImportMetaEnv) : string :=
  orElse (VITE_GEMINI_API_KEY e) "".

Definition openClawHost (e : ImportMetaEnv) : string :=
  orElse (VITE_OPENCLAW_HOST e) "".

Definition openClawPort (e : ImportMetaEnv) : string :=
  orElse (VITE_OPENCLAW_PORT e) "18789".

Definition openClawToken (e : ImportMetaEnv) : string :=
  orElse (VITE_OPENCLAW_GATEWAY_TOKEN e) "".

Definition grocerEyeApiUrl (e : ImportMetaEnv) : string :=
  orElse (VITE_GROCEREEYE_API_URL e) "".

Definition dedalusVoiceApiKey (e : ImportMetaEnv) : string :=
  orElse (coalesce (VITE_DEDALUS_VOICE_API_KEY e) (VITE_GEMINI_API_KEY e)) "".

Definition dedalusVoiceModel (e : ImportMetaEnv) : string :=
  orElse (VITE_DEDALUS_VOICE_MODEL e) "mistralai/mistral-small".

Definition geminiLiveApiKey (e : ImportMetaEnv) : string :=
  orElse (coalesce (VITE_GEMINI_LIVE_API_KEY e) (Some (geminiApiKey e))) "".

Definition isDedalusApiKey (key : string) : bool :=
  truthy key && startsWith key "dsk-".

Definition isGeminiConfigured (e : ImportMetaEnv) : bool :=
  truthy (geminiApiKey e) && negb (String.eqb (geminiApiKey e) "YOUR_GEMINI_API_KEY").

Definition getGeminiLiveKey (e : ImportMetaEnv) : string :=
  let k := geminiLiveApiKey e in
  if isDedalusApiKey k then "" else k.

Definition isOpenClawConfigured (e : ImportMetaEnv) : bool :=
  truthy (openClawHost e) &&
  negb (String.eqb (openClawHost e) "http://YOUR_MAC_HOSTNAME.local") &&
  truthy (openClawToken e) &&
  negb (String.eqb (openClawToken e) "YOUR_OPENCLAW_GATEWAY_TOKEN").

Definition isGrocerEyeConfigured (e : ImportMetaEnv) : bool :=
  truthy (grocerEyeApiUrl e) && negb (String.eqb (grocerEyeApiUrl e) "").

End Env.

(** ** [rag.ts]: profiles and the shopping list *)

Module Rag.

Import JsString.

Record BloodworkDeficiency := {
  nutrient : string;
  severity : option string;
  targetDaily : option string
}.

Record BodyHealth := {
  weightKg : option Q;
  heightCm : option Q;
  healthConditions : option (list string);
  bodyGoals : option (list string);
  healthNotes : option string
}.

Record PersonProfile := {
  id : string;
  name : string;
  dietaryRestrictions : list string;
  proteinAndBudget : bool;
  bloodworkDeficiencies : list BloodworkDeficiency;
  shoppingList : list string;
  notes : option string;
  bodyHealth : option BodyHealth
}.

Definition isOnShoppingList (label : string) (profile : PersonProfile) : bool :=
  let lower := toLowerCase label in
  existsb (fun item => includes lower (toLowerCase item)
                       || includes (toLowerCase item) lower)
    (shoppingList profile).

End Rag.

(** ** [overlayRelevance.ts] *)

Module Overlay.

Import JsString Rag.

Inductive EmphasisLevel := high | medium | none.

Record OverlaySnippet := {
  emphasis : EmphasisLevel;
  badge : option string;
  line : option string
}.

(** [Boolean(relevanceFromApi?.trim())]. *)
Definition hasRelevance (relevanceFromApi : option string) : bool :=
  match relevanceFromApi with
  | Some r => truthy (trim r)
  | None => false
  end.

Definition getOverlaySnippet (label : string) (profile : option PersonProfile)
    (relevanceFromApi : option string) : OverlaySnippet :=
  match profile with
  | None => {| emphasis := none; badge := None; line := None |}
  | Some p =>
      let onList := isOnShoppingList label p in
      if onList && hasRelevance relevanceFromApi then
        {| emphasis := high; badge := Some "On list"%string;
           line := trim <$> relevanceFromApi |}
      else if onList then
        {| emphasis := high; badge := Some "On list"%string; line := None |}
      else if hasRelevance relevanceFromApi then
        {| emphasis := high; badge := None; line := trim <$> relevanceFromApi |}
      else {| emphasis := none; badge := None; line := None |}
  end.

End Overlay.

(** ** [camera.ts]: the frames captured for detection *)

Module Camera.

(** What the capture functions read of the video element. *)
Record HTMLVideoElement := {
  readyState : nat;
  videoWidth : N;
  videoHeight : N
}.

(** What the host decides: whether [getContext('2d')] gives a context, and
    what [toDataURL] gives for a canvas of a given size and a quality, the
    URL or nothing when it throws. *)
Record CanvasHost := {
  hasContext : bool;
  toDataURL : Z -> Z -> Q -> option string
}.

(** [Math.round]: the nearest integer, halves going up. *)
Definition Math_round (q : Q) : Z := Qfloor (q + 0.5).

(** [s.split(',')]: the pieces between the commas.  [cur] is the piece
    being read, reversed. *)
Fixpoint splitComma (cur : list ascii) (s : string) : list string :=
  match s with
  | EmptyString => [string_of_list_ascii (rev cur)]
  | String c rest =>
      if Ascii.eqb c ","%char
      then string_of_list_ascii (rev cur) :: splitComma [] rest
      else splitComma (c :: cur) rest
  end.

(** The size of the canvas of [captureFrameToJpegForDetection]: [dw] and
    [dh]. *)
Definition detectionSize (w h : N) (maxSize : Q) : Z * Z :=
  let wq := inject_Z (Z.of_N w) in
  let hq := inject_Z (Z.of_N h) in
  let scale := maxSize / Qmax wq hq in
  let dw := if Qle_bool 1 scale then Z.of_N w else Math_round (wq * scale) in
  let dh := if Qle_bool 1 scale then Z.of_N h else Math_round (hq * scale) in
  (dw, dh).

Definition captureFrameToJpegForDetection (host : CanvasHost)
    (video : HTMLVideoElement) (maxSize quality : Q) : option string :=
  if (readyState video <? 2)%nat || (videoWidth video =? 0)%N then None
  else
    let '(dw, dh) := detectionSize (videoWidth video) (videoHeight video) maxSize in
    if negb (hasContext host) then None
    else
      match toDataURL host dw dh quality with
      | Some url => splitComma [] url !! 1%nat
      | None => None
      end.

(** [captureFrameToJpeg]: the canvas has the size of the video. *)
Definition captureFrameToJpeg (host : CanvasHost) (video : HTMLVideoElement)
    (quality : Q) : option string :=
  if (readyState video <? 2)%nat || (videoWidth video =? 0)%N then None
  else if negb (hasContext host) then None
  else
    match toDataURL host (Z.of_N (videoWidth video)) (Z.of_N (videoHeight video)) quality with
    | Some url => splitComma [] url !! 1%nat
    | None => None
    end.

End Camera.

(** ** The arithmetic of the source: binary64

    The modules above compute on exact rationals.  Here are [iou] of
    [tracking.ts] and the scheduling step of [drainPlayback] once more, on
    the numbers of the source: IEEE 754 binary64, every operation rounded
    to nearest.  They are used to run the code where rounding decides the
    result. *)

Module Binary64.

Import PrimFloat.
Local Open Scope float_scope.
Local Set Warnings "-inexact-float".

Definition number : Set := float.

(** [Math.max(a, b)] and [Math.min(a, b)]: NaN when an argument is NaN,
    and [-0] below [+0]. *)
Definition Math_max (a b : number) : number :=
  if is_nan a || is_nan b then nan
  else if a <? b then b
  else if b <? a then a
  else match classify a with FloatClass.NZero => b | _ => a end.

Definition Math_min (a b : number) : number :=
  if is_nan a || is_nan b then nan
  else if a <? b then a
  else if b <? a then b
  else match classify a with FloatClass.NZero => a | _ => b end.

Record BoundingBox := { x : number; y : number; width : number; height : number }.

Definition iou (a b : BoundingBox) : number :=
  let ax1 := x a in
  let ay1 := y a in
  let ax2 := x a + width a in
  let ay2 := y a + height a in
  let bx1 := x b in
  let by1 := y b in
  let bx2 := x b + width b in
  let by2 := y b + height b in
  let ix1 := Math_max ax1 bx1 in
  let iy1 := Math_max ay1 by1 in
  let ix2 := Math_min ax2 bx2 in
  let iy2 := Math_min ay2 by2 in
  if (ix2 <=? ix1) || (iy2 <=? iy1) then 0
  else
    let inter := (ix2 - ix1) * (iy2 - iy1) in
    let areaA := width a * height a in
    let areaB := width b * height b in
    let union := areaA + areaB - inter in
    if union <=? 0 then 0 else inter / union.

Definition RECV_SAMPLE_RATE : number := 24000.

(** [buffer.duration] of a buffer of [length] frames at 24 kHz. *)
Definition bufferDuration (length : number) : number := length / RECV_SAMPLE_RATE.

(** The last three lines of [drainPlayback]: the start of the source and
    the new value of [nextPlayTime]. *)
Definition schedule (nextPlayTime currentTime duration : number) : number * number :=
  let start := Math_max nextPlayTime currentTime in
  (start, start + duration).

(** Three chunks of the same duration scheduled on a running context at the
    times [t1], [t2], [t3] of its clock: the three starts. *)
Definition threeStarts (nextPlayTime t1 t2 t3 duration : number)
  : number * number * number :=
  let '(s1, n1) := schedule nextPlayTime t1 duration in
  let '(s2, n2) := schedule n1 t2 duration in
  let '(s3, n3) := schedule n2 t3 duration in
  (s1, s2, s3).


End Binary64.

(** ** Facts about the comparisons *)

Lemma Qgt_bool_iff (a b : Q) : Qgt_bool a b = true <-> b < a.
Proof.
  unfold Qgt_bool. rewrite negb_true_iff. split.
  - intros H. apply Qnot_le_lt. intros Hle.
    apply Qle_bool_iff in Hle. congruence.
  - intros H. destruct (Qle_bool a b) eqn:E; [|reflexivity].
    apply Qle_bool_iff in E. exfalso. apply (Qlt_not_le _ _ H E).
Qed.

Lemma Qle_bool_false_iff (a b : Q) : Qle_bool a b = false <-> b < a.
Proof.
  rewrite <- Qgt_bool_iff. unfold Qgt_bool. symmetry. apply negb_true_iff.
Qed.

(** ** The code on binary64 numbers *)

Module Binary64Facts.

Import PrimFloat Binary64.
Local Open Scope float_scope.
Local Set Warnings "-inexact-float".


(** The claim of C8 fails by the rounding of [start + buffer.duration]:
    three chunks of 480 frames, 0.02 s each, fed to a running context at
    0.5 s, 0.51 s and 0.53 s, each before the end of the one before, start
    at 0.5, 0.52 and 0.54000000000000004; the second starts
    0.020000000000000018 after the first and the third
    0.040000000000000036 after it, which are not [D] and [2 D]. *)
Lemma chunk_starts_are_not_D_and_2D_after_the_first :
  bufferDuration 480 = 0.02 /\
  threeStarts 0 0.5 0.51 0.53 (bufferDuration 480)
  = (0.5, 0.52, 0.54000000000000004) /\
  0.52 - 0.5 = 0.020000000000000018 /\
  (0.52 - 0.5 =? bufferDuration 480) = false /\
  0.54000000000000004 - 0.5 = 0.040000000000000036 /\
  (0.54000000000000004 - 0.5 =? 2 * bufferDuration 480) = false.
Proof. repeat split; vm_compute; reflexivity. Qed.

End Binary64Facts.

(** ** Facts about [tracking.ts] *)

Module TrackingFacts.

Import JsString Tracking.

(** *** The inner loop *)

(** The loop either leaves the running best as it was, or it ends on an
    unused index [j >= i] of [items] whose overlap is the result and is
    strictly larger than the overlap it started with. *)
Lemma findBest_spec (overlap : DetectedItem -> Q) (items : list DetectedItem) :
  forall (i : nat) (used : gset nat) (best : Best),
    findBest overlap items i used best = best \/
    exists (j : nat) (it : DetectedItem),
      bestIdx (findBest overlap items i used best) = Some j /\
      (i <= j)%nat /\ items !! (j - i)%nat = Some it /\ (j ∉ used) /\
      bestIou (findBest overlap items i used best) = overlap it /\
      bestIou best < bestIou (findBest overlap items i used best).
Proof.
  induction items as [|it rest IH]; intros i used best; simpl.
  - now left.
  - assert (Hshift : forall (j : nat) (d : DetectedItem),
               (S i <= j)%nat -> rest !! (j - S i)%nat = Some d ->
               (it :: rest) !! (j - i)%nat = Some d).
    { intros j d Hj Hd. replace (j - i)%nat with (S (j - S i)) by lia. exact Hd. }
    case_bool_decide as Hin.
    + destruct (IH (S i) used best) as [-> | (j & d & Hj & Hle & Hlk & Hn & Ho & Hlt)].
      * now left.
      * right. exists j, d. repeat split; auto; try lia.
    + destruct (Qgt_bool (overlap it) (bestIou best)) eqn:Hgt.
      * apply Qgt_bool_iff in Hgt. right.
        destruct (IH (S i) used {| bestIdx := Some i; bestIou := overlap it |})
          as [-> | (j & d & Hj & Hle & Hlk & Hn & Ho & Hlt)].
        -- exists i, it. simpl. rewrite Nat.sub_diag. repeat split; auto.
        -- exists j, d. simpl in Hlt. repeat split; auto; try lia.
           eapply Qlt_trans; eassumption.
      * destruct (IH (S i) used best) as [-> | (j & d & Hj & Hle & Hlk & Hn & Ho & Hlt)].
        -- now left.
        -- right. exists j, d. repeat split; auto; try lia.
Qed.

(** From an empty running best, a found index is in range, unused, carries
    the overlap of its item, and that overlap is above the threshold. *)
Lemma findBest_found (overlap : DetectedItem -> Q) (items : list DetectedItem)
    (used : gset nat) (thresh : Q) (j : nat) :
  bestIdx (findBest overlap items 0 used {| bestIdx := None; bestIou := thresh |}) = Some j ->
  exists it : DetectedItem,
    items !! j = Some it /\ (j ∉ used) /\
    bestIou (findBest overlap items 0 used {| bestIdx := None; bestIou := thresh |}) = overlap it /\
    thresh < overlap it.
Proof.
  intros Hj.
  destruct (findBest_spec overlap items 0 used {| bestIdx := None; bestIou := thresh |})
    as [E | (j' & it & Hj' & _ & Hlk & Hn & Ho & Hlt)].
  - rewrite E in Hj. discriminate.
  - rewrite Hj in Hj'. injection Hj' as <-. rewrite Nat.sub_0_r in Hlk.
    exists it. simpl in Hlt. rewrite Ho in Hlt. auto.
Qed.

(** *** [mergeWithPrevious] *)

(** What one iteration pushes for the target [t]. *)
Lemma mergeOne_matched (displayed : list DetectedItem) (used : gset nat)
    (t : DetectedItem) (lerpT : Q) (i : nat) :
  bestIdx (fst (mergeOne displayed used t lerpT)) = Some i ->
  exists prev : DetectedItem,
    displayed !! i = Some prev /\ (i ∉ used) /\
    bestIou (fst (mergeOne displayed used t lerpT)) = iou (bbox prev) (bbox t) /\
    MATCH_IOU_THRESH < iou (bbox prev) (bbox t) /\
    snd (mergeOne displayed used t lerpT) =
      {| label := if isMoreSpecificThan (label prev) (label t)
                  then label t else label prev;
         bbox := if Qle_bool STABILITY_IOU (iou (bbox prev) (bbox t))
                 then bbox prev else lerpBbox (bbox prev) (bbox t) lerpT |}.
Proof.
  unfold mergeOne.
  set (m := findBest _ displayed 0%nat used _).
  intros Hi.
  assert (Hm : bestIdx m = Some i).
  { destruct (bestIdx m) as [i'|] eqn:E.
    - destruct (displayed !! i'); simpl in Hi; congruence.
    - simpl in Hi. congruence. }
  destruct (findBest_found _ _ _ _ _ Hm) as (prev & Hlk & Hn & Ho & Hlt).
  fold m in Ho. exists prev. rewrite Hm, Hlk. simpl. rewrite Ho. auto.
Qed.


(** The [k]-th record of the loop is one iteration, run on the [k]-th target
    with a set of used indices that contains the initial one. *)
Lemma mergeLoop_lookup (displayed : list DetectedItem) (lerpT : Q)
    (target : list DetectedItem) :
  forall (used : gset nat) (k : nat) (r : Best * DetectedItem),
    mergeLoop displayed target used lerpT !! k = Some r ->
    exists (t : DetectedItem) (used_k : gset nat),
      target !! k = Some t /\ used ⊆ used_k /\
      r = mergeOne displayed used_k t lerpT.
Proof.
  induction target as [|t ts IH]; intros used k r; simpl.
  - intros H. discriminate.
  - destruct k as [|k]; simpl.
    + intros [= <-]. exists t, used. auto.
    + intros H. destruct (IH _ _ _ H) as (t' & u & Ht & Hsub & ->).
      exists t', u. repeat split; auto.
      unfold addUsed in Hsub. destruct (bestIdx _); set_solver.
Qed.

Lemma mergeLoop_length (displayed : list DetectedItem) (lerpT : Q)
    (target : list DetectedItem) (used : gset nat) :
  List.length (mergeLoop displayed target used lerpT) = List.length target.
Proof.
  revert used. induction target as [|t ts IH]; intros used; simpl; auto.
Qed.

(** No record of the loop matches an index that was used when it started. *)
Lemma mergeLoop_fresh (displayed : list DetectedItem) (lerpT : Q)
    (target : list DetectedItem) (used : gset nat) (k i : nat)
    (r : Best * DetectedItem) :
  mergeLoop displayed target used lerpT !! k = Some r ->
  bestIdx (fst r) = Some i -> i ∉ used.
Proof.
  intros H Hi. destruct (mergeLoop_lookup _ _ _ _ _ _ H) as (t & u & _ & Hsub & ->).
  destruct (mergeOne_matched _ _ _ _ _ Hi) as (_ & _ & Hn & _). set_solver.
Qed.

(** A displayed index is matched by at most one target. *)
Lemma mergeLoop_injective (displayed : list DetectedItem) (lerpT : Q)
    (target : list DetectedItem) :
  forall (used : gset nat) (k1 k2 i : nat) (r1 r2 : Best * DetectedItem),
    mergeLoop displayed target used lerpT !! k1 = Some r1 ->
    mergeLoop displayed target used lerpT !! k2 = Some r2 ->
    bestIdx (fst r1) = Some i -> bestIdx (fst r2) = Some i -> k1 = k2.
Proof.
  induction target as [|t ts IH]; intros used k1 k2 i r1 r2; simpl.
  - intros H. discriminate.
  - destruct k1 as [|k1], k2 as [|k2]; simpl; auto.
    + intros [= <-] H2 H1i H2i. exfalso.
      apply (mergeLoop_fresh _ _ _ _ _ _ _ H2) in H2i.
      unfold addUsed in H2i. rewrite H1i in H2i. set_solver.
    + intros H1 [= <-] H1i H2i. exfalso.
      apply (mergeLoop_fresh _ _ _ _ _ _ _ H1) in H1i.
      unfold addUsed in H1i. rewrite H2i in H1i. set_solver.
    + intros H1 H2 H1i H2i. f_equal. eapply IH; eassumption.
Qed.

(** *** [stepDisplayedTowardTarget] *)

Lemma stepOne_matched (target : list DetectedItem) (used : gset nat)
    (d : DetectedItem) (lerpT : Q) (i : nat) :
  bestIdx (fst (stepOne target used d lerpT)) = Some i ->
  exists t : DetectedItem,
    target !! i = Some t /\ (i ∉ used) /\
    0.05 < iou (bbox d) (bbox t) /\
    snd (stepOne target used d lerpT) =
      Some {| label := if isMoreSpecificThan (label d) (label t)
                       then label t else label d;
              bbox := if Qle_bool STABILITY_IOU (iou (bbox d) (bbox t))
                      then bbox d else lerpBbox (bbox d) (bbox t) lerpT |}.
Proof.
  unfold stepOne.
  set (m := findBest _ target 0%nat used _).
  intros Hi.
  assert (Hm : bestIdx m = Some i).
  { destruct (bestIdx m) as [i'|] eqn:E.
    - destruct (target !! i'); simpl in Hi; congruence.
    - simpl in Hi. congruence. }
  destruct (findBest_found _ _ _ _ _ Hm) as (t & Hlk & Hn & Ho & Hlt).
  exists t. rewrite Hm, Hlk. simpl. auto.
Qed.

Lemma stepOne_unmatched (target : list DetectedItem) (used : gset nat)
    (d : DetectedItem) (lerpT : Q) :
  bestIdx (fst (stepOne target used d lerpT)) = None ->
  snd (stepOne target used d lerpT) = None.
Proof.
  unfold stepOne.
  set (m := findBest _ target 0%nat used _).
  destruct (bestIdx m) as [i|] eqn:E; [|reflexivity].
  destruct (target !! i); simpl; congruence.
Qed.

(** Marking one more target index as used removes exactly one item from the
    second loop. *)
Lemma appendUnmatched_add (target : list DetectedItem) :
  forall (j i : nat) (used : gset nat),
    (j <= i)%nat -> (i - j < List.length target)%nat -> i ∉ used ->
    S (List.length (appendUnmatched target j ({[ i ]} ∪ used)))
    = List.length (appendUnmatched target j used).
Proof.
  induction target as [|t ts IH]; intros j i used Hle Hlt Hn; simpl in *.
  - lia.
  - destruct (decide (i = j)) as [->|Hne].
    + rewrite bool_decide_true by set_solver.
      rewrite (bool_decide_false (j ∈ used)) by assumption. simpl. f_equal.
      clear IH Hlt Hle. assert (Hj : (j < S j)%nat) by lia. revert Hj.
      generalize (S j) as s. induction ts as [|t' ts' IH']; intros s Hs; simpl; auto.
      rewrite (bool_decide_ext (s ∈ {[ j ]} ∪ used) (s ∈ used)).
      * case_bool_decide; simpl; rewrite IH' by lia; reflexivity.
      * rewrite elem_of_union, elem_of_singleton. split; [intros [?|?]|]; auto; lia.
    + rewrite (bool_decide_ext (j ∈ {[ i ]} ∪ used) (j ∈ used))
        by (rewrite elem_of_union, elem_of_singleton; split; [intros [?|?]|]; auto; lia).
      case_bool_decide; simpl; rewrite <- (IH (S j) i used) by (auto; lia); reflexivity.
Qed.

Lemma appendUnmatched_empty (target : list DetectedItem) (j : nat) :
  List.length (appendUnmatched target j ∅) = List.length target.
Proof.
  revert j. induction target as [|t ts IH]; intros j; simpl; auto.
  rewrite bool_decide_false by apply not_elem_of_empty.
  simpl. f_equal. apply IH.
Qed.

Lemma omap_snd_cons (r : Best * option DetectedItem)
    (rs : list (Best * option DetectedItem)) :
  omap snd (r :: rs)
  = match snd r with Some it => it :: omap snd rs | None => omap snd rs end.
Proof. reflexivity. Qed.

(** The pushes of the first loop and of the second loop together are as many
    as the second loop alone would have pushed at the start. *)
Lemma stepLoop_length (target : list DetectedItem) (lerpT : Q)
    (displayed : list DetectedItem) :
  forall used : gset nat,
    (List.length (omap snd (snd (stepLoop displayed target used lerpT)))
     + List.length (appendUnmatched target 0 (fst (stepLoop displayed target used lerpT))))%nat
    = List.length (appendUnmatched target 0 used).
Proof.
  induction displayed as [|d ds IH]; intros used.
  - reflexivity.
  - cbn [stepLoop].
    specialize (IH (addUsed (fst (stepOne target used d lerpT)) used)).
    destruct (stepLoop ds target _ lerpT) as [used' rs] eqn:E.
    cbn [fst snd] in *. rewrite omap_snd_cons.
    destruct (bestIdx (fst (stepOne target used d lerpT))) as [i|] eqn:Hi.
    + destruct (stepOne_matched _ _ _ _ _ Hi) as (t & Hlk & Hn & _ & Hs).
      rewrite Hs. cbn [List.length Nat.add]. rewrite IH. unfold addUsed. rewrite Hi.
      apply appendUnmatched_add; auto; try lia.
      rewrite Nat.sub_0_r. eapply lookup_lt_Some; eassumption.
    + rewrite (stepOne_unmatched _ _ _ _ Hi). rewrite IH.
      unfold addUsed. rewrite Hi. reflexivity.
Qed.

Lemma stepLoop_records (target : list DetectedItem) (lerpT : Q)
    (displayed : list DetectedItem) :
  forall used : gset nat,
    List.length (snd (stepLoop displayed target used lerpT)) = List.length displayed.
Proof.
  induction displayed as [|d ds IH]; intros used; simpl; auto.
  specialize (IH (addUsed (fst (stepOne target used d lerpT)) used)).
  destruct (stepLoop ds target _ lerpT) as [used' rs]. simpl in *. lia.
Qed.

Lemma stepLoop_lookup (target : list DetectedItem) (lerpT : Q)
    (displayed : list DetectedItem) :
  forall (used : gset nat) (k : nat) (r : Best * option DetectedItem),
    snd (stepLoop displayed target used lerpT) !! k = Some r ->
    exists (d : DetectedItem) (used_k : gset nat),
      displayed !! k = Some d /\ used ⊆ used_k /\
      r = stepOne target used_k d lerpT.
Proof.
  induction displayed as [|d ds IH]; intros used k r; simpl.
  - intros H. discriminate.
  - specialize (IH (addUsed (fst (stepOne target used d lerpT)) used)).
    destruct (stepLoop ds target _ lerpT) as [used' rs]. simpl in *.
    destruct k as [|k]; simpl.
    + intros [= <-]. exists d, used. auto.
    + intros H. destruct (IH _ _ H) as (d' & u & Hd & Hsub & ->).
      exists d', u. repeat split; auto.
      unfold addUsed in Hsub. destruct (bestIdx _); set_solver.
Qed.

Lemma stepLoop_fresh (target : list DetectedItem) (lerpT : Q)
    (displayed : list DetectedItem) (used : gset nat) (k i : nat)
    (r : Best * option DetectedItem) :
  snd (stepLoop displayed target used lerpT) !! k = Some r ->
  bestIdx (fst r) = Some i -> i ∉ used.
Proof.
  intros H Hi. destruct (stepLoop_lookup _ _ _ _ _ _ H) as (d & u & _ & Hsub & ->).
  destruct (stepOne_matched _ _ _ _ _ Hi) as (_ & _ & Hn & _). set_solver.
Qed.

(** A target index is matched by at most one displayed item. *)
Lemma stepLoop_injective (target : list DetectedItem) (lerpT : Q)
    (displayed : list DetectedItem) :
  forall (used : gset nat) (k1 k2 i : nat) (r1 r2 : Best * option DetectedItem),
    snd (stepLoop displayed target used lerpT) !! k1 = Some r1 ->
    snd (stepLoop displayed target used lerpT) !! k2 = Some r2 ->
    bestIdx (fst r1) = Some i -> bestIdx (fst r2) = Some i -> k1 = k2.
Proof.
  induction displayed as [|d ds IH]; intros used k1 k2 i r1 r2; simpl.
  - intros H. discriminate.
  - pose proof (stepLoop_fresh target lerpT ds
                  (addUsed (fst (stepOne target used d lerpT)) used)) as Hfresh.
    specialize (IH (addUsed (fst (stepOne target used d lerpT)) used)).
    destruct (stepLoop ds target _ lerpT) as [used' rs]. simpl in *.
    destruct k1 as [|k1], k2 as [|k2]; simpl; auto.
    + intros [= <-] H2 H1i H2i. exfalso.
      apply (Hfresh _ _ _ H2) in H2i.
      unfold addUsed in H2i. rewrite H1i in H2i. set_solver.
    + intros H1 [= <-] H1i H2i. exfalso.
      apply (Hfresh _ _ _ H1) in H1i.
      unfold addUsed in H1i. rewrite H2i in H1i. set_solver.
    + intros H1 H2 H1i H2i. f_equal. eapply IH; eassumption.
Qed.

Lemma stepDisplayedTowardTarget_unfold (displayed target : list DetectedItem) (lerpT : Q) :
  stepDisplayedTowardTarget displayed target lerpT
  = omap snd (snd (stepLoop displayed target ∅ lerpT))
    ++ appendUnmatched target 0 (fst (stepLoop displayed target ∅ lerpT)).
Proof.
  unfold stepDisplayedTowardTarget. destruct (stepLoop displayed target ∅ lerpT); reflexivity.
Qed.

(** C10.  Both [mergeWithPrevious] and [stepDisplayedTowardTarget] return
    exactly one item per target item, whatever the displayed list; in both,
    the matching recorded by the outer loop is injective (the [used] set
    lets an index be matched once only); and an empty target gives an empty
    result. *)
Theorem tracker_output_length_and_injective_matching
    (displayed target : list DetectedItem) (lerpT : Q) :
  List.length (mergeWithPrevious displayed target lerpT) = List.length target /\
  List.length (stepDisplayedTowardTarget displayed target lerpT) = List.length target /\
  (forall (k1 k2 i : nat) (r1 r2 : Best * DetectedItem),
      mergeLoop displayed target ∅ lerpT !! k1 = Some r1 ->
      mergeLoop displayed target ∅ lerpT !! k2 = Some r2 ->
      bestIdx (fst r1) = Some i -> bestIdx (fst r2) = Some i -> k1 = k2) /\
  (forall (k1 k2 i : nat) (r1 r2 : Best * option DetectedItem),
      snd (stepLoop displayed target ∅ lerpT) !! k1 = Some r1 ->
      snd (stepLoop displayed target ∅ lerpT) !! k2 = Some r2 ->
      bestIdx (fst r1) = Some i -> bestIdx (fst r2) = Some i -> k1 = k2) /\
  List.length (snd (stepLoop displayed target ∅ lerpT)) = List.length displayed /\
  mergeWithPrevious displayed [] lerpT = [] /\
  stepDisplayedTowardTarget displayed [] lerpT = [].
Proof.
  split; [|split; [|split; [|split; [|split; [|split]]]]].
  - unfold mergeWithPrevious. rewrite length_map. apply mergeLoop_length.
  - rewrite stepDisplayedTowardTarget_unfold, length_app, stepLoop_length.
    apply appendUnmatched_empty.
  - apply mergeLoop_injective.
  - apply stepLoop_injective.
  - apply stepLoop_records.
  - reflexivity.
  - apply nil_length_inv.
    rewrite stepDisplayedTowardTarget_unfold, length_app, stepLoop_length.
    reflexivity.
Qed.

(** *** [iou] *)

Lemma iou_noOverlap (a b : BoundingBox) : noOverlap a b -> iou a b = 0.
Proof.
  unfold noOverlap, overlapWidth, overlapHeight, iou. intros H.
  replace (Qle_bool (Qmin (x a + width a) (x b + width b)) (Qmax (x a) (x b))
           || Qle_bool (Qmin (y a + height a) (y b + height b)) (Qmax (y a) (y b)))
    with true; [reflexivity|].
  symmetry. apply orb_true_iff.
  destruct H as [H|H]; [left|right]; apply Qle_bool_iff; lra.
Qed.

Lemma iou_overlap (a b : BoundingBox) :
  0 < overlapWidth a b -> 0 < overlapHeight a b ->
  0 < width a * height a + width b * height b - overlapWidth a b * overlapHeight a b ->
  iou a b = overlapWidth a b * overlapHeight a b
            / (width a * height a + width b * height b
               - overlapWidth a b * overlapHeight a b).
Proof.
  unfold overlapWidth, overlapHeight, iou. intros Hw Hh Hu.
  replace (Qle_bool (Qmin (x a + width a) (x b + width b)) (Qmax (x a) (x b))
           || Qle_bool (Qmin (y a + height a) (y b + height b)) (Qmax (y a) (y b)))
    with false.
  - apply Qle_bool_false_iff in Hu. rewrite Hu. reflexivity.
  - symmetry. apply orb_false_iff. split; apply Qle_bool_false_iff; lra.
Qed.

Lemma overlapWidth_le (a b : BoundingBox) :
  overlapWidth a b <= width a /\ overlapWidth a b <= width b.
Proof.
  unfold overlapWidth.
  pose proof (Q.le_min_l (x a + width a) (x b + width b)).
  pose proof (Q.le_min_r (x a + width a) (x b + width b)).
  pose proof (Q.le_max_l (x a) (x b)).
  pose proof (Q.le_max_r (x a) (x b)).
  split; lra.
Qed.

Lemma overlapHeight_le (a b : BoundingBox) :
  overlapHeight a b <= height a /\ overlapHeight a b <= height b.
Proof.
  unfold overlapHeight.
  pose proof (Q.le_min_l (y a + height a) (y b + height b)).
  pose proof (Q.le_min_r (y a + height a) (y b + height b)).
  pose proof (Q.le_max_l (y a) (y b)).
  pose proof (Q.le_max_r (y a) (y b)).
  split; lra.
Qed.


(** *** Labels *)











(** *** Matched pairs of [mergeWithPrevious] and [stepDisplayedTowardTarget] *)

Lemma mergeLoop_matched (displayed target : list DetectedItem) (lerpT : Q)
    (k i : nat) (r : Best * DetectedItem) (t prev : DetectedItem) :
  mergeLoop displayed target ∅ lerpT !! k = Some r ->
  target !! k = Some t -> bestIdx (fst r) = Some i -> displayed !! i = Some prev ->
  bestIou (fst r) = iou (bbox prev) (bbox t) /\
  MATCH_IOU_THRESH < iou (bbox prev) (bbox t) /\
  snd r = {| label := if isMoreSpecificThan (label prev) (label t)
                      then label t else label prev;
             bbox := if Qle_bool STABILITY_IOU (iou (bbox prev) (bbox t))
                     then bbox prev else lerpBbox (bbox prev) (bbox t) lerpT |}.
Proof.
  intros Hr Ht Hi Hprev.
  destruct (mergeLoop_lookup _ _ _ _ _ _ Hr) as (t' & u & Ht' & _ & ->).
  assert (t' = t) as -> by congruence.
  destruct (mergeOne_matched _ _ _ _ _ Hi) as (prev' & Hp & _ & Ho & Hlt & Hs).
  assert (prev' = prev) as -> by congruence. auto.
Qed.

Lemma mergeLoop_output (displayed target : list DetectedItem) (lerpT : Q)
    (k : nat) (r : Best * DetectedItem) :
  mergeLoop displayed target ∅ lerpT !! k = Some r ->
  mergeWithPrevious displayed target lerpT !! k = Some (snd r).
Proof.
  intros H. unfold mergeWithPrevious. rewrite list_lookup_fmap, H. reflexivity.
Qed.

Lemma stepLoop_matched (displayed target : list DetectedItem) (lerpT : Q)
    (k i : nat) (r : Best * option DetectedItem) (d t : DetectedItem) :
  snd (stepLoop displayed target ∅ lerpT) !! k = Some r ->
  displayed !! k = Some d -> bestIdx (fst r) = Some i -> target !! i = Some t ->
  0.05 < iou (bbox d) (bbox t) /\
  snd r = Some {| label := if isMoreSpecificThan (label d) (label t)
                           then label t else label d;
                  bbox := if Qle_bool STABILITY_IOU (iou (bbox d) (bbox t))
                          then bbox d else lerpBbox (bbox d) (bbox t) lerpT |}.
Proof.
  intros Hr Hd Hi Ht.
  destruct (stepLoop_lookup _ _ _ _ _ _ Hr) as (d' & u & Hd' & _ & ->).
  assert (d' = d) as -> by congruence.
  destruct (stepOne_matched _ _ _ _ _ Hi) as (t' & Ht' & _ & Hlt & Hs).
  assert (t' = t) as -> by congruence. auto.
Qed.

(** An item pushed by the first loop is part of the result. *)
Lemma stepLoop_output (displayed target : list DetectedItem) (lerpT : Q) :
  forall (used : gset nat) (k : nat) (r : Best * option DetectedItem) (out : DetectedItem),
    snd (stepLoop displayed target used lerpT) !! k = Some r ->
    snd r = Some out ->
    In out (omap snd (snd (stepLoop displayed target used lerpT))).
Proof.
  induction displayed as [|d ds IH]; intros used k r out; cbn [stepLoop].
  - simpl. intros H. discriminate.
  - destruct (stepLoop ds target (addUsed (fst (stepOne target used d lerpT)) used) lerpT)
      as [used' rs] eqn:E.
    cbn [snd]. rewrite omap_snd_cons.
    destruct k as [|k]; simpl.
    + intros [= <-] Hout. rewrite Hout. simpl. now left.
    + intros Hk Hout.
      assert (Hin : In out (omap snd rs)).
      { specialize (IH (addUsed (fst (stepOne target used d lerpT)) used) k r out).
        rewrite E in IH. apply IH; assumption. }
      destruct (snd (stepOne target used d lerpT)); simpl; auto.
Qed.

(** One displayed item against one target above the match threshold. *)
Lemma mergeWithPrevious_single (prev t : DetectedItem) (lerpT : Q) :
  MATCH_IOU_THRESH < iou (bbox prev) (bbox t) ->
  mergeWithPrevious [prev] [t] lerpT =
    [ {| label := if isMoreSpecificThan (label prev) (label t)
                  then label t else label prev;
         bbox := if Qle_bool STABILITY_IOU (iou (bbox prev) (bbox t))
                 then bbox prev else lerpBbox (bbox prev) (bbox t) lerpT |} ].
Proof.
  intros Hlt. apply Qgt_bool_iff in Hlt.
  unfold mergeWithPrevious, mergeLoop, mergeOne, findBest.
  rewrite bool_decide_false by apply not_elem_of_empty.
  cbn [bestIou]. rewrite Hlt. reflexivity.
Qed.

Lemma STABILITY_above_MATCH (o : Q) : STABILITY_IOU <= o -> MATCH_IOU_THRESH < o.
Proof. unfold STABILITY_IOU, MATCH_IOU_THRESH. intros H. lra. Qed.

(** C5.  A pair matched by [mergeWithPrevious] with an overlap of at least
    0.82 keeps the previous box unchanged; below 0.82 the box is the
    componentwise linear interpolation from the previous box toward the new
    one by the blend factor: every field is [prev + (new - prev) * lerpT],
    which is what [lerpBbox] returns.  For one displayed "milk" and one
    detected "milk" with overlap at least 0.82 the result is the previous
    box with label "milk". *)
Theorem mergeWithPrevious_freezes_or_interpolates
    (displayed target : list DetectedItem) (lerpT : Q) :
  (forall (k i : nat) (r : Best * DetectedItem) (t prev : DetectedItem),
      mergeLoop displayed target ∅ lerpT !! k = Some r ->
      target !! k = Some t -> bestIdx (fst r) = Some i ->
      displayed !! i = Some prev ->
      mergeWithPrevious displayed target lerpT !! k = Some (snd r) /\
      bestIou (fst r) = iou (bbox prev) (bbox t) /\
      (STABILITY_IOU <= iou (bbox prev) (bbox t) -> bbox (snd r) = bbox prev) /\
      (iou (bbox prev) (bbox t) < STABILITY_IOU ->
       bbox (snd r) = lerpBbox (bbox prev) (bbox t) lerpT /\
       bbox (snd r) =
         {| x := x (bbox prev) + (x (bbox t) - x (bbox prev)) * lerpT;
            y := y (bbox prev) + (y (bbox t) - y (bbox prev)) * lerpT;
            width := width (bbox prev)
                     + (width (bbox t) - width (bbox prev)) * lerpT;
            height := height (bbox prev)
                      + (height (bbox t) - height (bbox prev)) * lerpT |})) /\
  (forall B B' : BoundingBox,
      STABILITY_IOU <= iou B B' ->
      mergeWithPrevious [ {| label := "milk"; bbox := B |} ]
                        [ {| label := "milk"; bbox := B' |} ] lerpT
      = [ {| label := "milk"; bbox := B |} ]).
Proof.
  split.
  - intros k i r t prev Hr Ht Hi Hprev.
    destruct (mergeLoop_matched _ _ _ _ _ _ _ _ Hr Ht Hi Hprev) as (Ho & _ & Hs).
    split; [apply mergeLoop_output; exact Hr|]. split; [exact Ho|].
    rewrite Hs. cbn [bbox]. split; intros H.
    + apply Qle_bool_iff in H. rewrite H. reflexivity.
    + apply Qle_bool_false_iff in H. rewrite H. split; reflexivity.
  - intros B B' H.
    rewrite mergeWithPrevious_single by (apply STABILITY_above_MATCH; exact H).
    cbn [bbox label]. apply Qle_bool_iff in H. rewrite H. reflexivity.
Qed.

(** The theorem on two scenes: "milk" detected almost where it is shown
    (overlap 10/11) stays where it is; "milk" detected 0.2 to the right
    (overlap 1/3) moves by 0.35 of the way. *)
Lemma mergeWithPrevious_freezes_or_interpolates_witness :
  mergeWithPrevious [ {| label := "milk"; bbox := boxA |} ]
                    [ {| label := "milk"; bbox := boxNear |} ] 0.35
  = [ {| label := "milk"; bbox := boxA |} ] /\
  (mergeWithPrevious [ {| label := "milk"; bbox := boxA |} ]
                     [ {| label := "milk"; bbox := boxShifted |} ] 0.35 !! 0%nat
   = Some (snd (mergeOne [ {| label := "milk"; bbox := boxA |} ] ∅
                  {| label := "milk"; bbox := boxShifted |} 0.35)) /\
   bbox (snd (mergeOne [ {| label := "milk"; bbox := boxA |} ] ∅
                {| label := "milk"; bbox := boxShifted |} 0.35))
   = {| x := 0.1 + (0.3 - 0.1) * 0.35;
        y := 0.1 + (0.1 - 0.1) * 0.35;
        width := 0.4 + (0.4 - 0.4) * 0.35;
        height := 0.5 + (0.5 - 0.5) * 0.35 |}).
Proof.
  split.
  - apply (proj2 (mergeWithPrevious_freezes_or_interpolates [] [] 0.35)).
    apply Qle_bool_iff. vm_compute. reflexivity.
  - destruct (proj1 (mergeWithPrevious_freezes_or_interpolates
                       [ {| label := "milk"; bbox := boxA |} ]
                       [ {| label := "milk"; bbox := boxShifted |} ] 0.35)
                    0%nat 0%nat
                    (mergeOne [ {| label := "milk"; bbox := boxA |} ] ∅
                       {| label := "milk"; bbox := boxShifted |} 0.35)
                    {| label := "milk"; bbox := boxShifted |}
                    {| label := "milk"; bbox := boxA |}
                    eq_refl eq_refl ltac:(vm_compute; reflexivity) eq_refl)
      as (Hout & _ & _ & Hlerp).
    split; [exact Hout|].
    apply Hlerp. apply Qgt_bool_iff. vm_compute. reflexivity.
Defined.





(** *** Further facts about [iou] *)

(** The two cases of [iou]: no overlap and the result is [0], or both
    extents of the intersection are positive and the result is the area of
    the intersection over the area of the union, which is positive. *)
Lemma iou_cases (a b : BoundingBox) :
  (noOverlap a b /\ iou a b = 0) \/
  (0 < overlapWidth a b /\ 0 < overlapHeight a b /\
   0 < width a * height a + width b * height b
       - overlapWidth a b * overlapHeight a b /\
   overlapWidth a b * overlapHeight a b <= width a * height a /\
   overlapWidth a b * overlapHeight a b <= width b * height b /\
   iou a b = overlapWidth a b * overlapHeight a b
             / (width a * height a + width b * height b
                - overlapWidth a b * overlapHeight a b)).
Proof.
  destruct (Qlt_le_dec 0 (overlapWidth a b)) as [Hw|Hw];
    [destruct (Qlt_le_dec 0 (overlapHeight a b)) as [Hh|Hh]|].
  - right.
    destruct (overlapWidth_le a b) as [Hw1 Hw2].
    destruct (overlapHeight_le a b) as [Hh1 Hh2].
    assert (Ha : overlapWidth a b * overlapHeight a b <= width a * height a) by nra.
    assert (Hb : overlapWidth a b * overlapHeight a b <= width b * height b) by nra.
    assert (Hpos : 0 < overlapWidth a b * overlapHeight a b) by nra.
    assert (Hu : 0 < width a * height a + width b * height b
                     - overlapWidth a b * overlapHeight a b) by lra.
    repeat split; auto. apply iou_overlap; assumption.
  - left. split; [right; exact Hh|]. apply iou_noOverlap. right. exact Hh.
  - left. split; [left; exact Hw|]. apply iou_noOverlap. left. exact Hw.
Qed.

Lemma overlapWidth_sym (a b : BoundingBox) : overlapWidth a b == overlapWidth b a.
Proof.
  unfold overlapWidth.
  rewrite (Q.min_comm (x a + width a)), (Q.max_comm (x a)). reflexivity.
Qed.

Lemma overlapHeight_sym (a b : BoundingBox) : overlapHeight a b == overlapHeight b a.
Proof.
  unfold overlapHeight.
  rewrite (Q.min_comm (y a + height a)), (Q.max_comm (y a)). reflexivity.
Qed.

(** X1.  [iou] does not depend on the order of its arguments: for all boxes,
    of any size and position, [iou a b] and [iou b a] are equal numbers. *)
Theorem iou_symmetric (a b : BoundingBox) : iou a b == iou b a.
Proof.
  pose proof (overlapWidth_sym a b) as Hw.
  pose proof (overlapHeight_sym a b) as Hh.
  destruct (iou_cases a b) as [[Hn ->] | (Hw1 & Hh1 & Hu & _ & _ & ->)].
  - rewrite iou_noOverlap; [reflexivity|].
    destruct Hn as [H|H]; [left|right]; lra.
  - rewrite iou_overlap; try lra.
    + rewrite Hw, Hh. field. rewrite <- Hw, <- Hh. lra.
    + rewrite <- Hw, <- Hh. lra.
Qed.

(** *** The smooth-follow step *)

(** X4.  A displayed item that [stepDisplayedTowardTarget] matches to a
    target overlaps it by more than 0.05 and is part of the result: with its
    own box, unchanged, when the overlap is at least 0.82, and with the
    interpolation of its box toward the target by the blend factor
    otherwise. *)
Theorem stepDisplayedTowardTarget_freezes_or_interpolates
    (displayed target : list DetectedItem) (lerpT : Q)
    (k i : nat) (r : Best * option DetectedItem) (d t : DetectedItem) :
  snd (stepLoop displayed target ∅ lerpT) !! k = Some r ->
  displayed !! k = Some d -> bestIdx (fst r) = Some i -> target !! i = Some t ->
  exists out : DetectedItem,
    snd r = Some out /\
    In out (stepDisplayedTowardTarget displayed target lerpT) /\
    0.05 < iou (bbox d) (bbox t) /\
    (STABILITY_IOU <= iou (bbox d) (bbox t) -> bbox out = bbox d) /\
    (iou (bbox d) (bbox t) < STABILITY_IOU ->
     bbox out = lerpBbox (bbox d) (bbox t) lerpT).
Proof.
  intros Hr Hd Hi Ht.
  destruct (stepLoop_matched _ _ _ _ _ _ _ _ Hr Hd Hi Ht) as (Hlt & Hs).
  eexists. split; [exact Hs|]. split.
  { rewrite stepDisplayedTowardTarget_unfold. apply in_or_app. left.
    eapply stepLoop_output; eassumption. }
  split; [exact Hlt|]. cbn [bbox]. split; intros H.
  - apply Qle_bool_iff in H. rewrite H. reflexivity.
  - apply Qle_bool_false_iff in H. rewrite H. reflexivity.
Qed.

Lemma stepDisplayedTowardTarget_freezes_or_interpolates_witness :
  exists out : DetectedItem,
    In out (stepDisplayedTowardTarget
              [ {| label := "milk"; bbox := boxA |} ]
              [ {| label := "milk"; bbox := boxNear |} ] LERP_SPEED) /\
    bbox out = boxA.
Proof.
  destruct (stepDisplayedTowardTarget_freezes_or_interpolates
              [ {| label := "milk"; bbox := boxA |} ]
              [ {| label := "milk"; bbox := boxNear |} ] LERP_SPEED 0 0
              (stepOne [ {| label := "milk"; bbox := boxNear |} ] ∅
                 {| label := "milk"; bbox := boxA |} LERP_SPEED)
              {| label := "milk"; bbox := boxA |}
              {| label := "milk"; bbox := boxNear |}
              eq_refl eq_refl eq_refl eq_refl)
    as (out & _ & Hin & _ & Hfreeze & _).
  exists out. split; [exact Hin|]. apply Hfreeze.
  apply Qle_bool_iff. vm_compute. reflexivity.
Defined.

(** *** The match that the inner loop finds *)









(** *** Scenes without a match *)

Lemma findBest_none (overlap : DetectedItem -> Q) (items : list DetectedItem) :
  forall (i : nat) (used : gset nat) (best : Best),
    (forall it : DetectedItem, In it items -> overlap it <= bestIou best) ->
    findBest overlap items i used best = best.
Proof.
  induction items as [|hd rest IH]; intros i used best H; cbn [findBest]; [reflexivity|].
  case_bool_decide.
  - apply IH. intros it Hin. apply H. now right.
  - replace (Qgt_bool (overlap hd) (bestIou best)) with false.
    + apply IH. intros it Hin. apply H. now right.
    + symmetry. unfold Qgt_bool. apply negb_false_iff, Qle_bool_iff, H. now left.
Qed.

Lemma copyBbox_id (b : BoundingBox) : copyBbox b = b.
Proof. destruct b; reflexivity. Qed.

Lemma copyItem_id (t : DetectedItem) :
  {| label := label t; bbox := copyBbox (bbox t) |} = t.
Proof. rewrite copyBbox_id. destruct t; reflexivity. Qed.

Lemma appendUnmatched_all (target : list DetectedItem) (i : nat) :
  appendUnmatched target i ∅ = target.
Proof.
  revert i. induction target as [|t ts IH]; intros i; cbn [appendUnmatched]; [reflexivity|].
  rewrite bool_decide_false by apply not_elem_of_empty.
  rewrite copyItem_id, IH. reflexivity.
Qed.

Lemma mergeLoop_unmatched (displayed : list DetectedItem) (lerpT : Q)
    (target : list DetectedItem) :
  (forall d t : DetectedItem,
      In d displayed -> In t target -> iou (bbox d) (bbox t) <= MATCH_IOU_THRESH) ->
  map snd (mergeLoop displayed target ∅ lerpT) = target.
Proof.
  induction target as [|t ts IH]; intros H; cbn [mergeLoop map]; [reflexivity|].
  assert (E : findBest (fun d => iou (bbox d) (bbox t)) displayed 0 ∅
                {| bestIdx := None; bestIou := MATCH_IOU_THRESH |}
              = {| bestIdx := None; bestIou := MATCH_IOU_THRESH |}).
  { apply findBest_none. intros d Hd. apply H; [exact Hd|now left]. }
  assert (E1 : mergeOne displayed ∅ t lerpT
               = ({| bestIdx := None; bestIou := MATCH_IOU_THRESH |},
                  {| label := label t; bbox := copyBbox (bbox t) |})).
  { unfold mergeOne. rewrite E. reflexivity. }
  rewrite E1. cbn [fst snd addUsed bestIdx]. rewrite copyItem_id. f_equal.
  apply IH. intros d t' Hd Ht'. apply H; [exact Hd|now right].
Qed.

Lemma stepLoop_unmatched (target : list DetectedItem) (lerpT : Q)
    (displayed : list DetectedItem) :
  (forall d t : DetectedItem,
      In d displayed -> In t target -> iou (bbox d) (bbox t) <= 0.05) ->
  fst (stepLoop displayed target ∅ lerpT) = ∅ /\
  omap snd (snd (stepLoop displayed target ∅ lerpT)) = [].
Proof.
  induction displayed as [|d ds IH]; intros H; cbn [stepLoop]; [split; reflexivity|].
  assert (E : findBest (fun t => iou (bbox d) (bbox t)) target 0 ∅
                {| bestIdx := None; bestIou := 0.05 |}
              = {| bestIdx := None; bestIou := 0.05 |}).
  { apply findBest_none. intros t Ht. apply H; [now left|exact Ht]. }
  assert (E1 : stepOne target ∅ d lerpT
               = ({| bestIdx := None; bestIou := 0.05 |}, None)).
  { unfold stepOne. rewrite E. reflexivity. }
  rewrite E1. cbn [fst snd addUsed bestIdx].
  destruct IH as [IH1 IH2]; [intros d' t Hd' Ht; apply H; [now right|exact Ht]|].
  destruct (stepLoop ds target ∅ lerpT) as [used' rs]. cbn [fst snd] in *.
  split; [exact IH1|]. rewrite omap_snd_cons. cbn [snd]. exact IH2.
Qed.

(** X6.  When no displayed box overlaps a target box by more than the match
    threshold (0.15 for [mergeWithPrevious], 0.05 for
    [stepDisplayedTowardTarget]) the result is the target list itself: the
    displayed items are dropped.  In particular with nothing displayed both
    functions return the target list. *)
Theorem unmatched_scene_is_replaced_by_detection
    (displayed target : list DetectedItem) (lerpT : Q) :
  ((forall d t : DetectedItem,
       In d displayed -> In t target -> iou (bbox d) (bbox t) <= MATCH_IOU_THRESH) ->
   mergeWithPrevious displayed target lerpT = target) /\
  ((forall d t : DetectedItem,
       In d displayed -> In t target -> iou (bbox d) (bbox t) <= 0.05) ->
   stepDisplayedTowardTarget displayed target lerpT = target) /\
  mergeWithPrevious [] target lerpT = target /\
  stepDisplayedTowardTarget [] target lerpT = target.
Proof.
  assert (Hstep : forall displayed',
             (forall d t : DetectedItem,
                 In d displayed' -> In t target -> iou (bbox d) (bbox t) <= 0.05) ->
             stepDisplayedTowardTarget displayed' target lerpT = target).
  { intros displayed' H. rewrite stepDisplayedTowardTarget_unfold.
    destruct (stepLoop_unmatched target lerpT displayed' H) as [-> ->].
    apply appendUnmatched_all. }
  split; [|split; [|split]].
  - apply mergeLoop_unmatched.
  - apply Hstep.
  - apply mergeLoop_unmatched. intros d t [].
  - apply Hstep. intros d t [].
Qed.

Lemma unmatched_scene_is_replaced_by_detection_witness :
  mergeWithPrevious [ {| label := "milk"; bbox := boxA |} ]
                    [ {| label := "eggs"; bbox := boxFar |} ] 0.35
  = [ {| label := "eggs"; bbox := boxFar |} ].
Proof.
  apply (proj1 (unmatched_scene_is_replaced_by_detection
                  [ {| label := "milk"; bbox := boxA |} ]
                  [ {| label := "eggs"; bbox := boxFar |} ] 0.35)).
  intros d t [<-|[]] [<-|[]]. apply Qle_bool_iff. vm_compute. reflexivity.
Defined.

(** *** Labels along a track *)

Lemma isMoreSpecificThan_true (prevLabel newLabel : string) :
  isMoreSpecificThan prevLabel newLabel = true ->
  isGenericLabel prevLabel = true /\ isGenericLabel newLabel = false.
Proof.
  unfold isMoreSpecificThan.
  destruct (isGenericLabel prevLabel), (isGenericLabel newLabel); cbn;
    intros H; try discriminate; auto.
Qed.

Lemma isMoreSpecificThan_specific_prev (prevLabel newLabel : string) :
  isGenericLabel prevLabel = false -> isMoreSpecificThan prevLabel newLabel = false.
Proof. unfold isMoreSpecificThan. intros ->. reflexivity. Qed.

(** X8.  In a matched pair of [mergeWithPrevious] and of
    [stepDisplayedTowardTarget] a previous label that is not generic is
    kept, and a label that changes becomes the new label, which is not
    generic.  So a label is replaced at most once along a track: after
    [isMoreSpecificThan first second] holds, [isMoreSpecificThan second
    third] holds for no [third]. *)
Theorem label_is_upgraded_at_most_once
    (displayed target : list DetectedItem) (lerpT : Q) :
  (forall (k i : nat) (r : Best * DetectedItem) (t prev : DetectedItem),
      mergeLoop displayed target ∅ lerpT !! k = Some r ->
      target !! k = Some t -> bestIdx (fst r) = Some i ->
      displayed !! i = Some prev ->
      (isGenericLabel (label prev) = false -> label (snd r) = label prev) /\
      (label (snd r) <> label prev ->
       label (snd r) = label t /\ isGenericLabel (label (snd r)) = false)) /\
  (forall (k i : nat) (r : Best * option DetectedItem) (d t : DetectedItem),
      snd (stepLoop displayed target ∅ lerpT) !! k = Some r ->
      displayed !! k = Some d -> bestIdx (fst r) = Some i ->
      target !! i = Some t ->
      exists out : DetectedItem,
        snd r = Some out /\
        (isGenericLabel (label d) = false -> label out = label d) /\
        (label out <> label d ->
         label out = label t /\ isGenericLabel (label out) = false)) /\
  (forall first second third : string,
      isMoreSpecificThan first second = true ->
      isMoreSpecificThan second third = false).
Proof.
  assert (Hrule : forall prevLabel newLabel : string,
             let out := if isMoreSpecificThan prevLabel newLabel
                        then newLabel else prevLabel in
             (isGenericLabel prevLabel = false -> out = prevLabel) /\
             (out <> prevLabel -> out = newLabel /\ isGenericLabel out = false)).
  { intros prevLabel newLabel. cbv zeta.
    destruct (isMoreSpecificThan prevLabel newLabel) eqn:E.
    - apply isMoreSpecificThan_true in E as [Hp Hn]. split; [congruence|auto].
    - split; [reflexivity|congruence]. }
  split; [|split].
  - intros k i r t prev Hr Ht Hi Hprev.
    destruct (mergeLoop_matched _ _ _ _ _ _ _ _ Hr Ht Hi Hprev) as (_ & _ & ->).
    cbn [label]. apply Hrule.
  - intros k i r d t Hr Hd Hi Ht.
    destruct (stepLoop_matched _ _ _ _ _ _ _ _ Hr Hd Hi Ht) as (_ & ->).
    eexists. split; [reflexivity|]. cbn [label]. apply Hrule.
  - intros first second third H.
    apply isMoreSpecificThan_true in H as [_ H].
    apply isMoreSpecificThan_specific_prev. exact H.
Qed.

End TrackingFacts.

(** ** Facts about [audioPipeline.ts] *)

Module AudioFacts.

Import Audio.

(** *** The capture encoder *)

Lemma SEND_FRAMES_1600 : SEND_FRAMES = 1600%nat.
Proof. reflexivity. Qed.

Lemma Qclamp_id (lo hi v : Q) : lo <= v -> v <= hi -> Qmax lo (Qmin hi v) == v.
Proof.
  intros Hlo Hhi. rewrite (Q.min_r hi v) by exact Hhi. apply Q.max_r. exact Hlo.
Qed.

Lemma Qclamp_bounds (lo hi v : Q) :
  lo <= hi -> lo <= Qmax lo (Qmin hi v) /\ Qmax lo (Qmin hi v) <= hi.
Proof.
  intros H. split.
  - apply Q.le_max_l.
  - apply Q.max_lub; [exact H|apply Q.le_min_l].
Qed.

Lemma wrapInt16_id (z : Z) : (-32768 <= z <= 32767)%Z -> wrapInt16 z = z.
Proof.
  intros Hz. unfold wrapInt16.
  destruct (Z_lt_le_dec z 0) as [Hneg|Hpos].
  - replace (z mod 65536)%Z with (z + 65536)%Z.
    + rewrite (proj2 (Z.leb_le _ _)) by lia. lia.
    + apply Z.mod_unique with (q := (-1)%Z); lia.
  - rewrite Z.mod_small by lia.
    destruct (32768 <=? z)%Z eqn:E; [apply Z.leb_le in E; lia|reflexivity].
Qed.

Lemma wrapInt16_range (z : Z) : (-32768 <= wrapInt16 z <= 32767)%Z.
Proof.
  unfold wrapInt16. pose proof (Z.mod_pos_bound z 65536 eq_refl).
  destruct (32768 <=? z mod 65536)%Z eqn:E;
    [apply Z.leb_le in E|apply Z.leb_gt in E]; lia.
Qed.

Lemma truncate_inject_Z (z : Z) : truncate (inject_Z z) = z.
Proof.
  unfold truncate. destruct (Qle_bool 0 (inject_Z z));
    [apply Qfloor_Z|apply Qceiling_Z].
Qed.

Lemma truncate_comp (p q : Q) : p == q -> truncate p = truncate q.
Proof.
  intros H. unfold truncate. rewrite (Qleb_comp 0 0 (Qeq_refl 0) p q H).
  rewrite (Qfloor_comp p q H), (Qceiling_comp p q H). reflexivity.
Qed.

(** A finite sample in [-1, 1] is stored as the floor of its multiple of
    32767, which lies in [-32767, 32767]: the store does not wrap. *)
Lemma quantize_clamped (q : Q) :
  -1 <= q -> q <= 1 ->
  ToInt16 (quantize (Fin q)) = Qfloor (q * 32767) /\
  (-32767 <= Qfloor (q * 32767) <= 32767)%Z.
Proof.
  intros Hlo Hhi.
  assert (Hz : (-32767 <= Qfloor (q * 32767) <= 32767)%Z).
  { split.
    - rewrite <- (Qfloor_Z (-32767)). apply Qfloor_resp_le.
      change (inject_Z (-32767)) with (-32767). lra.
    - rewrite <- (Qfloor_Z 32767) at 2. apply Qfloor_resp_le.
      change (inject_Z 32767) with 32767. lra. }
  split; [|exact Hz].
  unfold quantize. cbn [mul Math_floor Math_min Math_max ToInt16].
  rewrite (truncate_comp _ (inject_Z (Qfloor (q * 32767)))).
  - rewrite truncate_inject_Z. apply wrapInt16_id. lia.
  - apply Qclamp_id.
    + change (inject_Z (-32768) <= inject_Z (Qfloor (q * 32767))).
      rewrite <- Zle_Qle. lia.
    + change (inject_Z (Qfloor (q * 32767)) <= inject_Z 32767).
      rewrite <- Zle_Qle. lia.
Qed.

(** Every float sample, clamped and quantized, is stored as its value. *)
Lemma encode_sample (s : number) :
  sampleValue s (ToInt16 (quantize (clampSample s))) /\
  (-32768 <= ToInt16 (quantize (clampSample s)) <= 32767)%Z.
Proof.
  destruct s as [| | |q]; cbn [sampleValue clampSample Math_min Math_max].
  - split; [reflexivity|]. cbn. lia.
  - split; [vm_compute; reflexivity|]. vm_compute. split; discriminate.
  - split; [vm_compute; reflexivity|]. vm_compute. split; discriminate.
  - destruct (Qclamp_bounds (-1) 1 q) as [Hlo Hhi]; [lra|].
    destruct (quantize_clamped _ Hlo Hhi) as [-> Hz]. split; [reflexivity|lia].
Qed.

Lemma encode_sample_strict (s : number) :
  (-32767 <= ToInt16 (quantize (clampSample s)) <= 32767)%Z.
Proof.
  destruct s as [| | |q]; cbn [clampSample Math_min Math_max].
  - cbn. lia.
  - vm_compute. split; discriminate.
  - vm_compute. split; discriminate.
  - destruct (Qclamp_bounds (-1) 1 q) as [Hlo Hhi]; [lra|].
    destruct (quantize_clamped _ Hlo Hhi) as [-> Hz]. lia.
Qed.

(** The loop emits arrays of [SEND_FRAMES] samples, leaves fewer than
    [SEND_FRAMES] samples when its fuel covers the buffer, and neither loses
    nor reorders a sample. *)
Lemma drainChunks_spec (fuel : nat) :
  forall buffer : list number,
    (List.length buffer <= fuel)%nat ->
    Forall (fun int16 => List.length int16 = SEND_FRAMES)
      (fst (drainChunks fuel buffer)) /\
    (List.length (snd (drainChunks fuel buffer)) < SEND_FRAMES)%nat /\
    map (fun s => ToInt16 (quantize s)) buffer
    = concat (fst (drainChunks fuel buffer))
      ++ map (fun s => ToInt16 (quantize s)) (snd (drainChunks fuel buffer)).
Proof.
  induction fuel as [|fuel IH]; intros buffer Hfuel.
  - destruct buffer; [|simpl in Hfuel; lia]. simpl.
    rewrite SEND_FRAMES_1600. repeat split; [constructor|lia].
  - cbn [drainChunks].
    destruct (SEND_FRAMES <=? List.length buffer)%nat eqn:E.
    + apply Nat.leb_le in E.
      assert (Hdrop : (List.length (drop SEND_FRAMES buffer) <= fuel)%nat).
      { rewrite length_drop. rewrite SEND_FRAMES_1600 in *. lia. }
      specialize (IH _ Hdrop).
      destruct (drainChunks fuel (drop SEND_FRAMES buffer)) as [emitted remaining].
      cbn [fst snd] in *. destruct IH as (Hlen & Hleft & Heq).
      repeat split.
      * constructor; [|exact Hlen].
        unfold encodeChunk. rewrite length_map, length_take. lia.
      * exact Hleft.
      * cbn [concat]. rewrite <- app_assoc, <- Heq.
        unfold encodeChunk. rewrite <- map_app, take_drop. reflexivity.
    + apply Nat.leb_gt in E. cbn [fst snd concat app].
      repeat split; [constructor|exact E].
Qed.

Lemma onaudioprocess_spec (buffer inputData : list number) :
  Forall (fun int16 => List.length int16 = SEND_FRAMES)
    (fst (onaudioprocess buffer inputData)) /\
  (List.length (snd (onaudioprocess buffer inputData)) < SEND_FRAMES)%nat /\
  map (fun s => ToInt16 (quantize s)) (buffer ++ map clampSample inputData)
  = concat (fst (onaudioprocess buffer inputData))
    ++ map (fun s => ToInt16 (quantize s)) (snd (onaudioprocess buffer inputData)).
Proof.
  unfold onaudioprocess. apply drainChunks_spec. lia.
Qed.

Lemma captureRun_spec (calls : list (list number)) :
  forall buffer : list number,
    Forall (fun int16 => List.length int16 = SEND_FRAMES)
      (fst (captureRun buffer calls)) /\
    map (fun s => ToInt16 (quantize s)) (buffer ++ map clampSample (concat calls))
    = concat (fst (captureRun buffer calls))
      ++ map (fun s => ToInt16 (quantize s)) (snd (captureRun buffer calls)).
Proof.
  induction calls as [|inputData rest IH]; intros buffer.
  - cbn. rewrite app_nil_r. split; [constructor|reflexivity].
  - cbn [captureRun].
    destruct (onaudioprocess_spec buffer inputData) as (Hlen & _ & Heq).
    destruct (onaudioprocess buffer inputData) as [emitted buffer'].
    specialize (IH buffer').
    destruct (captureRun buffer' rest) as [emitted' buffer''].
    cbn [fst snd] in *. destruct IH as (Hlen' & Heq'). split.
    + apply Forall_app. split; assumption.
    + cbn [concat]. rewrite (map_app clampSample), app_assoc.
      rewrite (map_app _ (buffer ++ map clampSample inputData)), Heq.
      rewrite <- app_assoc, <- map_app, Heq', concat_app, app_assoc.
      reflexivity.
Qed.

(** An emitted array of 1600 samples is 3200 bytes of PCM. *)
Lemma chunkBytes_length (int16 : list Z) :
  List.length (chunkBytes int16) = (2 * List.length int16)%nat.
Proof.
  unfold chunkBytes. induction int16 as [|z l IH]; [reflexivity|].
  cbn [flat_map]. rewrite length_app, IH. cbn. lia.
Qed.

Lemma captureRun_leftover (calls : list (list number)) :
  forall buffer : list number,
    (List.length buffer < SEND_FRAMES)%nat ->
    (List.length (snd (captureRun buffer calls)) < SEND_FRAMES)%nat.
Proof.
  induction calls as [|inputData rest IH]; intros buffer Hb; [exact Hb|].
  cbn [captureRun].
  destruct (onaudioprocess_spec buffer inputData) as (_ & Hleft & _).
  destruct (onaudioprocess buffer inputData) as [emitted buffer'].
  specialize (IH buffer' Hleft).
  destruct (captureRun buffer' rest) as [emitted' buffer'']. exact IH.
Qed.

(** C9.  Whatever float samples the microphone callback is fed, in however
    many calls: each emitted chunk holds exactly 1600 samples; every 16-bit
    sample lies in [-32768, 32767]; the stored value of a sample is its
    clamped value scaled by 32767 and rounded down (0 for NaN), so the store
    never wraps; the chunks carry the samples in order, and fewer than 1600
    samples stay buffered. *)
Theorem capture_chunks_1600_samples_in_int16_range (calls : list (list number)) :
  Forall (fun int16 : list Z =>
            List.length int16 = 1600%nat /\
            Forall (fun z => (-32768 <= z <= 32767)%Z) int16)
    (fst (capture calls)) /\
  (forall s : number,
      sampleValue s (ToInt16 (quantize (clampSample s))) /\
      (-32767 <= ToInt16 (quantize (clampSample s)) <= 32767)%Z) /\
  concat (fst (capture calls))
    ++ map (fun s => ToInt16 (quantize s)) (snd (capture calls))
  = map (fun s => ToInt16 (quantize (clampSample s))) (concat calls) /\
  (List.length (snd (capture calls)) < 1600)%nat.
Proof.
  unfold capture.
  destruct (captureRun_spec calls []) as (Hlen & Heq).
  pose proof (captureRun_leftover calls [] ltac:(rewrite SEND_FRAMES_1600; simpl; lia)) as Hleft.
  rewrite SEND_FRAMES_1600 in Hleft.
  cbn [app] in Heq. rewrite map_map in Heq.
  assert (Hall : Forall (fun z => (-32768 <= z <= 32767)%Z)
                   (concat (fst (captureRun [] calls)))).
  { assert (H : Forall (fun z => (-32768 <= z <= 32767)%Z)
                  (map (fun s => ToInt16 (quantize (clampSample s))) (concat calls))).
    { apply List.Forall_forall. intros z Hz. apply in_map_iff in Hz as (s & <- & _).
      apply encode_sample. }
    rewrite Heq in H. apply Forall_app in H. apply H. }
  repeat split.
  - apply List.Forall_forall. intros int16 Hin. split.
    + rewrite List.Forall_forall in Hlen. rewrite (Hlen _ Hin). apply SEND_FRAMES_1600.
    + apply List.Forall_forall. intros z Hz.
      rewrite List.Forall_forall in Hall. apply Hall.
      apply in_concat. exists int16. auto.
  - apply encode_sample.
  - apply encode_sample_strict.
  - apply encode_sample_strict.
  - symmetry. exact Heq.
  - exact Hleft.
Qed.

(** *** The playback scheduler *)

Lemma Qmax_left (a b : Q) : b <= a -> Qmax a b = a.
Proof.
  intros H. unfold Qmax, GenericMinMax.gmax.
  destruct (a ?= b) eqn:E; try reflexivity.
  apply Qlt_alt in E. exfalso. apply (Qlt_not_le _ _ E H).
Qed.

Lemma int16View_length (n : nat) :
  forall bytes : list Z,
    (List.length bytes <= n)%nat -> Nat.Even (List.length bytes) ->
    exists int16 : list Z,
      int16View bytes = Some int16 /\
      List.length int16 = (List.length bytes / 2)%nat.
Proof.
  induction n as [|n IH]; intros bytes Hn Heven.
  - destruct bytes; [|simpl in Hn; lia]. exists []. auto.
  - destruct bytes as [|lo [|hi rest]].
    + exists []. auto.
    + destruct Heven as [k Hk]. simpl in Hk. lia.
    + destruct (IH rest) as (vs & Hvs & Hlen).
      * simpl in Hn. lia.
      * destruct Heven as [k Hk]. simpl in Hk. exists (k - 1)%nat. lia.
      * exists (wrapInt16 (lo + 256 * hi) :: vs). cbn [int16View].
        rewrite Hvs. split; [reflexivity|].
        cbn [List.length]. rewrite Hlen.
        change (S (S (List.length rest))) with (1 * 2 + List.length rest)%nat.
        rewrite Nat.div_add_l by lia. lia.
Qed.

(** *** The byte format *)

Lemma wrapInt16_mod (z : Z) : wrapInt16 (z mod 65536) = wrapInt16 z.
Proof. unfold wrapInt16. rewrite Z.mod_mod by lia. reflexivity. Qed.

Lemma int16View_int16Bytes (z : Z) (rest : list Z) :
  int16View (int16Bytes z ++ rest)
  = match int16View rest with
    | Some vs => Some (wrapInt16 z :: vs)
    | None => None
    end.
Proof.
  unfold int16Bytes. cbn [app int16View].
  replace ((z mod 65536) mod 256 + 256 * (z mod 65536 / 256))%Z with (z mod 65536)%Z.
  - rewrite wrapInt16_mod. reflexivity.
  - rewrite (Z.div_mod (z mod 65536) 256) at 1 by lia. lia.
Qed.

Lemma int16View_chunkBytes (int16 : list Z) :
  int16View (chunkBytes int16) = Some (map wrapInt16 int16).
Proof.
  unfold chunkBytes. induction int16 as [|z l IH]; [reflexivity|].
  cbn [flat_map map]. rewrite int16View_int16Bytes, IH. reflexivity.
Qed.

Lemma ToInt16_range (a : number) : (-32768 <= ToInt16 a <= 32767)%Z.
Proof. destruct a; cbn [ToInt16]; try lia. apply wrapInt16_range. Qed.

Lemma map_wrapInt16_id (l : list Z) :
  Forall (fun z => (-32768 <= z <= 32767)%Z) l -> map wrapInt16 l = l.
Proof.
  induction 1 as [|z l Hz _ IH]; [reflexivity|].
  cbn [map]. rewrite wrapInt16_id, IH by exact Hz. reflexivity.
Qed.

(** Every emitted array holds 16-bit values. *)
Lemma capture_int16 (calls : list (list number)) :
  Forall (Forall (fun z => (-32768 <= z <= 32767)%Z)) (fst (capture calls)).
Proof.
  unfold capture. destruct (captureRun_spec calls []) as (_ & Heq).
  assert (H : Forall (fun z => (-32768 <= z <= 32767)%Z)
                (concat (fst (captureRun [] calls)))).
  { assert (H : Forall (fun z => (-32768 <= z <= 32767)%Z)
                  (map (fun s => ToInt16 (quantize s)) ([] ++ map clampSample (concat calls)))).
    { apply List.Forall_forall. intros z Hz. apply in_map_iff in Hz as (s & <- & _).
      apply ToInt16_range. }
    rewrite Heq in H. apply Forall_app in H. apply H. }
  apply List.Forall_forall. intros int16 Hin.
  apply List.Forall_forall. intros z Hz.
  rewrite List.Forall_forall in H. apply H. apply in_concat. exists int16. auto.
Qed.

(** One chunk fed to a running context with nothing queued, with the
    samples it is played as. *)
Lemma playPcm24k_running_samples (h : Host) (bytes : list Z) (p : Playback) :
  playbackQueue p = [] -> contextState h p = running -> playable bytes ->
  playPcm24k h bytes p
  = Returned {| playbackQueue := [];
                playbackContext := Some running;
                nextPlayTime := Qmax (nextPlayTime p) (currentTime h) + chunkDuration bytes;
                resumeWaiters := resumeWaiters p;
                started := started p ++
                  [ {| start := Qmax (nextPlayTime p) (currentTime h);
                       duration := chunkDuration bytes;
                       samples := pcmSamples bytes |} ] |}.
Proof.
  intros Hq Hctx [Heven Hpos].
  destruct (int16View_length _ bytes (le_n _) Heven) as (int16 & Hview & Hlen).
  assert (Hnz : Nat.eqb (List.length (map (fun v => inject_Z v / 32768) int16)) 0 = false).
  { apply Nat.eqb_neq. rewrite length_map, Hlen.
    destruct Heven as [n Hn]. rewrite Hn, Nat.mul_comm, Nat.div_mul by lia. lia. }
  unfold playPcm24k, drainPlayback, pcmSamples. cbn [playbackQueue playbackContext].
  rewrite Hq. cbn [app]. unfold contextState in Hctx. rewrite Hctx, Hview, Hnz.
  cbn [nextPlayTime resumeWaiters started].
  unfold chunkDuration. rewrite length_map, Hlen. reflexivity.
Qed.

Lemma chunkBytes_playable (int16 : list Z) :
  (0 < List.length int16)%nat -> playable (chunkBytes int16).
Proof.
  intros H. unfold playable. rewrite chunkBytes_length. split; [|lia].
  exists (List.length int16). lia.
Qed.

(** X9.  The bytes the microphone encoder makes of an array of 16-bit
    samples ([new Uint8Array(int16.buffer)]) are read back as the same
    array by the 16-bit view of the player ([new Int16Array(chunk)]).
    Every array the capture emits round-trips, and played on a running
    context with nothing queued it is started with its samples divided by
    32768. *)
Theorem pcm_bytes_round_trip (calls : list (list number)) :
  (forall int16 : list Z,
      Forall (fun z => (-32768 <= z <= 32767)%Z) int16 ->
      int16View (chunkBytes int16) = Some int16) /\
  Forall (fun int16 : list Z =>
            int16View (chunkBytes int16) = Some int16 /\
            forall (h : Host) (p : Playback),
              playbackQueue p = [] -> contextState h p = running ->
              exists (p' : Playback) (node : Scheduled),
                playPcm24k h (chunkBytes int16) p = Returned p' /\
                started p' = started p ++ [node] /\
                samples node = map (fun v => inject_Z v / 32768) int16)
    (fst (capture calls)).
Proof.
  assert (Hrt : forall int16 : list Z,
             Forall (fun z => (-32768 <= z <= 32767)%Z) int16 ->
             int16View (chunkBytes int16) = Some int16).
  { intros int16 H. rewrite int16View_chunkBytes, map_wrapInt16_id by exact H.
    reflexivity. }
  split; [exact Hrt|].
  pose proof (capture_int16 calls) as Hrange.
  assert (Hlen : Forall (fun int16 : list Z => List.length int16 = SEND_FRAMES)
                   (fst (capture calls))) by apply captureRun_spec.
  rewrite List.Forall_forall in *. intros int16 Hin.
  specialize (Hrt int16 (Hrange int16 Hin)). split; [exact Hrt|].
  intros h p Hq Hctx.
  rewrite (playPcm24k_running_samples h _ p Hq Hctx).
  - eexists. eexists. split; [reflexivity|]. cbn [started samples].
    split; [reflexivity|]. unfold pcmSamples. rewrite Hrt. reflexivity.
  - apply chunkBytes_playable. rewrite (Hlen int16 Hin), SEND_FRAMES_1600. lia.
Qed.

(** X10.  A finite microphone sample, clamped to [-1, 1], quantized by the
    encoder and played back, comes out as [z / 32768] for the stored
    integer [z], less than [1/32768 + 1/32767] below the clamped sample and
    at most [1/32768] above it. *)
Theorem capture_then_playback_error (q : Q) :
  exists z : Z,
    ToInt16 (quantize (clampSample (Fin q))) = z /\
    pcmSamples (int16Bytes z) = [inject_Z z / 32768] /\
    - (1 / 32768) <= Qmax (-1) (Qmin 1 q) - inject_Z z / 32768 /\
    Qmax (-1) (Qmin 1 q) - inject_Z z / 32768 < 1 / 32768 + 1 / 32767.
Proof.
  destruct (Qclamp_bounds (-1) 1 q) as [Hlo Hhi]; [lra|].
  destruct (quantize_clamped _ Hlo Hhi) as [Hz Hr].
  exists (Qfloor (Qmax (-1) (Qmin 1 q) * 32767)).
  split; [exact Hz|]. split.
  - unfold pcmSamples. rewrite <- (app_nil_r (int16Bytes _)).
    rewrite int16View_int16Bytes. cbn [int16View map].
    rewrite wrapInt16_id by lia. reflexivity.
  - set (c := Qmax (-1) (Qmin 1 q)) in *.
    pose proof (Qfloor_le (c * 32767)) as H1.
    pose proof (Qlt_floor (c * 32767)) as H2.
    set (z := Qfloor (c * 32767)) in *.
    rewrite inject_Z_plus in H2. change (inject_Z 1) with 1 in H2.
    assert (H3 : -32767 <= inject_Z z).
    { change (-32767) with (inject_Z (-32767)). rewrite <- Zle_Qle. lia. }
    assert (H4 : inject_Z z <= 32767).
    { change 32767 with (inject_Z 32767). rewrite <- Zle_Qle. lia. }
    generalize dependent (inject_Z z). intros zf H1 H2 H3 H4.
    assert (E0 : zf / 32768 * 32768 == zf) by field.
    assert (E1 : 1 / 32768 * 32768 == 1) by field.
    assert (E2 : 1 / 32767 * 32767 == 1) by field.
    generalize dependent (zf / 32768). generalize dependent (1 / 32768).
    generalize dependent (1 / 32767). intros e2 E2 e1 E1 p E0.
    split; lra.
Qed.

(** *** The scheduler on any run *)

Lemma sequential_snoc (l : list Scheduled) (mark : Q) (n : Scheduled) :
  sequential l ->
  Forall (fun a => start a + duration a <= mark) l ->
  mark <= start n ->
  sequential (l ++ [n]).
Proof.
  intros Hseq Hend Hn i a b Ha Hb.
  assert (Hi : (S i < List.length (l ++ [n]))%nat) by (eapply lookup_lt_Some; eassumption).
  rewrite length_app in Hi. cbn in Hi.
  destruct (decide (S i < List.length l)%nat) as [Hlt|Hge].
  - rewrite lookup_app_l in Ha by lia. rewrite lookup_app_l in Hb by lia.
    eapply Hseq; eassumption.
  - rewrite lookup_app_l in Ha by lia.
    rewrite lookup_app_r in Hb by lia.
    replace (S i - List.length l)%nat with 0%nat in Hb by lia.
    injection Hb as <-.
    rewrite List.Forall_forall in Hend.
    eapply Qle_trans; [apply Hend; eapply list_elem_of_In, list_elem_of_lookup_2; exact Ha|].
    exact Hn.
Qed.

Lemma Scheduling_queue (p : Playback) (queue : list (list Z)) (ctx : option ContextState)
    (waiters : nat) :
  Scheduling p ->
  Scheduling {| playbackQueue := queue; playbackContext := ctx;
                nextPlayTime := nextPlayTime p; resumeWaiters := waiters;
                started := started p |}.
Proof. intros H. exact H. Qed.

Lemma Scheduling_drainPlayback (h : Host) (p : Playback) :
  Scheduling p -> Scheduling (stateOf (drainPlayback h p)).
Proof.
  intros (Hseq & Hpos & Hend). unfold drainPlayback.
  destruct (playbackQueue p) as [|chunk queue]; [repeat split; assumption|].
  destruct (match playbackContext p with Some st => st | None => createdState h end);
    [repeat split; assumption|].
  destruct (int16View chunk) as [int16|]; [|repeat split; assumption].
  destruct (Nat.eqb (List.length (map (fun v => inject_Z v / 32768) int16)) 0) eqn:E;
    [repeat split; assumption|].
  apply Nat.eqb_neq in E.
  set (d := inject_Z (Z.of_nat (List.length (map (fun v => inject_Z v / 32768) int16)))
            / inject_Z RECV_SAMPLE_RATE).
  assert (Hd : 0 < d).
  { subst d. apply Qlt_shift_div_l; [reflexivity|]. rewrite Qmult_0_l.
    change 0 with (inject_Z 0). rewrite <- Zlt_Qlt. lia. }
  pose proof (Q.le_max_l (nextPlayTime p) (currentTime h)) as Hmax.
  cbn [stateOf]. unfold Scheduling. cbn [started nextPlayTime].
  split; [|split].
  - eapply sequential_snoc; [exact Hseq|exact Hend|exact Hmax].
  - apply Forall_app. split; [exact Hpos|]. constructor; [exact Hd|constructor].
  - apply Forall_app. split.
    + eapply Forall_impl; [exact Hend|]. cbn. intros a Ha. lra.
    + constructor; [|constructor]. cbn [start duration]. apply Qle_refl.
Qed.

Lemma Scheduling_runWaiters (n : nat) (h : Host) :
  forall p : Playback, Scheduling p -> Scheduling (runWaiters n h p).
Proof.
  induction n as [|n IH]; intros p H; [exact H|].
  cbn [runWaiters]. apply IH, Scheduling_drainPlayback, H.
Qed.

Lemma Scheduling_step (e : PlaybackEvent) (p p' : Playback) :
  isStop e = false -> playbackStep e p = Some p' -> Scheduling p -> Scheduling p'.
Proof.
  intros Hns Hstep H. destruct e as [h bytes|h|]; [| |discriminate].
  - injection Hstep as <-. unfold playPcm24k.
    apply Scheduling_drainPlayback, Scheduling_queue, H.
  - cbn [playbackStep] in Hstep.
    destruct (playbackContext p) as [[|]|]; try discriminate.
    injection Hstep as <-. unfold onResumed.
    apply Scheduling_runWaiters, Scheduling_queue, H.
Qed.

(** X11.  In any run of [playPcm24k] calls and resumptions of the context
    without a call of [stopPlayback], at any times of the audio clock, the
    sources started last a positive time and never overlap: each one ends
    before or when the next one starts, and all end by the watermark
    [nextPlayTime]. *)
Theorem playback_sources_never_overlap (es : list PlaybackEvent) (p : Playback) :
  forallb (fun e => negb (isStop e)) es = true ->
  playbackRun es initialPlayback = Some p ->
  (forall (i : nat) (a b : Scheduled),
      started p !! i = Some a -> started p !! S i = Some b ->
      0 < duration a /\ start a + duration a <= start b) /\
  (forall a : Scheduled, In a (started p) -> start a + duration a <= nextPlayTime p).
Proof.
  intros Hns Hrun.
  assert (H : Scheduling p).
  { assert (H0 : Scheduling initialPlayback).
    { repeat split; [intros i a b Ha; discriminate|constructor|constructor]. }
    revert Hns Hrun H0. generalize initialPlayback as p0.
    induction es as [|e es IH]; intros p0 Hns Hrun H0.
    - injection Hrun as <-. exact H0.
    - cbn [forallb] in Hns. apply andb_true_iff in Hns as [He Hes].
      apply negb_true_iff in He.
      cbn [playbackRun] in Hrun.
      destruct (playbackStep e p0) as [p1|] eqn:E; [|discriminate].
      apply (IH p1 Hes Hrun). eapply Scheduling_step; eassumption. }
  destruct H as (Hseq & Hpos & Hend). split.
  - intros i a b Ha Hb. split; [|eapply Hseq; eassumption].
    rewrite List.Forall_forall in Hpos. apply Hpos.
    eapply list_elem_of_In, list_elem_of_lookup_2. exact Ha.
  - rewrite List.Forall_forall in Hend. exact Hend.
Qed.

(** One call of [drainPlayback] on a running context: the first chunk of the
    queue is started. *)
Lemma drainPlayback_running (h : Host) (p : Playback) (chunk : list Z)
    (queue : list (list Z)) :
  playbackQueue p = chunk :: queue -> contextState h p = running -> playable chunk ->
  drainPlayback h p
  = Returned {| playbackQueue := queue;
                playbackContext := Some running;
                nextPlayTime := Qmax (nextPlayTime p) (currentTime h) + chunkDuration chunk;
                resumeWaiters := resumeWaiters p;
                started := started p ++
                  [ {| start := Qmax (nextPlayTime p) (currentTime h);
                       duration := chunkDuration chunk;
                       samples := pcmSamples chunk |} ] |}.
Proof.
  intros Hq Hctx [Heven Hpos].
  destruct (int16View_length _ chunk (le_n _) Heven) as (int16 & Hview & Hlen).
  assert (Hnz : Nat.eqb (List.length (map (fun v => inject_Z v / 32768) int16)) 0 = false).
  { apply Nat.eqb_neq. rewrite length_map, Hlen.
    destruct Heven as [n Hn]. rewrite Hn, Nat.mul_comm, Nat.div_mul by lia. lia. }
  unfold drainPlayback, pcmSamples.
  rewrite Hq. unfold contextState in Hctx. rewrite Hctx, Hview, Hnz.
  unfold chunkDuration. rewrite length_map, Hlen. reflexivity.
Qed.

Lemma drainPlayback_suspended (h : Host) (p : Playback) (chunk : list Z)
    (queue : list (list Z)) :
  playbackQueue p = chunk :: queue -> contextState h p = suspended ->
  drainPlayback h p
  = Returned {| playbackQueue := playbackQueue p;
                playbackContext := Some suspended;
                nextPlayTime := nextPlayTime p;
                resumeWaiters := S (resumeWaiters p);
                started := started p |}.
Proof.
  intros Hq Hctx. unfold drainPlayback. rewrite Hq.
  unfold contextState in Hctx. rewrite Hctx. reflexivity.
Qed.

Lemma drainPlayback_empty (h : Host) (p : Playback) :
  playbackQueue p = [] -> drainPlayback h p = Returned p.
Proof. intros Hq. unfold drainPlayback. rewrite Hq. reflexivity. Qed.

(** As many continuations as there are playable chunks queued start them
    all, in order. *)
Lemma runWaiters_drains (h : Host) (n : nat) :
  forall p : Playback,
    playbackContext p = Some running -> List.length (playbackQueue p) = n ->
    Forall playable (playbackQueue p) ->
    playbackQueue (runWaiters n h p) = [] /\
    playbackContext (runWaiters n h p) = Some running /\
    resumeWaiters (runWaiters n h p) = resumeWaiters p /\
    map samples (started (runWaiters n h p))
    = map samples (started p) ++ map pcmSamples (playbackQueue p).
Proof.
  induction n as [|n IH]; intros p Hctx Hlen Hplay.
  - destruct (playbackQueue p) eqn:Hq; [|discriminate]. cbn [runWaiters map].
    rewrite app_nil_r. auto.
  - destruct (playbackQueue p) as [|chunk queue] eqn:Hq; [discriminate|].
    cbn [runWaiters].
    rewrite (drainPlayback_running h p chunk queue Hq).
    + cbn [stateOf]. apply Forall_cons in Hplay as [Hc Hrest].
      edestruct IH as (H1 & H2 & H3 & H4); [| | |split; [exact H1|split; [exact H2|split; [exact H3|]]]].
      * reflexivity.
      * cbn [playbackQueue]. cbn in Hlen. lia.
      * exact Hrest.
      * rewrite H4. cbn [started playbackQueue map].
        rewrite map_app, <- app_assoc. reflexivity.
    + unfold contextState. rewrite Hctx. reflexivity.
    + apply Forall_cons in Hplay. apply Hplay.
Qed.

Lemma Conserved_play (chunks : list (list Z)) (h : Host) (bytes : list Z) (p : Playback) :
  playable bytes -> Conserved chunks p ->
  Conserved (chunks ++ [bytes]) (stateOf (playPcm24k h bytes p)).
Proof.
  intros Hb (Heq & Hplay & Hrun & Hsus & Hnone). unfold playPcm24k.
  set (p1 := {| playbackQueue := playbackQueue p ++ [bytes];
                playbackContext := playbackContext p;
                nextPlayTime := nextPlayTime p;
                resumeWaiters := resumeWaiters p;
                started := started p |}).
  destruct (contextState h p1) eqn:Hctx.
  - (* suspended: the chunk waits *)
    destruct (playbackQueue p ++ [bytes]) as [|c q] eqn:Hq;
      [destruct (playbackQueue p); discriminate|].
    rewrite (drainPlayback_suspended h p1 c q eq_refl Hctx). cbn [stateOf].
    unfold Conserved. subst p1.
    cbn [started playbackQueue playbackContext resumeWaiters]. rewrite <- Hq.
    split; [|split; [|split; [|split]]].
    + rewrite !map_app, app_assoc, Heq. reflexivity.
    + apply Forall_app. split; [exact Hplay|]. constructor; [exact Hb|constructor].
    + discriminate.
    + intros _. rewrite length_app. cbn.
      unfold contextState in Hctx. cbn [playbackContext] in Hctx.
      destruct (playbackContext p) as [[|]|] eqn:Ec; try discriminate.
      * rewrite Hsus by reflexivity. lia.
      * destruct Hnone as [-> ->]; [reflexivity|]. reflexivity.
    + discriminate.
  - (* running: the queue was empty and the chunk starts *)
    assert (Hempty : playbackQueue p = []).
    { unfold contextState in Hctx. cbn [playbackContext] in Hctx.
      destruct (playbackContext p) as [[|]|]; try discriminate.
      - apply Hrun. reflexivity.
      - apply Hnone. reflexivity. }
    rewrite (drainPlayback_running h p1 bytes []).
    + cbn [stateOf]. unfold Conserved.
      cbn [started playbackQueue playbackContext resumeWaiters].
      rewrite Hempty in Heq. cbn [map] in Heq. rewrite app_nil_r in Heq.
      split; [|split; [|split; [|split]]].
      * subst p1. cbn [map started]. rewrite app_nil_r, !map_app, Heq. reflexivity.
      * constructor.
      * reflexivity.
      * discriminate.
      * discriminate.
    + subst p1. cbn [playbackQueue]. rewrite Hempty. reflexivity.
    + exact Hctx.
    + exact Hb.
Qed.

Lemma Conserved_resume (chunks : list (list Z)) (h : Host) (p : Playback) :
  playbackContext p = Some suspended -> Conserved chunks p ->
  Conserved chunks (onResumed h p).
Proof.
  intros Hctx (Heq & Hplay & _ & Hsus & _). unfold onResumed.
  set (p1 := {| playbackQueue := playbackQueue p; playbackContext := Some running;
                nextPlayTime := nextPlayTime p; resumeWaiters := 0;
                started := started p |}).
  destruct (runWaiters_drains h (resumeWaiters p) p1) as (H1 & H2 & H3 & H4).
  - reflexivity.
  - cbn [playbackQueue]. apply Hsus. exact Hctx.
  - exact Hplay.
  - unfold Conserved. rewrite H1, H2, H4. cbn [map started playbackQueue].
    rewrite app_nil_r.
    split; [exact Heq|]. split; [constructor|]. split; [reflexivity|].
    split; discriminate.
Qed.

(** X12.  In any run without a call of [stopPlayback], fed chunks of an
    even, positive number of bytes, no chunk is lost or reordered: the
    samples of the sources started, followed by those of the chunks still
    queued, are the samples of the chunks fed, in order.  While the context
    is running nothing stays queued; while it is suspended one continuation
    of [resume()] waits per queued chunk. *)
Theorem playback_loses_no_chunk (es : list PlaybackEvent) (p : Playback) :
  forallb (fun e => negb (isStop e)) es = true ->
  Forall playable (playedChunks es) ->
  playbackRun es initialPlayback = Some p ->
  map samples (started p) ++ map pcmSamples (playbackQueue p)
  = map pcmSamples (playedChunks es) /\
  (playbackContext p = Some running ->
   playbackQueue p = [] /\
   map samples (started p) = map pcmSamples (playedChunks es)) /\
  (playbackContext p = Some suspended ->
   List.length (playbackQueue p) = resumeWaiters p).
Proof.
  intros Hns Hplay Hrun.
  assert (H : Conserved (playedChunks es) p).
  { assert (H0 : Conserved [] initialPlayback).
    { unfold Conserved. cbn. repeat split; try discriminate; constructor. }
    assert (G : forall (es : list PlaybackEvent) (done : list (list Z)) (p0 : Playback),
               forallb (fun e => negb (isStop e)) es = true ->
               Forall playable (playedChunks es) ->
               playbackRun es p0 = Some p -> Conserved done p0 ->
               Conserved (done ++ playedChunks es) p).
    { clear. induction es as [|e es IH]; intros done p0 Hns Hplay Hrun H0.
      - injection Hrun as <-. cbn. rewrite app_nil_r. exact H0.
      - cbn [forallb] in Hns. apply andb_true_iff in Hns as [He Hes].
        cbn [playbackRun] in Hrun.
        destruct e as [h bytes|h|]; [| |discriminate].
        + cbn [playbackStep] in Hrun. cbn [playedChunks] in *.
          apply Forall_cons in Hplay as [Hb Hrest].
          replace (done ++ bytes :: playedChunks es)
            with ((done ++ [bytes]) ++ playedChunks es)
            by (rewrite <- app_assoc; reflexivity).
          apply (IH _ _ Hes Hrest Hrun). apply Conserved_play; assumption.
        + cbn [playbackStep] in Hrun. cbn [playedChunks] in *.
          destruct (playbackContext p0) as [[|]|] eqn:Ec; try discriminate.
          apply (IH _ _ Hes Hplay Hrun). apply Conserved_resume; assumption. }
    apply (G es [] initialPlayback Hns Hplay Hrun H0). }
  destruct H as (Heq & _ & Hrun' & Hsus & _).
  split; [exact Heq|]. split; [|exact Hsus].
  intros Hctx. specialize (Hrun' Hctx). split; [exact Hrun'|].
  rewrite Hrun' in Heq. cbn [map] in Heq. rewrite app_nil_r in Heq. exact Heq.
Qed.

Lemma twoSamples_playable : playable twoSamples.
Proof. split; [exists 2%nat; reflexivity|cbn; lia]. Qed.

Lemma playback_sources_never_overlap_witness :
  exists p : Playback,
    playbackRun resumedRun initialPlayback = Some p /\
    forall a : Scheduled, In a (started p) -> start a + duration a <= nextPlayTime p.
Proof.
  eexists. split; [vm_compute; reflexivity|].
  apply (proj2 (playback_sources_never_overlap resumedRun _ eq_refl
                  ltac:(vm_compute; reflexivity))).
Defined.

Lemma playback_loses_no_chunk_witness :
  exists p : Playback,
    playbackRun resumedRun initialPlayback = Some p /\
    playbackQueue p = [] /\
    map samples (started p) = map pcmSamples (playedChunks resumedRun).
Proof.
  eexists. split; [vm_compute; reflexivity|].
  apply (proj1 (proj2 (playback_loses_no_chunk resumedRun _ eq_refl
                         ltac:(repeat constructor; apply twoSamples_playable)
                         ltac:(vm_compute; reflexivity)))).
  reflexivity.
Defined.

(** *** [stopPlayback] *)

Lemma runWaiters_empty (n : nat) (h : Host) :
  forall p : Playback, playbackQueue p = [] -> runWaiters n h p = p.
Proof.
  induction n as [|n IH]; intros p Hq; [reflexivity|].
  cbn [runWaiters]. rewrite (drainPlayback_empty h p Hq). cbn [stateOf]. apply IH, Hq.
Qed.

(** X13.  [stopPlayback] empties the queue and leaves the sources already
    started as they are.  Chunks queued on a suspended context are never
    played once it resumes.  On a running context the next chunk starts at
    the later of 0 and the current time of the clock, whatever audio was
    scheduled before the stop. *)
Theorem stopPlayback_drops_queue_and_resets_watermark
    (h : Host) (bytes : list Z) (p : Playback) :
  playbackQueue (stopPlayback p) = [] /\
  started (stopPlayback p) = started p /\
  (playbackContext p = Some suspended ->
   started (onResumed h (stopPlayback p)) = started p /\
   playbackQueue (onResumed h (stopPlayback p)) = []) /\
  (playbackContext p = Some running -> playable bytes ->
   exists p' : Playback,
     playPcm24k h bytes (stopPlayback p) = Returned p' /\
     started p' = started p ++
       [ {| start := Qmax 0 (currentTime h);
            duration := chunkDuration bytes;
            samples := pcmSamples bytes |} ] /\
     (0 <= currentTime h -> Qmax 0 (currentTime h) == currentTime h)).
Proof.
  split; [reflexivity|]. split; [reflexivity|]. split.
  - intros _. unfold onResumed. rewrite runWaiters_empty by reflexivity.
    split; reflexivity.
  - intros Hctx Hb.
    rewrite (playPcm24k_running_samples h bytes (stopPlayback p)).
    + eexists. split; [reflexivity|]. split; [reflexivity|].
      intros Ht. apply Q.max_r. exact Ht.
    + reflexivity.
    + unfold contextState. cbn [stopPlayback playbackContext]. rewrite Hctx. reflexivity.
    + exact Hb.
Qed.

(** *** Three chunks, on a running or on a suspended context *)

Lemma sourceOf_playable (c : list Z) :
  playable c -> sourceOf c = Some (chunkDuration c, pcmSamples c).
Proof.
  intros [Heven Hpos].
  destruct (int16View_length _ c (le_n _) Heven) as (int16 & Hview & Hlen).
  unfold sourceOf, pcmSamples, chunkDuration. rewrite Hview. cbn zeta.
  rewrite length_map, Hlen.
  destruct (Nat.eqb_spec (List.length c / 2) 0) as [E|_]; [|reflexivity].
  destruct Heven as [n Hn]. rewrite Hn, Nat.mul_comm, Nat.div_mul in E by lia. lia.
Qed.

Lemma watermarkAfter_snoc (w : Q) (l : list Scheduled) (a : Scheduled) :
  watermarkAfter w (l ++ [a]) = start a + duration a.
Proof. unfold watermarkAfter. rewrite last_snoc. reflexivity. Qed.

Lemma watermarkAfter_app (w : Q) (l1 l2 : list Scheduled) :
  watermarkAfter w (l1 ++ l2) = watermarkAfter (watermarkAfter w l1) l2.
Proof.
  destruct l2 as [|a l2] using rev_ind.
  - rewrite app_nil_r. reflexivity.
  - rewrite app_assoc, !watermarkAfter_snoc. reflexivity.
Qed.

Lemma Chained_app (l1 : list Scheduled) :
  forall (w : Q) (t1 : list Q) (l2 : list Scheduled) (t2 : list Q),
    Chained w l1 t1 -> Chained (watermarkAfter w l1) l2 t2 ->
    Chained w (l1 ++ l2) (t1 ++ t2).
Proof.
  induction l1 as [|a l1 IH]; intros w t1 l2 t2 H1 H2.
  - destruct t1; [exact H2|contradiction].
  - destruct t1 as [|t t1]; [contradiction|]. destruct H1 as [Ha H1].
    cbn [app Chained]. split; [exact Ha|]. apply IH; [exact H1|].
    change (a :: l1) with ([a] ++ l1) in H2.
    rewrite watermarkAfter_app in H2. exact H2.
Qed.

Lemma Chained_app_inv (l1 : list Scheduled) :
  forall (w : Q) (l2 : list Scheduled) (ts : list Q),
    Chained w (l1 ++ l2) ts ->
    exists t1 t2 : list Q,
      ts = t1 ++ t2 /\ List.length t1 = List.length l1 /\
      Chained w l1 t1 /\ Chained (watermarkAfter w l1) l2 t2.
Proof.
  induction l1 as [|a l1 IH]; intros w l2 ts H.
  - exists [], ts. repeat split; auto.
  - destruct ts as [|t ts]; [contradiction|]. destruct H as [Ha H].
    destruct (IH _ _ _ H) as (t1 & t2 & -> & Hlen & H1 & H2).
    exists (t :: t1), t2. repeat split; auto.
    + simpl. rewrite Hlen. reflexivity.
    + change (a :: l1) with ([a] ++ l1). rewrite watermarkAfter_app. exact H2.
Qed.

(** One call of [drainPlayback] on a running context with a chunk queued. *)
Lemma drain_running (h : Host) (p : Playback) (c : list Z) (q : list (list Z)) :
  contextState h p = running -> playbackQueue p = c :: q ->
  playbackQueue (stateOf (drainPlayback h p)) = q /\
  playbackContext (stateOf (drainPlayback h p)) = Some running /\
  resumeWaiters (stateOf (drainPlayback h p)) = resumeWaiters p /\
  exists news : list Scheduled,
    started (stateOf (drainPlayback h p)) = started p ++ news /\
    map played news = option_list (sourceOf c) /\
    Chained (nextPlayTime p) news (replicate (List.length news) (currentTime h)) /\
    nextPlayTime (stateOf (drainPlayback h p)) = watermarkAfter (nextPlayTime p) news.
Proof.
  intros Hctx Hq. unfold drainPlayback, sourceOf. rewrite Hq.
  unfold contextState in Hctx. rewrite Hctx.
  destruct (int16View c) as [int16|]; cbn zeta.
  - destruct (Nat.eqb (List.length (map (fun v => inject_Z v / 32768) int16)) 0).
    + cbn. repeat split; auto. exists []. rewrite app_nil_r. repeat split; auto.
    + cbn [stateOf playbackQueue playbackContext resumeWaiters started nextPlayTime].
      repeat split; auto. eexists [_]. split; [reflexivity|].
      cbn. repeat split; auto.
  - cbn. repeat split; auto. exists []. rewrite app_nil_r. repeat split; auto.
Qed.

(** The continuations of [resume()] on the running context: they play the
    whole queue when there is one of them for each chunk. *)
Lemma runWaiters_running (h : Host) (n : nat) :
  forall p : Playback,
    playbackContext p = Some running ->
    (List.length (playbackQueue p) <= n)%nat ->
    playbackQueue (runWaiters n h p) = [] /\
    playbackContext (runWaiters n h p) = Some running /\
    resumeWaiters (runWaiters n h p) = resumeWaiters p /\
    exists news : list Scheduled,
      started (runWaiters n h p) = started p ++ news /\
      map played news = omap sourceOf (playbackQueue p) /\
      Chained (nextPlayTime p) news (replicate (List.length news) (currentTime h)) /\
      nextPlayTime (runWaiters n h p) = watermarkAfter (nextPlayTime p) news.
Proof.
  induction n as [|n IH]; intros p Hctx Hlen.
  - destruct (playbackQueue p) eqn:Hq; [|simpl in Hlen; lia].
    cbn [runWaiters]. repeat split; auto. exists []. rewrite app_nil_r.
    repeat split; auto.
  - cbn [runWaiters]. destruct (playbackQueue p) as [|c q] eqn:Hq.
    + rewrite (drainPlayback_empty h p Hq). cbn [stateOf].
      rewrite runWaiters_empty by exact Hq. rewrite Hq. repeat split; auto.
      exists []. rewrite app_nil_r. repeat split; auto.
    + assert (Hcs : contextState h p = running)
        by (unfold contextState; rewrite Hctx; reflexivity).
      destruct (drain_running h p c q Hcs Hq) as (Hq1 & Hc1 & Hw1 & n1 & Hs1 & Hp1 & Hch1 & Hn1).
      destruct (IH (stateOf (drainPlayback h p)) Hc1) as (Hq2 & Hc2 & Hw2 & n2 & Hs2 & Hp2 & Hch2 & Hn2).
      { rewrite Hq1. simpl in Hlen. lia. }
      repeat split; auto; [congruence|].
      exists (n1 ++ n2). split; [rewrite Hs2, Hs1, app_assoc; reflexivity|].
      split.
      { rewrite map_app, Hp1, Hp2, Hq1. cbn [omap list_omap].
        destruct (sourceOf c); reflexivity. }
      split.
      { rewrite length_app, replicate_add. apply Chained_app; [exact Hch1|].
        rewrite <- Hn1. exact Hch2. }
      rewrite Hn2, Hn1, watermarkAfter_app. reflexivity.
Qed.

Lemma Tidy_initial : Tidy initialPlayback.
Proof. split; reflexivity. Qed.

(** What one event other than [stopPlayback] does to a state of the
    module: it starts the sources [news], each at the later of the
    watermark and the time of the event, and keeps the chunks that are
    queued and fed. *)
Lemma playbackStep_law (e : PlaybackEvent) (p p' : Playback) :
  isStop e = false -> Tidy p -> playbackStep e p = Some p' ->
  Tidy p' /\
  exists news : list Scheduled,
    started p' = started p ++ news /\
    map played news ++ omap sourceOf (playbackQueue p')
    = omap sourceOf (playbackQueue p ++ chunkOf e) /\
    Chained (nextPlayTime p) news (replicate (List.length news) (eventTime e)) /\
    nextPlayTime p' = watermarkAfter (nextPlayTime p) news.
Proof.
  intros Hstop Ht Hstep. destruct e as [h bytes|h|]; [| |discriminate].
  - cbn [playbackStep] in Hstep. injection Hstep as <-.
    unfold playPcm24k. set (p1 := {| playbackQueue := playbackQueue p ++ [bytes] |}).
    destruct (contextState h p) eqn:Hcs.
    + (* suspended: the chunk is queued *)
      assert (Hq1 : exists c q, playbackQueue p1 = c :: q).
      { unfold p1. cbn [playbackQueue]. destruct (playbackQueue p); simpl; eauto. }
      destruct Hq1 as (c & q & Hq1).
      rewrite (drainPlayback_suspended h p1 c q Hq1 Hcs). cbn [stateOf].
      split.
      * unfold Tidy in *. cbn [playbackContext playbackQueue resumeWaiters].
        unfold p1. cbn [playbackQueue resumeWaiters]. rewrite length_app. cbn [List.length].
        unfold contextState in Hcs.
        destruct (playbackContext p) as [[]|]; try discriminate; [lia|].
        destruct Ht as [-> ->]. simpl. lia.
      * exists []. cbn [started playbackQueue nextPlayTime]. unfold p1.
        cbn [started playbackQueue nextPlayTime chunkOf]. rewrite app_nil_r.
        repeat split; auto.
    + (* running: the chunk is played at once *)
      assert (Hq : playbackQueue p = []).
      { unfold Tidy in Ht. unfold contextState in Hcs.
        destruct (playbackContext p) as [[]|]; try discriminate; tauto. }
      assert (Hq1 : playbackQueue p1 = bytes :: []) by (unfold p1; cbn; rewrite Hq; reflexivity).
      assert (Hcs1 : contextState h p1 = running) by exact Hcs.
      destruct (drain_running h p1 bytes [] Hcs1 Hq1) as (Hq2 & Hc2 & Hw2 & news & Hs2 & Hp2 & Hch2 & Hn2).
      split; [unfold Tidy; rewrite Hc2; exact Hq2|].
      exists news. rewrite Hq2, Hq. cbn [chunkOf app omap list_omap]. rewrite app_nil_r.
      split; [exact Hs2|]. split; [rewrite Hp2; destruct (sourceOf bytes); reflexivity|].
      split; [exact Hch2|exact Hn2].
  - cbn [playbackStep] in Hstep.
    destruct (playbackContext p) as [[]|] eqn:Hctx; try discriminate.
    injection Hstep as <-. unfold onResumed.
    set (p0 := {| playbackQueue := playbackQueue p; playbackContext := Some running |}).
    unfold Tidy in Ht. rewrite Hctx in Ht.
    destruct (runWaiters_running h (resumeWaiters p) p0 eq_refl Ht)
      as (Hq2 & Hc2 & Hw2 & news & Hs2 & Hp2 & Hch2 & Hn2).
    split; [unfold Tidy; rewrite Hc2; exact Hq2|].
    exists news. rewrite Hq2. cbn [chunkOf]. rewrite !app_nil_r.
    split; [exact Hs2|]. split; [exact Hp2|]. split; [exact Hch2|exact Hn2].
Qed.

Lemma Tidy_step (e : PlaybackEvent) (p p' : Playback) :
  Tidy p -> playbackStep e p = Some p' -> Tidy p'.
Proof.
  intros Ht Hstep. destruct (isStop e) eqn:Hs.
  - destruct e; try discriminate. injection Hstep as <-.
    unfold Tidy in *. cbn [stopPlayback playbackContext playbackQueue resumeWaiters].
    destruct (playbackContext p) as [[]|]; simpl; try lia; tauto.
  - apply (playbackStep_law e p p' Hs Ht Hstep).
Qed.

(** Every state a run reaches from the initial state is tidy. *)
Lemma Tidy_run (es : list PlaybackEvent) :
  forall p p' : Playback, Tidy p -> playbackRun es p = Some p' -> Tidy p'.
Proof.
  induction es as [|e es IH]; intros p p' Ht H; cbn [playbackRun] in H.
  - injection H as <-. exact Ht.
  - destruct (playbackStep e p) as [p1|] eqn:E; [|discriminate].
    apply (IH p1 p' (Tidy_step e p p1 Ht E) H).
Qed.

(** The law of the scheduler on a run without [stopPlayback]. *)
Lemma playbackRun_law (es : list PlaybackEvent) :
  forall p pf : Playback,
    forallb (fun e => negb (isStop e)) es = true ->
    Tidy p -> playbackRun es p = Some pf ->
    exists news : list Scheduled,
      started pf = started p ++ news /\
      map played news ++ omap sourceOf (playbackQueue pf)
      = omap sourceOf (playbackQueue p ++ playedChunks es) /\
      Chained (nextPlayTime p) news (scheduleTimes es p) /\
      nextPlayTime pf = watermarkAfter (nextPlayTime p) news.
Proof.
  induction es as [|e es IH]; intros p pf Hns Ht H; cbn [playbackRun] in H.
  - injection H as <-. exists []. cbn [playedChunks scheduleTimes]. rewrite !app_nil_r.
    repeat split; auto.
  - cbn [forallb] in Hns. apply andb_true_iff in Hns as [He Hns].
    apply negb_true_iff in He.
    destruct (playbackStep e p) as [p1|] eqn:E; [|discriminate].
    destruct (playbackStep_law e p p1 He Ht E) as (Ht1 & n1 & Hs1 & Hp1 & Hch1 & Hn1).
    destruct (IH p1 pf Hns Ht1 H) as (n2 & Hs2 & Hp2 & Hch2 & Hn2).
    exists (n1 ++ n2). split; [rewrite Hs2, Hs1, app_assoc; reflexivity|].
    split.
    { rewrite map_app, <- app_assoc, Hp2.
      assert (Hpc : playedChunks (e :: es) = chunkOf e ++ playedChunks es)
        by (destruct e; reflexivity).
      rewrite Hpc, app_assoc.
      rewrite (omap_app sourceOf (playbackQueue p ++ chunkOf e) (playedChunks es)).
      rewrite <- Hp1.
      rewrite (omap_app sourceOf (playbackQueue p1) (playedChunks es)).
      rewrite app_assoc. reflexivity. }
    split.
    { cbn [scheduleTimes]. rewrite E, Hs1, length_app, Nat.add_comm, Nat.add_sub.
      apply Chained_app; [exact Hch1|]. rewrite <- Hn1. exact Hch2. }
    rewrite Hn2, Hn1, watermarkAfter_app. reflexivity.
Qed.

(** C8, amended.  Three chunks of the same duration [D] (an even, positive
    number of bytes) are fed to [playPcm24k] from any state the module can
    be in, with no call of [stopPlayback] between them, the context running
    at the calls or suspended and resumed at any point; once the context
    runs, the three are started in the order fed, after the sources of the
    chunks that were queued before them, each lasting [D] and none
    overlapping the next.  Each one starts at the later of the watermark
    and the time of the clock at the call that starts it, and moves the
    watermark to its start plus [D]; so a chunk started no later than the
    end of the one before starts exactly at that end, and the three starts
    are [s], [s + D] and [s + D + D] for the start [s] of the first. *)
Theorem three_chunks_scheduled_back_to_back
    (es0 es : list PlaybackEvent) (p pf : Playback) (c1 c2 c3 : list Z) :
  playbackRun es0 initialPlayback = Some p ->
  forallb (fun e => negb (isStop e)) es = true ->
  playedChunks es = [c1; c2; c3] ->
  playable c1 -> List.length c2 = List.length c1 -> List.length c3 = List.length c1 ->
  playbackRun es p = Some pf -> playbackContext pf = Some running ->
  exists (pre : list Scheduled) (tpre : list Q) (n1 n2 n3 : Scheduled) (t1 t2 t3 : Q),
    started pf = started p ++ pre ++ [n1; n2; n3] /\
    scheduleTimes es p = tpre ++ [t1; t2; t3] /\
    List.length tpre = List.length pre /\
    map played pre = omap sourceOf (playbackQueue p) /\
    (samples n1 = pcmSamples c1 /\ samples n2 = pcmSamples c2 /\
     samples n3 = pcmSamples c3) /\
    (duration n1 = chunkDuration c1 /\ duration n2 = chunkDuration c1 /\
     duration n3 = chunkDuration c1) /\
    start n1 = Qmax (watermarkAfter (nextPlayTime p) pre) t1 /\
    start n2 = Qmax (start n1 + duration n1) t2 /\
    start n3 = Qmax (start n2 + duration n2) t3 /\
    nextPlayTime pf = start n3 + duration n3 /\
    (start n1 + duration n1 <= start n2 /\ start n2 + duration n2 <= start n3) /\
    (t2 <= start n1 + duration n1 -> start n2 = start n1 + duration n1) /\
    (t3 <= start n2 + duration n2 -> start n3 = start n2 + duration n2) /\
    (t2 <= start n1 + chunkDuration c1 ->
     t3 <= start n1 + chunkDuration c1 + chunkDuration c1 ->
     start n2 = start n1 + chunkDuration c1 /\
     start n3 = start n1 + chunkDuration c1 + chunkDuration c1).
Proof.
  intros Hp Hns Hpc Hc1 Hl2 Hl3 Hrun Hctx.
  assert (Hc2 : playable c2) by (destruct Hc1; split; rewrite Hl2; assumption).
  assert (Hc3 : playable c3) by (destruct Hc1; split; rewrite Hl3; assumption).
  assert (Hd2 : chunkDuration c2 = chunkDuration c1)
    by (unfold chunkDuration; rewrite Hl2; reflexivity).
  assert (Hd3 : chunkDuration c3 = chunkDuration c1)
    by (unfold chunkDuration; rewrite Hl3; reflexivity).
  pose proof (Tidy_run es0 _ _ Tidy_initial Hp) as Ht.
  pose proof (Tidy_run es _ _ Ht Hrun) as Htf.
  destruct (playbackRun_law es p pf Hns Ht Hrun) as (news & Hs & Hpl & Hch & Hn).
  unfold Tidy in Htf. rewrite Hctx in Htf. rewrite Htf, app_nil_r, Hpc in Hpl.
  rewrite omap_app in Hpl. cbn [omap list_omap] in Hpl.
  rewrite (sourceOf_playable c1 Hc1), (sourceOf_playable c2 Hc2),
    (sourceOf_playable c3 Hc3), Hd2, Hd3 in Hpl.
  apply fmap_app_inv in Hpl as (pre & last3 & Hpre & Hlast & ->).
  destruct last3 as [|n1 [|n2 [|n3 [|? ?]]]]; try discriminate.
  cbn [fmap list_fmap] in Hlast. unfold played in Hlast.
  injection Hlast as Ed1 Es1 Ed2 Es2 Ed3 Es3.
  apply Chained_app_inv in Hch as (tpre & t3s & Hts & Hlen & _ & Hch).
  destruct t3s as [|t1 [|t2 [|t3 [|? ?]]]]; cbn [Chained] in Hch; try tauto.
  destruct Hch as (Hst1 & Hst2 & Hst3 & _).
  exists pre, tpre, n1, n2, n3, t1, t2, t3.
  split; [exact Hs|]. split; [exact Hts|]. split; [exact Hlen|].
  split; [symmetry; exact Hpre|].
  split; [repeat split; symmetry; assumption|].
  split; [repeat split; symmetry; assumption|].
  split; [exact Hst1|]. split; [exact Hst2|]. split; [exact Hst3|].
  split.
  { rewrite Hn. change [n1; n2; n3] with ([n1; n2] ++ [n3]).
    rewrite app_assoc, watermarkAfter_snoc. reflexivity. }
  split.
  { split; [rewrite Hst2|rewrite Hst3]; apply Q.le_max_l. }
  split; [intros H; rewrite Hst2; apply Qmax_left; exact H|].
  split; [intros H; rewrite Hst3; apply Qmax_left; exact H|].
  intros H2 H3.
  assert (E2 : start n2 = start n1 + chunkDuration c1).
  { rewrite Hst2, <- Ed1. apply Qmax_left. exact H2. }
  split; [exact E2|].
  rewrite Hst3, <- Ed2, E2. apply Qmax_left. exact H3.
Qed.

Lemma three_chunks_scheduled_back_to_back_witness :
  exists (pf : Playback) (n1 n2 n3 : Scheduled),
    playbackRun backToBackRun initialPlayback = Some pf /\
    started pf = [n1; n2; n3] /\
    scheduleTimes backToBackRun initialPlayback = [0.5; 0.5; 0.5001] /\
    start n1 = Qmax 0 0.5 /\
    start n2 = start n1 + duration n1 /\
    start n3 = start n2 + duration n2 /\
    nextPlayTime pf = start n3 + duration n3.
Proof.
  eexists.
  destruct (three_chunks_scheduled_back_to_back [] backToBackRun initialPlayback
              _ twoSamples twoSamples twoSamples
              eq_refl eq_refl eq_refl twoSamples_playable eq_refl eq_refl
              ltac:(vm_compute; reflexivity) eq_refl)
    as (pre & tpre & n1 & n2 & n3 & t1 & t2 & t3 & Hs & Hts & Hlen & Hpre & _
        & (Hd1 & Hd2 & _) & Hst1 & Hst2 & Hst3 & Hn & _ & Hb2 & Hb3 & _).
  destruct pre; [|discriminate]. destruct tpre; [|discriminate].
  cbn [app] in Hs, Hts.
  assert (Ets : scheduleTimes backToBackRun initialPlayback = [0.5; 0.5; 0.5001])
    by (vm_compute; reflexivity).
  rewrite Ets in Hts. injection Hts as <- <- <-.
  assert (E2 : start n2 = start n1 + duration n1).
  { apply Hb2. rewrite Hst1, Hd1. apply Qle_bool_iff. vm_compute. reflexivity. }
  assert (E3 : start n3 = start n2 + duration n2).
  { apply Hb3. rewrite E2, Hst1, Hd1, Hd2. apply Qle_bool_iff. vm_compute. reflexivity. }
  exists n1, n2, n3. split; [reflexivity|]. split; [exact Hs|]. split; [exact Ets|].
  split; [exact Hst1|]. split; [exact E2|]. split; [exact E3|exact Hn].
Defined.

End AudioFacts.

(** ** Facts about [GeminiLiveClient] *)

Module SessionFacts.

Import Session.

Open Scope N_scope.

(** *** The second timer of [connect] *)

(** C1.  The code at the failing input.  A connect succeeds 300 ms after the
    call: the state is [ready], the promise is resolved with [true] and
    the timer kept in [connectTimeoutId] is cleared.  No transport error,
    close or goAway follows and [disconnect] is not called; 15 s after the
    call the second timer of [connect], which nothing clears, fires:
    the state becomes [error] and the open socket is closed. *)
Theorem second_connect_timer_breaks_ready_session :
  exists w w' : World,
    run successfulConnect initialWorld = Some w /\
    state w = ready /\ promiseOf 0 w = Some true /\
    readyStateOf 0 w = Some OPEN /\ connectTimeoutId w = None /\
    timers w = [ {| handle := 1; due := 15000; callback := UntrackedTimeout 0 |} ] /\
    step (Elapse 14700) w = Some w' /\
    state w' = error /\ readyStateOf 0 w' = Some CLOSING /\
    notified w' = onStateChange error (Some "Connection timed out"%string) :: notified w.
Proof.
  eexists. eexists.
  do 9 (split; [vm_compute; reflexivity|]). vm_compute. reflexivity.
Qed.

(** *** Realtime input *)

Lemma sendQueue_wsSend (k : nat) (f : Frame) (w : World) :
  sendQueue (wsSend k f w) = sendQueue w.
Proof. reflexivity. Qed.

Lemma sendJSON_open (f : Frame) (w : World) (k : nat) :
  ws w = Some k -> readyStateOf k w = Some OPEN -> sendJSON f w = wsSend k f w.
Proof. intros Hws Hrs. unfold sendJSON. rewrite Hws, Hrs. reflexivity. Qed.

Lemma sendJSON_not_open (f : Frame) (w : World) :
  wsOpen w = false -> sendJSON f w = setSendQueue (sendQueue w ++ [f]) w.
Proof.
  unfold wsOpen, sendJSON. destruct (ws w) as [k|]; [|reflexivity].
  destruct (readyStateOf k w) as [[]|]; try reflexivity. discriminate.
Qed.

Lemma wsOpen_true (w : World) :
  wsOpen w = true -> exists k, ws w = Some k /\ readyStateOf k w = Some OPEN.
Proof.
  unfold wsOpen. destruct (ws w) as [k|]; [|discriminate].
  destruct (readyStateOf k w) as [[]|] eqn:E; try discriminate. eauto.
Qed.

(** The claim of C4 fails while the setup is not yet acknowledged: the
    state is [settingUp], not [ready], and a call of [sendVideoFrame] or of
    [sendAudio] is not a no-op: the frame is sent on the transport. *)
Lemma video_frame_sent_while_settingUp :
  run [Connect "key"; WsOpen 0] initialWorld = Some settingUpWorld /\
  state settingUpWorld = settingUp /\ state settingUpWorld <> ready /\
  sentOn 0 settingUpWorld = [SetupFrame] /\
  sentOn 0 (sendVideoFrame "jpeg" settingUpWorld) = [SetupFrame; VideoFrame "jpeg"] /\
  sentOn 0 (sendAudio "pcm" settingUpWorld) = [SetupFrame; AudioFrame "pcm"] /\
  sendVideoFrame "jpeg" settingUpWorld <> settingUpWorld /\
  sendAudio "pcm" settingUpWorld <> settingUpWorld.
Proof.
  split; [vm_compute; reflexivity|].
  split; [vm_compute; reflexivity|].
  split; [vm_compute; discriminate|].
  split; [vm_compute; reflexivity|].
  split; [vm_compute; reflexivity|].
  split; [vm_compute; reflexivity|].
  split; intros H; apply (f_equal (sentOn 0)) in H; vm_compute in H; discriminate.
Qed.

(** C4, amended.  [sendVideoFrame] and [sendAudio] do nothing at all while
    the transport is not open; they never add to the outbound queue; and
    while the transport is open they send the frame on it at once, whether
    or not the setup was acknowledged. *)
Theorem realtime_input_dropped_unless_transport_open (payload : string) (w : World) :
  (wsOpen w = false ->
   sendVideoFrame payload w = w /\ sendAudio payload w = w) /\
  sendQueue (sendVideoFrame payload w) = sendQueue w /\
  sendQueue (sendAudio payload w) = sendQueue w /\
  (forall k : nat,
      ws w = Some k -> readyStateOf k w = Some OPEN ->
      sendVideoFrame payload w = wsSend k (VideoFrame payload) w /\
      sendAudio payload w = wsSend k (AudioFrame payload) w).
Proof.
  unfold sendVideoFrame, sendAudio.
  split; [|split; [|split]].
  - intros H. rewrite H. split; reflexivity.
  - destruct (wsOpen w) eqn:E; [|reflexivity]. cbn [negb].
    destruct (wsOpen_true w E) as (k & Hws & Hrs).
    rewrite (sendJSON_open _ _ _ Hws Hrs). reflexivity.
  - destruct (wsOpen w) eqn:E; [|reflexivity]. cbn [negb].
    destruct (wsOpen_true w E) as (k & Hws & Hrs).
    rewrite (sendJSON_open _ _ _ Hws Hrs). reflexivity.
  - intros k Hws Hrs. unfold wsOpen. rewrite Hws, Hrs. cbn [negb].
    split; apply sendJSON_open; assumption.
Qed.

Lemma realtime_input_dropped_unless_transport_open_witness :
  sendVideoFrame "data" initialWorld = initialWorld /\
  sendAudio "data" initialWorld = initialWorld.
Proof.
  apply (proj1 (realtime_input_dropped_unless_transport_open _ initialWorld)).
  reflexivity.
Defined.

(** *** The outbound queue *)

(** The claim of C3 fails for a frame submitted after the transport opened:
    the first tool response is queued while connecting; the setup and the
    second tool response are sent as soon as they are submitted; the queued
    response goes out last, when the setup is acknowledged. *)
Lemma queued_response_overtaken_by_later_frames :
  sendQueue <$> run (take 2 overtakingTrace) initialWorld = Some [firstResponse] /\
  sentOn 0 <$> run (take 4 overtakingTrace) initialWorld
    = Some [SetupFrame; secondResponse] /\
  sentOn 0 <$> run overtakingTrace initialWorld
    = Some [SetupFrame; secondResponse; firstResponse] /\
  state <$> run overtakingTrace initialWorld = Some ready.
Proof.
  do 3 (split; [vm_compute; reflexivity|]). vm_compute. reflexivity.
Qed.

Lemma sentPrefix_refl (w : World) : sentPrefix w w.
Proof. intros k. exists []. symmetry. apply app_nil_r. Qed.

Lemma sentPrefix_trans (w1 w2 w3 : World) :
  sentPrefix w1 w2 -> sentPrefix w2 w3 -> sentPrefix w1 w3.
Proof.
  intros H12 H23 k. destruct (H12 k) as [m1 E1]. destruct (H23 k) as [m2 E2].
  exists (m1 ++ m2). rewrite E2, E1. symmetry. apply app_assoc.
Qed.

Lemma sentPrefix_same (w w' : World) : sockets w' = sockets w -> sentPrefix w w'.
Proof. intros E k. exists []. unfold sentOn. rewrite E. symmetry. apply app_nil_r. Qed.

Lemma sentPrefix_alter (j : nat) (f : WebSocket -> WebSocket) (w : World) :
  (forall s, exists more, sent (f s) = sent s ++ more) ->
  sentPrefix w (alterSocket j f w).
Proof.
  intros Hf k. unfold sentOn, alterSocket. cbn [sockets setSockets].
  destruct (decide (j = k)) as [->|Hne].
  - rewrite list_lookup_alter_eq. destruct (sockets w !! k) as [s|]; cbn.
    + apply Hf.
    + exists []. reflexivity.
  - rewrite list_lookup_alter_ne by exact Hne. exists []. symmetry. apply app_nil_r.
Qed.

Lemma sentPrefix_wsSend (k : nat) (f : Frame) (w : World) : sentPrefix w (wsSend k f w).
Proof. apply sentPrefix_alter. intros s. exists [f]. reflexivity. Qed.

Lemma sentPrefix_wsClose (k : nat) (w : World) : sentPrefix w (wsClose k w).
Proof.
  apply sentPrefix_alter. intros s. exists [].
  destruct (readyState s); cbn; symmetry; apply app_nil_r.
Qed.

Lemma sentPrefix_resolveOnce (k : nat) (ok : bool) (w : World) :
  sentPrefix w (resolveOnce k ok w).
Proof.
  apply sentPrefix_alter. intros s. exists [].
  destruct (resolved s); cbn; symmetry; apply app_nil_r.
Qed.

Lemma sentPrefix_dispatchClose (k : nat) (w : World) : sentPrefix w (dispatchClose k w).
Proof. apply sentPrefix_alter. intros s. exists []. symmetry. apply app_nil_r. Qed.

Lemma sentPrefix_setReadyState (k : nat) (r : ReadyState) (w : World) :
  sentPrefix w (alterSocket k (setReadyState r) w).
Proof. apply sentPrefix_alter. intros s. exists []. symmetry. apply app_nil_r. Qed.

Lemma sentPrefix_sendJSON (f : Frame) (w : World) : sentPrefix w (sendJSON f w).
Proof.
  unfold sendJSON. destruct (ws w) as [k|]; [|apply sentPrefix_same; reflexivity].
  destruct (readyStateOf k w) as [[]|];
    try (apply sentPrefix_same; reflexivity). apply sentPrefix_wsSend.
Qed.

Lemma sentPrefix_flushLoop (queue : list Frame) :
  forall w : World, sentPrefix w (flushLoop queue w).
Proof.
  induction queue as [|f rest IH]; intros w; cbn [flushLoop].
  - apply sentPrefix_refl.
  - destruct (ws w) as [k|]; [|apply sentPrefix_refl].
    destruct (readyStateOf k w) as [[]|]; try apply sentPrefix_refl.
    eapply sentPrefix_trans; [|apply IH].
    eapply sentPrefix_trans; [|apply sentPrefix_wsSend].
    apply sentPrefix_same. reflexivity.
Qed.

Lemma sentPrefix_fold_notify {A : Type} (mk : A -> Notification) (l : list A) :
  forall w : World, sockets (fold_left (fun w' a => notify (mk a) w') l w) = sockets w.
Proof. induction l as [|a l IH]; intros w; cbn; [reflexivity|]. rewrite IH. reflexivity. Qed.

Lemma sockets_handlePart (p : Part) (w : World) : sockets (handlePart p w) = sockets w.
Proof.
  unfold handlePart. destruct (inlineData p) as [[[mt|] [d|]]|]; destruct (text p);
    try reflexivity; destruct (JsString.startsWith mt "audio/"); reflexivity.
Qed.

Lemma sockets_fold_handlePart (parts : list Part) :
  forall w : World, sockets (fold_left (fun w' p => handlePart p w') parts w) = sockets w.
Proof.
  induction parts as [|p l IH]; intros w; cbn; [reflexivity|].
  rewrite IH. apply sockets_handlePart.
Qed.

Lemma sockets_handleTranscription (mk : string -> Notification) (t : option string)
    (w : World) :
  sockets (handleTranscription mk t w) = sockets w.
Proof.
  unfold handleTranscription. destruct t as [txt|]; [|reflexivity].
  destruct (String.eqb _ _); reflexivity.
Qed.

Lemma sentPrefix_handleMessage (k : nat) (json : ServerMessage) (w : World) :
  sentPrefix w (handleMessage k json w).
Proof.
  unfold handleMessage. destruct (setupComplete json).
  - eapply sentPrefix_trans; [|apply sentPrefix_resolveOnce].
    eapply sentPrefix_trans; [|apply sentPrefix_flushLoop].
    apply sentPrefix_same. destruct (connectTimeoutId w); reflexivity.
  - destruct (goAway json); [apply sentPrefix_same; reflexivity|].
    destruct (toolCallFunctionCalls json) as [calls|].
    + apply sentPrefix_same.
      apply (sentPrefix_fold_notify (fun c => onToolCall (fcId c) (fcName c) (fcArgs c))).
    + destruct (serverContent json) as [sc|]; [|apply sentPrefix_refl].
      destruct (interrupted sc); [apply sentPrefix_same; reflexivity|].
      apply sentPrefix_same. rewrite !sockets_handleTranscription.
      destruct (turnComplete sc), (modelTurnParts sc); cbn [sockets notify setIsModelSpeaking];
        try apply sockets_fold_handlePart; reflexivity.
Qed.

Lemma sentPrefix_timeout (k : nat) (w w1 : World) :
  sockets w1 = sockets w ->
  sentPrefix w
    (let w3 := notify (onStateChange error (Some "Connection timed out"%string))
                 (resolveOnce k false w1) in
     if bool_decide (ws w3 = Some k) then wsClose k w3 else w3).
Proof.
  intros E. cbv zeta.
  assert (H : sentPrefix w
                (notify (onStateChange error (Some "Connection timed out"%string))
                   (resolveOnce k false w1))).
  { apply sentPrefix_trans with (resolveOnce k false w1).
    - apply sentPrefix_trans with w1; [apply sentPrefix_same; exact E|].
      apply sentPrefix_resolveOnce.
    - apply sentPrefix_same. reflexivity. }
  case_bool_decide; [|exact H].
  eapply sentPrefix_trans; [exact H|apply sentPrefix_wsClose].
Qed.

Lemma sentPrefix_runTimer (cb : TimerCallback) (w : World) : sentPrefix w (runTimer cb w).
Proof.
  destruct cb as [k|k]; cbn [runTimer].
  - apply (sentPrefix_timeout k w (setConnectTimeoutId None w)). reflexivity.
  - apply (sentPrefix_timeout k w w). reflexivity.
Qed.

Lemma sentPrefix_fireDue (rounds : nat) :
  forall w : World, sentPrefix w (fireDue rounds w).
Proof.
  induction rounds as [|n IH]; intros w; cbn [fireDue]; [apply sentPrefix_refl|].
  destruct (List.find _ (timers w)) as [t|]; [|apply sentPrefix_refl].
  eapply sentPrefix_trans; [|apply IH].
  eapply sentPrefix_trans; [|apply sentPrefix_runTimer].
  apply sentPrefix_same. reflexivity.
Qed.

Lemma sentPrefix_connect (apiKey : string) (w : World) :
  sentPrefix w (snd (connect apiKey w)).
Proof.
  unfold connect. destruct (wsOpen w); [apply sentPrefix_refl|].
  intros k. unfold sentOn. cbn.
  destruct (sockets w !! k) as [s|] eqn:E.
  - rewrite lookup_app_l by (eapply lookup_lt_Some; exact E).
    rewrite E. exists []. symmetry. apply app_nil_r.
  - apply lookup_ge_None in E.
    destruct (decide (k = List.length (sockets w))) as [->|Hne].
    + rewrite list_lookup_middle by reflexivity. exists []. reflexivity.
    + rewrite lookup_ge_None_2; [exists []; reflexivity|].
      rewrite length_app. cbn. lia.
Qed.

(** No event takes back or reorders what was sent on a socket. *)
Lemma sentPrefix_step (e : Event) (w w' : World) :
  step e w = Some w' -> sentPrefix w w'.
Proof.
  destruct e; cbn [step].
  - intros [= <-]. apply sentPrefix_connect.
  - intros [= <-]. unfold sendVideoFrame. destruct (negb _);
      [apply sentPrefix_refl|apply sentPrefix_sendJSON].
  - intros [= <-]. unfold sendAudio. destruct (negb _);
      [apply sentPrefix_refl|apply sentPrefix_sendJSON].
  - intros [= <-]. apply sentPrefix_sendJSON.
  - intros [= <-]. unfold disconnect. apply sentPrefix_trans with
      (match ws w with Some k => setWs None (wsClose k w) | None => w end).
    + destruct (ws w); [|apply sentPrefix_refl].
      eapply sentPrefix_trans; [apply sentPrefix_wsClose|].
      apply sentPrefix_same. reflexivity.
    + apply sentPrefix_same. reflexivity.
  - destruct (readyStateOf k w) as [[]|]; try discriminate. intros [= <-].
    unfold onopen, sendSetup.
    eapply sentPrefix_trans; [|apply sentPrefix_sendJSON].
    eapply sentPrefix_trans; [apply sentPrefix_setReadyState|].
    apply sentPrefix_same. reflexivity.
  - destruct (readyStateOf k w) as [[]|]; try discriminate. intros [= <-].
    destruct d; cbn [onmessage]; [apply sentPrefix_refl|apply sentPrefix_handleMessage].
  - destruct (closeDispatched <$> sockets w !! k) as [[]|]; try discriminate.
    intros [= <-]. unfold onclose, onerror.
    eapply sentPrefix_trans; [|apply sentPrefix_resolveOnce].
    eapply sentPrefix_trans; [|apply (sentPrefix_same _ (notify _ (notify _ (setWs None _)))); reflexivity].
    eapply sentPrefix_trans; [|apply sentPrefix_resolveOnce].
    eapply sentPrefix_trans; [apply sentPrefix_dispatchClose|].
    apply sentPrefix_same. reflexivity.
  - destruct (closeDispatched <$> sockets w !! k) as [[]|]; try discriminate.
    intros [= <-]. unfold onclose.
    eapply sentPrefix_trans; [|apply sentPrefix_resolveOnce].
    eapply sentPrefix_trans; [apply sentPrefix_dispatchClose|].
    apply sentPrefix_same. reflexivity.
  - intros [= <-]. unfold elapse.
    eapply sentPrefix_trans; [|apply sentPrefix_fireDue].
    apply sentPrefix_same. reflexivity.
Qed.

Lemma sentPrefix_run (es : list Event) :
  forall w w' : World, run es w = Some w' -> sentPrefix w w'.
Proof.
  induction es as [|e rest IH]; intros w w'; cbn [run].
  - intros [= <-]. apply sentPrefix_refl.
  - destruct (step e w) as [w1|] eqn:E; [|discriminate]. intros H.
    eapply sentPrefix_trans; [eapply sentPrefix_step; exact E|apply IH; exact H].
Qed.

(** With the transport open, the loop sends the whole queue, in order. *)
Lemma flushLoop_open (k : nat) (queue : list Frame) :
  forall w : World,
    ws w = Some k -> readyStateOf k w = Some OPEN ->
    sentOn k (flushLoop queue w) = sentOn k w ++ queue /\
    (queue <> [] -> sendQueue (flushLoop queue w) = []) /\
    notified (flushLoop queue w) = notified w /\
    ws (flushLoop queue w) = Some k /\
    readyStateOf k (flushLoop queue w) = Some OPEN.
Proof.
  induction queue as [|f rest IH]; intros w Hws Hrs; cbn [flushLoop].
  - rewrite app_nil_r. repeat split; auto. intros H. now elim H.
  - rewrite Hws, Hrs.
    assert (Hsent : sentOn k (wsSend k f (setSendQueue rest w)) = sentOn k w ++ [f]).
    { unfold readyStateOf in Hrs. unfold sentOn, wsSend, alterSocket.
      cbn [sockets setSockets setSendQueue]. rewrite list_lookup_alter_eq.
      destruct (sockets w !! k); [reflexivity|discriminate]. }
    assert (Hrs' : readyStateOf k (wsSend k f (setSendQueue rest w)) = Some OPEN).
    { unfold readyStateOf in *. unfold wsSend, alterSocket.
      cbn [sockets setSockets setSendQueue]. rewrite list_lookup_alter_eq.
      destruct (sockets w !! k) as [s|]; [|discriminate].
      cbn in *. exact Hrs. }
    destruct (IH (wsSend k f (setSendQueue rest w)) Hws Hrs')
      as (E1 & E2 & E3 & E4 & E5).
    rewrite E1, Hsent, <- app_assoc. repeat split; auto.
    intros _. destruct rest as [|g rest']; [reflexivity|]. apply E2. discriminate.
Qed.

Lemma sentOn_resolveOnce (j k : nat) (ok : bool) (w : World) :
  sentOn k (resolveOnce j ok w) = sentOn k w.
Proof.
  unfold sentOn, resolveOnce, alterSocket. cbn [sockets setSockets].
  destruct (decide (j = k)) as [->|Hne].
  - rewrite list_lookup_alter_eq. destruct (sockets w !! k) as [s|]; [|reflexivity].
    cbn. destruct (resolved s); reflexivity.
  - rewrite list_lookup_alter_ne by exact Hne. reflexivity.
Qed.

(** The acknowledgment of the setup, handled while socket [k] is the open
    transport: the state is [ready], the queue went out on [k] in its order
    and is empty. *)
Lemma handleMessage_setupComplete (j k : nat) (json : ServerMessage) (w : World) :
  setupComplete json = true -> ws w = Some k -> readyStateOf k w = Some OPEN ->
  state (handleMessage j json w) = ready /\
  sentOn k (handleMessage j json w) = sentOn k w ++ sendQueue w /\
  sendQueue (handleMessage j json w) = [].
Proof.
  intros Hsc Hws Hrs. unfold handleMessage. rewrite Hsc.
  set (w1 := match connectTimeoutId w with
             | Some h => setConnectTimeoutId None (clearTimeout h w)
             | None => w
             end).
  set (w2 := notify (onStateChange ready None) w1).
  assert (E : ws w2 = Some k /\ readyStateOf k w2 = Some OPEN /\
              sentOn k w2 = sentOn k w /\ sendQueue w2 = sendQueue w).
  { unfold w2, w1. destruct (connectTimeoutId w); auto. }
  destruct E as (Hws2 & Hrs2 & Hsent2 & Hq2).
  destruct (flushLoop_open k (sendQueue w2) w2 Hws2 Hrs2) as (E1 & E2 & E3 & _).
  unfold flushSendQueue. repeat split.
  - unfold state. cbn [notified resolveOnce alterSocket setSockets].
    rewrite E3. reflexivity.
  - rewrite sentOn_resolveOnce, E1, Hsent2, Hq2. reflexivity.
  - cbn [sendQueue resolveOnce alterSocket setSockets].
    destruct (sendQueue w2) as [|f rest] eqn:Eq.
    + cbn [flushLoop]. exact Eq.
    + apply E2. discriminate.
Qed.

(** A frame sent on the open socket [k] is appended to what [k] was sent;
    the socket stays open and the queue is not touched. *)
Lemma wsSend_open (k : nat) (f : Frame) (w : World) :
  readyStateOf k w = Some OPEN ->
  sentOn k (wsSend k f w) = sentOn k w ++ [f] /\
  readyStateOf k (wsSend k f w) = Some OPEN /\
  ws (wsSend k f w) = ws w /\ sendQueue (wsSend k f w) = sendQueue w.
Proof.
  intros Hrs. unfold readyStateOf in *. unfold sentOn, wsSend, alterSocket.
  cbn [sockets setSockets ws sendQueue]. rewrite list_lookup_alter_eq.
  destruct (sockets w !! k) as [s|]; [|discriminate]. cbn in *. auto.
Qed.

(** C3, amended.  A setup or tool-response message submitted while the
    transport is not open is appended to the outbound queue and nothing
    else changes, so it is neither sent nor dropped; when the setup is
    acknowledged while the transport is open, the whole queue is sent on it
    in the order of submission and the queue is empty; and no later event
    takes back or reorders what a socket was sent, so the queue goes out
    before everything sent after the acknowledgment.  A setup or
    tool-response message submitted while the transport is open is sent at
    once, the queue left as it is; so it precedes the queued messages,
    which follow it when the setup is acknowledged. *)
Theorem queue_flushed_in_order_when_setup_acknowledged :
  (forall (w : World) (callId name : string) (r : ToolResult),
      wsOpen w = false ->
      sendToolResponse callId name r w
      = setSendQueue (sendQueue w ++ [ToolResponseFrame callId name r]) w) /\
  (forall w : World,
      wsOpen w = false ->
      sendSetup w = setSendQueue (sendQueue w ++ [SetupFrame]) w) /\
  (forall (w : World) (j k : nat) (json : ServerMessage),
      setupComplete json = true ->
      ws w = Some k -> readyStateOf k w = Some OPEN ->
      state (handleMessage j json w) = ready /\
      sentOn k (handleMessage j json w) = sentOn k w ++ sendQueue w /\
      sendQueue (handleMessage j json w) = []) /\
  (forall (es : list Event) (w w' : World) (k : nat),
      run es w = Some w' ->
      exists more : list Frame, sentOn k w' = sentOn k w ++ more) /\
  (forall (w : World) (k : nat) (callId name : string) (r : ToolResult),
      ws w = Some k -> readyStateOf k w = Some OPEN ->
      sentOn k (sendToolResponse callId name r w)
      = sentOn k w ++ [ToolResponseFrame callId name r] /\
      sendQueue (sendToolResponse callId name r w) = sendQueue w) /\
  (forall (w : World) (k : nat),
      ws w = Some k -> readyStateOf k w = Some OPEN ->
      sentOn k (sendSetup w) = sentOn k w ++ [SetupFrame] /\
      sendQueue (sendSetup w) = sendQueue w) /\
  (forall (w : World) (j k : nat) (json : ServerMessage)
          (callId name : string) (r : ToolResult),
      setupComplete json = true ->
      ws w = Some k -> readyStateOf k w = Some OPEN ->
      sentOn k (handleMessage j json (sendToolResponse callId name r w))
      = sentOn k w ++ [ToolResponseFrame callId name r] ++ sendQueue w /\
      sendQueue (handleMessage j json (sendToolResponse callId name r w)) = []).
Proof.
  split; [|split; [|split; [|split; [|split; [|split]]]]].
  - intros w callId name r H. apply sendJSON_not_open. exact H.
  - intros w H. apply sendJSON_not_open. exact H.
  - intros w j k json. apply handleMessage_setupComplete.
  - intros es w w' k H. apply (sentPrefix_run es w w' H).
  - intros w k callId name r Hws Hrs. unfold sendToolResponse.
    rewrite (sendJSON_open _ w k Hws Hrs).
    destruct (wsSend_open k (ToolResponseFrame callId name r) w Hrs) as (E & _ & _ & Eq).
    auto.
  - intros w k Hws Hrs. unfold sendSetup.
    rewrite (sendJSON_open _ w k Hws Hrs).
    destruct (wsSend_open k SetupFrame w Hrs) as (E & _ & _ & Eq). auto.
  - intros w j k json callId name r Hsc Hws Hrs. unfold sendToolResponse.
    rewrite (sendJSON_open _ w k Hws Hrs).
    destruct (wsSend_open k (ToolResponseFrame callId name r) w Hrs)
      as (E & Hrs' & Hws' & Eq).
    rewrite Hws in Hws'.
    destruct (handleMessage_setupComplete j k json _ Hsc Hws' Hrs') as (_ & E1 & E2).
    rewrite E1, E, Eq, <- app_assoc. auto.
Qed.

Lemma queue_flushed_in_order_when_setup_acknowledged_witness :
  (state (handleMessage 0 setupCompleteMessage worldWithQueuedResponse) = ready /\
   sentOn 0 (handleMessage 0 setupCompleteMessage worldWithQueuedResponse)
   = sentOn 0 worldWithQueuedResponse ++ sendQueue worldWithQueuedResponse /\
   sendQueue (handleMessage 0 setupCompleteMessage worldWithQueuedResponse) = []) /\
  (sentOn 0 (handleMessage 0 setupCompleteMessage
               (sendToolResponse "call-2" "execute" secondToolResult worldWithQueuedResponse))
   = sentOn 0 worldWithQueuedResponse
     ++ [secondResponse]
     ++ sendQueue worldWithQueuedResponse /\
   sendQueue (handleMessage 0 setupCompleteMessage
                (sendToolResponse "call-2" "execute" secondToolResult worldWithQueuedResponse))
   = []).
Proof.
  split.
  - apply (proj1 (proj2 (proj2 queue_flushed_in_order_when_setup_acknowledged))).
    + reflexivity.
    + vm_compute. reflexivity.
    + vm_compute. reflexivity.
  - apply (proj2 (proj2 (proj2 (proj2 (proj2 (proj2
             queue_flushed_in_order_when_setup_acknowledged)))))).
    + reflexivity.
    + vm_compute. reflexivity.
    + vm_compute. reflexivity.
Defined.

(** *** The timers of a connect call *)

(** Worlds that differ by field updates outside the core. *)
Ltac core_fields :=
  split; [reflexivity|split; [reflexivity|split; [reflexivity|split; reflexivity]]].

Lemma sameCore_refl (w : World) : sameCore w w.
Proof. core_fields. Qed.

Lemma sameCore_trans (w1 w2 w3 : World) :
  sameCore w1 w2 -> sameCore w2 w3 -> sameCore w1 w3.
Proof.
  intros (A1 & A2 & A3 & A4 & A5) (B1 & B2 & B3 & B4 & B5).
  repeat split; congruence.
Qed.

Lemma coreAt_sameCore (k : nat) (w w' : World) :
  sameCore w w' -> coreAt k w' = coreAt k w.
Proof. intros (_ & _ & _ & _ & E). unfold coreAt. rewrite E. reflexivity. Qed.

Lemma sockets_length_core (w w' : World) :
  socketCore <$> sockets w' = socketCore <$> sockets w ->
  List.length (sockets w') = List.length (sockets w).
Proof.
  intros E. rewrite <- (length_fmap socketCore (sockets w')), E.
  apply length_fmap.
Qed.

(** How an update of socket [j] shows at socket [k]. *)
Lemma coreAt_alter (j k : nat) (f : WebSocket -> WebSocket)
    (g : ReadyState * option bool -> ReadyState * option bool) (w : World) :
  (forall s, socketCore (f s) = g (socketCore s)) ->
  coreAt k (alterSocket j f w)
  = if decide (j = k) then g <$> coreAt k w else coreAt k w.
Proof.
  intros Hf. unfold coreAt, alterSocket. cbn [sockets setSockets].
  rewrite !list_lookup_fmap, list_lookup_alter.
  case_decide as E; [subst j|reflexivity].
  destruct (sockets w !! k) as [s|]; cbn; [rewrite Hf|]; reflexivity.
Qed.

Lemma sameCore_alter (j : nat) (f : WebSocket -> WebSocket) (w : World) :
  (forall s, socketCore (f s) = socketCore s) -> sameCore w (alterSocket j f w).
Proof.
  intros Hf. repeat split. unfold alterSocket. cbn [sockets setSockets].
  apply list_eq. intros i. rewrite !list_lookup_fmap, list_lookup_alter.
  case_decide as E; [subst j|reflexivity].
  destruct (sockets w !! i) as [s|]; cbn; [rewrite Hf|]; reflexivity.
Qed.

Lemma sameCore_wsSend (k : nat) (f : Frame) (w : World) : sameCore w (wsSend k f w).
Proof. apply sameCore_alter. reflexivity. Qed.

Lemma sameCore_sendJSON (f : Frame) (w : World) : sameCore w (sendJSON f w).
Proof.
  unfold sendJSON. destruct (ws w) as [k|]; [|core_fields].
  destruct (readyStateOf k w) as [[]|]; try core_fields.
  apply sameCore_wsSend.
Qed.

Lemma sameCore_flushLoop (queue : list Frame) :
  forall w : World, sameCore w (flushLoop queue w).
Proof.
  induction queue as [|f rest IH]; intros w; cbn [flushLoop].
  - apply sameCore_refl.
  - destruct (ws w) as [k|]; [|apply sameCore_refl].
    destruct (readyStateOf k w) as [[]|]; try apply sameCore_refl.
    eapply sameCore_trans; [|apply IH].
    apply (sameCore_trans _ (setSendQueue rest w)); [core_fields|].
    apply sameCore_wsSend.
Qed.

Lemma sameCore_handlePart (p : Part) (w : World) : sameCore w (handlePart p w).
Proof.
  unfold handlePart. destruct (inlineData p) as [[[mt|] [d|]]|]; destruct (text p);
    try core_fields; destruct (JsString.startsWith mt "audio/");
    core_fields.
Qed.

Lemma sameCore_fold {A : Type} (op : A -> World -> World) (l : list A) :
  (forall a w, sameCore w (op a w)) ->
  forall w : World, sameCore w (fold_left (fun w' a => op a w') l w).
Proof.
  intros Hop. induction l as [|a l IH]; intros w; cbn; [apply sameCore_refl|].
  eapply sameCore_trans; [apply Hop|apply IH].
Qed.

Lemma sameCore_handleTranscription (mk : string -> Notification) (t : option string)
    (w : World) :
  sameCore w (handleTranscription mk t w).
Proof.
  unfold handleTranscription. destruct t as [txt|]; [|apply sameCore_refl].
  destruct (String.eqb _ _); core_fields.
Qed.

(** A message that does not acknowledge the setup changes nothing the
    timers or the promises can see. *)
Lemma sameCore_handleMessage (k : nat) (json : ServerMessage) (w : World) :
  setupComplete json = false -> sameCore w (handleMessage k json w).
Proof.
  intros Hsc. unfold handleMessage. rewrite Hsc.
  destruct (goAway json); [core_fields|].
  destruct (toolCallFunctionCalls json) as [calls|].
  - apply (sameCore_fold (fun c w' => notify (onToolCall (fcId c) (fcName c) (fcArgs c)) w')).
    intros a w'. core_fields.
  - destruct (serverContent json) as [sc|]; [|apply sameCore_refl].
    destruct (interrupted sc); [core_fields|].
    eapply sameCore_trans; [|apply sameCore_handleTranscription].
    eapply sameCore_trans; [|apply sameCore_handleTranscription].
    apply sameCore_trans with
      (match modelTurnParts sc with
       | Some parts => fold_left (fun w' p => handlePart p w') parts w
       | None => w
       end).
    + destruct (modelTurnParts sc) as [parts|]; [|apply sameCore_refl].
      apply (sameCore_fold handlePart). intros a w'. apply sameCore_handlePart.
    + destruct (turnComplete sc); core_fields.
Qed.

(** *** Handlers as core steps *)

Abbreviation CoreOps ack := (rtc (CoreOp ack)).

Lemma CoreOps_same (ack : nat -> Prop) (w w' : World) :
  sameCore w w' -> CoreOps ack w w'.
Proof. intros H. apply rtc_once. apply co_same. exact H. Qed.

Lemma CoreOps_then_same (ack : nat -> Prop) (w w1 w' : World) :
  CoreOps ack w w1 -> sameCore w1 w' -> CoreOps ack w w'.
Proof. intros H1 H2. eapply rtc_r; [exact H1|apply co_same; exact H2]. Qed.

Lemma CoreOp_wsClose (ack : nat -> Prop) (j : nat) (w : World) :
  CoreOp ack w (wsClose j w).
Proof.
  apply co_move. intros s. destruct (readyState s) eqn:E; cbn; rewrite ?E; auto;
    split; auto; discriminate.
Qed.

Lemma CoreOp_dispatchClose (ack : nat -> Prop) (j : nat) (w : World) :
  CoreOp ack w (dispatchClose j w).
Proof. apply co_move. intros s. cbn. auto. Qed.

Lemma readyStateOf_dispatchClose (j : nat) (w : World) (b : bool) :
  closeDispatched <$> sockets w !! j = Some b ->
  readyStateOf j (dispatchClose j w) = Some CLOSED.
Proof.
  unfold readyStateOf, dispatchClose, alterSocket. cbn [sockets setSockets].
  rewrite list_lookup_alter_eq. destruct (sockets w !! j); [reflexivity|discriminate].
Qed.

Lemma readyStateOf_sameCore (j : nat) (w w' : World) :
  sameCore w w' -> readyStateOf j w' = readyStateOf j w.
Proof.
  intros H. apply (coreAt_sameCore j) in H. unfold coreAt, readyStateOf in *.
  rewrite !list_lookup_fmap in H.
  destruct (sockets w' !! j) as [s1|], (sockets w !! j) as [s2|];
    cbn in *; unfold socketCore in *; congruence.
Qed.

Lemma readyStateOf_resolveOnce (j i : nat) (ok : bool) (w : World) :
  readyStateOf i (resolveOnce j ok w) = readyStateOf i w.
Proof.
  unfold readyStateOf, resolveOnce, alterSocket. cbn [sockets setSockets].
  rewrite list_lookup_alter. case_decide as E; [subst j|reflexivity].
  destruct (sockets w !! i) as [s|]; [|reflexivity]. cbn.
  destruct (resolved s); reflexivity.
Qed.

Lemma CoreOps_reject (ack : nat -> Prop) (j : nat) (w wn : World) :
  readyStateOf j w = Some CLOSED -> sameCore w wn ->
  CoreOps ack w (resolveOnce j false wn).
Proof.
  intros Hc Hs. eapply rtc_l; [apply co_same; exact Hs|].
  apply rtc_once. apply co_reject_closed.
  rewrite (readyStateOf_sameCore j w wn Hs). exact Hc.
Qed.

(** An event, as the core steps of its handler. *)
Lemma step_CoreOps (e : Event) (w w' : World) :
  step e w = Some w' -> CoreOps (ackOf e) w w'.
Proof.
  destruct e; cbn [step].
  - intros [= <-]. apply rtc_once. apply co_connect.
  - intros [= <-]. apply CoreOps_same. unfold sendVideoFrame.
    destruct (negb _); [apply sameCore_refl|apply sameCore_sendJSON].
  - intros [= <-]. apply CoreOps_same. unfold sendAudio.
    destruct (negb _); [apply sameCore_refl|apply sameCore_sendJSON].
  - intros [= <-]. apply CoreOps_same. apply sameCore_sendJSON.
  - intros [= <-]. unfold disconnect.
    apply CoreOps_then_same with
      (match ws w with Some k => wsClose k w | None => w end).
    + destruct (ws w); [apply rtc_once, CoreOp_wsClose|apply rtc_refl].
    + destruct (ws w); core_fields.
  - destruct (readyStateOf k w) as [[]|] eqn:E; try discriminate. intros [= <-].
    eapply CoreOps_then_same; [apply rtc_once, co_open; exact E|].
    unfold onopen, sendSetup.
    eapply sameCore_trans; [|apply sameCore_sendJSON]. core_fields.
  - destruct (readyStateOf k w) as [[]|] eqn:E; try discriminate. intros [= <-].
    destruct d as [|json]; cbn [onmessage]; [apply rtc_refl|].
    destruct (setupComplete json) eqn:Hsc;
      [|apply CoreOps_same, sameCore_handleMessage; exact Hsc].
    unfold handleMessage. rewrite Hsc.
    eapply rtc_r; [|apply co_accept; exists (Json json); auto].
    eapply CoreOps_then_same; [|apply sameCore_flushLoop].
    apply CoreOps_then_same with
      (match connectTimeoutId w with
       | Some h => setConnectTimeoutId None (clearTimeout h w)
       | None => w
       end); [|core_fields].
    destruct (connectTimeoutId w) as [h|] eqn:Eh;
      [apply rtc_once, co_clear; exact Eh|apply rtc_refl].
  - destruct (closeDispatched <$> sockets w !! k) as [[]|] eqn:E; try discriminate.
    intros [= <-]. unfold onclose, onerror.
    pose proof (readyStateOf_dispatchClose k w _ E) as Hc.
    eapply rtc_l; [apply CoreOp_dispatchClose|].
    eapply rtc_trans.
    + apply (CoreOps_reject _ k (dispatchClose k w)
               (notify (onStateChange error (Some "WebSocket error"%string))
                  (dispatchClose k w))); [exact Hc|core_fields].
    + apply CoreOps_reject; [|core_fields].
      rewrite readyStateOf_resolveOnce. exact Hc.
  - destruct (closeDispatched <$> sockets w !! k) as [[]|] eqn:E; try discriminate.
    intros [= <-]. unfold onclose.
    pose proof (readyStateOf_dispatchClose k w _ E) as Hc.
    eapply rtc_l; [apply CoreOp_dispatchClose|].
    apply CoreOps_reject; [exact Hc|core_fields].
  - intros [= <-]. unfold elapse.
    apply rtc_l with (setNow (now w + ms) w); [apply co_now|].
    generalize (List.length (timers (setNow (now w + ms) w))) as rounds.
    generalize (setNow (now w + ms) w) as w1. intros w1 rounds. revert w1.
    induction rounds as [|n IH]; intros w1; cbn [fireDue]; [apply rtc_refl|].
    destruct (List.find _ (timers w1)) as [t|] eqn:Hfind; [|apply rtc_refl].
    apply find_some in Hfind as [Hin Hdue]. apply N.leb_le in Hdue.
    eapply rtc_l; [apply co_fire; eassumption|apply IH].
Qed.

(** *** What a core step changes *)

Lemma coreAt_lookup (k : nat) (w : World) :
  coreAt k w = socketCore <$> sockets w !! k.
Proof. unfold coreAt. apply list_lookup_fmap. Qed.

Lemma lookup_alterSocket (j k : nat) (f : WebSocket -> WebSocket) (w : World) :
  sockets (alterSocket j f w) !! k
  = if decide (j = k) then f <$> sockets w !! k else sockets w !! k.
Proof.
  unfold alterSocket. cbn [sockets setSockets]. rewrite list_lookup_alter.
  case_decide; subst; reflexivity.
Qed.

Lemma coreAt_alterSocket_ne (j k : nat) (f : WebSocket -> WebSocket) (w : World) :
  j <> k -> coreAt k (alterSocket j f w) = coreAt k w.
Proof.
  intros H. rewrite !coreAt_lookup, lookup_alterSocket.
  case_decide; [contradiction|reflexivity].
Qed.

Lemma coreAt_alterSocket_eq (k : nat) (f : WebSocket -> WebSocket) (w : World) :
  coreAt k (alterSocket k f w) = (fun s => socketCore (f s)) <$> sockets w !! k.
Proof.
  rewrite coreAt_lookup, lookup_alterSocket. case_decide; [|contradiction].
  destruct (sockets w !! k); reflexivity.
Qed.

Lemma coreAt_is_Some (k : nat) (w : World) :
  is_Some (coreAt k w) <-> (k < List.length (sockets w))%nat.
Proof.
  rewrite coreAt_lookup, fmap_is_Some. apply lookup_lt_is_Some.
Qed.

Lemma promiseOf_coreAt (k : nat) (w : World) :
  promiseOf k w = match coreAt k w with Some (_, res) => res | None => None end.
Proof.
  unfold promiseOf. rewrite coreAt_lookup. destruct (sockets w !! k); reflexivity.
Qed.

Lemma readyStateOf_coreAt (k : nat) (w : World) :
  readyStateOf k w = fst <$> coreAt k w.
Proof.
  unfold readyStateOf. rewrite coreAt_lookup. destruct (sockets w !! k); reflexivity.
Qed.

(** The fields of the world after a timeout closure ran. *)
Lemma runTimer_fields (cb : TimerCallback) (w : World) :
  timers (runTimer cb w) = timers w /\ now (runTimer cb w) = now w /\
  nextHandle (runTimer cb w) = nextHandle w /\
  (connectTimeoutId (runTimer cb w) = connectTimeoutId w \/
   connectTimeoutId (runTimer cb w) = None) /\
  List.length (sockets (runTimer cb w)) = List.length (sockets w) /\
  state (runTimer cb w) = error.
Proof.
  destruct cb as [j|j]; cbn [runTimer]; case_bool_decide;
    unfold wsClose, resolveOnce, alterSocket;
    cbn [timers now nextHandle connectTimeoutId sockets setSockets notify
         setConnectTimeoutId state notified lastState];
    rewrite ?length_alter; auto 10.
Qed.

(** At socket [k], a timeout closure of another socket changes nothing; one
    of socket [k] changes the ready state and resolves the promise with
    [false] if it was not resolved. *)
Lemma runTimer_coreAt (cb : TimerCallback) (k : nat) (w : World) :
  (timerSocket cb <> k -> coreAt k (runTimer cb w) = coreAt k w) /\
  (timerSocket cb = k ->
   forall rs res, coreAt k w = Some (rs, res) ->
   exists rs', coreAt k (runTimer cb w)
               = Some (rs', match res with Some b => Some b | None => Some false end)).
Proof.
  assert (Hres : forall (j : nat) (w0 : World),
             (j <> k -> coreAt k (resolveOnce j false w0) = coreAt k w0) /\
             (j = k -> forall rs res, coreAt k w0 = Some (rs, res) ->
                       coreAt k (resolveOnce j false w0)
                       = Some (rs, match res with Some b => Some b | None => Some false end))).
  { intros j w0. split.
    - intros Hne. apply coreAt_alterSocket_ne. exact Hne.
    - intros -> rs res. unfold resolveOnce. rewrite coreAt_alterSocket_eq, coreAt_lookup.
      destruct (sockets w0 !! k) as [s|]; [|discriminate].
      unfold socketCore. cbn. intros [= <- <-].
      destruct (resolved s) eqn:E; cbn; rewrite ?E; reflexivity. }
  assert (Hclose : forall (j : nat) (w0 : World),
             (j <> k -> coreAt k (wsClose j w0) = coreAt k w0) /\
             (j = k -> forall rs res, coreAt k w0 = Some (rs, res) ->
                       exists rs', coreAt k (wsClose j w0) = Some (rs', res))).
  { intros j w0. split.
    - intros Hne. apply coreAt_alterSocket_ne. exact Hne.
    - intros -> rs res. unfold wsClose. rewrite coreAt_alterSocket_eq, coreAt_lookup.
      destruct (sockets w0 !! k) as [s|]; [|discriminate].
      unfold socketCore. cbn. intros [= <- <-].
      destruct (readyState s); eexists; reflexivity. }
  assert (Hboth : forall (j : nat) (n : Notification) (w1 : World),
             coreAt k w1 = coreAt k w ->
             let w3 := notify n (resolveOnce j false w1) in
             let w' := if bool_decide (ws w3 = Some j) then wsClose j w3 else w3 in
             (j <> k -> coreAt k w' = coreAt k w) /\
             (j = k -> forall rs res, coreAt k w = Some (rs, res) ->
                       exists rs', coreAt k w'
                         = Some (rs', match res with Some b => Some b | None => Some false end))).
  { intros j n w1 E w3 w'. subst w'.
    assert (E3 : coreAt k w3 = coreAt k (resolveOnce j false w1)) by reflexivity.
    split.
    - intros Hne. case_bool_decide.
      + rewrite (proj1 (Hclose j _) Hne), E3, (proj1 (Hres j _) Hne). exact E.
      + rewrite E3, (proj1 (Hres j _) Hne). exact E.
    - intros -> rs res Hc. rewrite <- E in Hc.
      pose proof (proj2 (Hres k w1) eq_refl rs res Hc) as Hr. rewrite <- E3 in Hr.
      case_bool_decide.
      + apply (proj2 (Hclose k _) eq_refl rs _ Hr).
      + exists rs. exact Hr. }
  destruct cb as [j|j]; cbn [runTimer timerSocket].
  - apply (Hboth j _ (setConnectTimeoutId None w)). reflexivity.
  - apply (Hboth j _ w). reflexivity.
Qed.

(** The fields of the world after [connect] made a socket. *)
Lemma connect_fields (apiKey : string) (w : World) :
  wsOpen w = false ->
  fst (connect apiKey w) = PromiseOfSocket (List.length (sockets w)) /\
  timers (snd (connect apiKey w))
  = timers w ++ [ {| handle := nextHandle w; due := now w + 15000;
                     callback := TrackedTimeout (List.length (sockets w)) |};
                  secondTimer (List.length (sockets w)) (S (nextHandle w))
                    (now w + 15000) ] /\
  now (snd (connect apiKey w)) = now w /\
  nextHandle (snd (connect apiKey w)) = S (S (nextHandle w)) /\
  connectTimeoutId (snd (connect apiKey w)) = Some (nextHandle w) /\
  sockets (snd (connect apiKey w))
  = sockets w ++ [ {| readyState := CONNECTING; sent := [];
                      closeDispatched := false; resolved := None |} ] /\
  state (snd (connect apiKey w)) = connecting.
Proof.
  intros H. unfold connect. rewrite H. cbn. rewrite <- app_assoc. auto 10.
Qed.

Lemma connect_already_open (apiKey : string) (w : World) :
  wsOpen w = true -> connect apiKey w = (Resolved true, w).
Proof. intros H. unfold connect. rewrite H. reflexivity. Qed.

Lemma clearTimeout_In (h : nat) (t : Timer) (w : World) :
  In t (timers (clearTimeout h w)) <-> In t (timers w) /\ handle t <> h.
Proof.
  unfold clearTimeout. cbn [timers setTimers]. rewrite filter_In, negb_true_iff.
  rewrite Nat.eqb_neq. reflexivity.
Qed.

Lemma now_CoreOp (ack : nat -> Prop) (w w' : World) :
  CoreOp ack w w' -> now w <= now w'.
Proof.
  intros [w1 w2 (_ & E & _)|j f w1 _|j w1 _|j w1 _|j w1 _|t w1 _ _|h w1 _|apiKey w1|ms w1].
  - rewrite E. reflexivity.
  - reflexivity.
  - reflexivity.
  - reflexivity.
  - reflexivity.
  - destruct (runTimer_fields (callback t) (clearTimeout (handle t) w1)) as (_ & -> & _).
    reflexivity.
  - reflexivity.
  - destruct (wsOpen w1) eqn:E.
    + rewrite connect_already_open by exact E. reflexivity.
    + destruct (connect_fields apiKey w1 E) as (_ & _ & -> & _). reflexivity.
  - cbn. lia.
Qed.

Lemma now_CoreOps (ack : nat -> Prop) (w w' : World) :
  CoreOps ack w w' -> now w <= now w'.
Proof.
  induction 1 as [|w1 w2 w3 H12 _ IH]; [reflexivity|].
  etransitivity; [eapply now_CoreOp; exact H12|exact IH].
Qed.

(** *** Invariants of the core steps *)

Lemma WellFormed_mono (w w' : World) :
  (forall t, In t (timers w') -> In t (timers w)) ->
  (nextHandle w <= nextHandle w')%nat ->
  (List.length (sockets w) <= List.length (sockets w'))%nat ->
  WellFormed w -> WellFormed w'.
Proof.
  intros Ht Hn Hs Hwf t Hin. destruct (Hwf t (Ht t Hin)) as [Hh Hj]. split; [lia|].
  intros j Hj'. specialize (Hj j Hj'). lia.
Qed.

Lemma length_alterSocket (j : nat) (f : WebSocket -> WebSocket) (w : World) :
  List.length (sockets (alterSocket j f w)) = List.length (sockets w).
Proof. unfold alterSocket. cbn [sockets setSockets]. apply length_alter. Qed.

Lemma WellFormed_alterSocket (j : nat) (f : WebSocket -> WebSocket) (w : World) :
  WellFormed w -> WellFormed (alterSocket j f w).
Proof.
  apply WellFormed_mono.
  - intros t Hin. exact Hin.
  - apply le_n.
  - rewrite length_alterSocket. apply le_n.
Qed.

Lemma WellFormed_CoreOp (ack : nat -> Prop) (w w' : World) :
  CoreOp ack w w' -> WellFormed w -> WellFormed w'.
Proof.
  intros [w1 w2 (Et & _ & _ & En & Es)|j f w1 _|j w1 _|j w1 _|j w1 _|t w1 _ _|h w1 _
         |apiKey w1|ms w1].
  - apply WellFormed_mono; rewrite ?Et, ?En, ?(sockets_length_core _ _ Es); auto.
  - apply WellFormed_alterSocket.
  - apply WellFormed_alterSocket.
  - apply WellFormed_alterSocket.
  - apply WellFormed_alterSocket.
  - destruct (runTimer_fields (callback t) (clearTimeout (handle t) w1))
      as (Et & _ & En & _ & Es & _).
    apply WellFormed_mono; rewrite ?Et, ?En, ?Es; try apply le_n.
    intros t' Hin. apply clearTimeout_In in Hin. apply Hin.
  - apply WellFormed_mono; try apply le_n.
    intros t' Hin. apply (clearTimeout_In h t' w1) in Hin. apply Hin.
  - destruct (wsOpen w1) eqn:E.
    + rewrite connect_already_open by exact E. auto.
    + destruct (connect_fields apiKey w1 E) as (_ & Et & _ & En & _ & Es & _).
      intros Hwf t Hin. rewrite Et in Hin. rewrite En, Es, length_app. cbn [List.length].
      apply in_app_iff in Hin as [Hin|[<-|[<-|[]]]].
      * destruct (Hwf t Hin) as [Hh Hj]. split; [lia|].
        intros j Hj'. specialize (Hj j Hj'). lia.
      * cbn. split; [lia|]. intros j [[= <-]|[=]]. lia.
      * cbn. split; [lia|]. intros j [[=]|[= <-]]. lia.
  - apply WellFormed_mono; try apply le_n. intros t Hin. exact Hin.
Qed.

Lemma WellFormed_run (es : list Event) :
  forall w w' : World, WellFormed w -> run es w = Some w' -> WellFormed w'.
Proof.
  induction es as [|e rest IH]; intros w w' Hwf; cbn [run].
  - intros [= <-]. exact Hwf.
  - destruct (step e w) as [w1|] eqn:E; [|discriminate].
    apply IH. apply step_CoreOps in E.
    induction E as [|x y z Hxy _ IHE]; [exact Hwf|].
    apply IHE. eapply WellFormed_CoreOp; eassumption.
Qed.

Lemma WellFormed_initial : WellFormed initialWorld.
Proof. intros t []. Qed.

Lemma Pending_CoreOp (ack : nat -> Prop) (k h : nat) (T : N) (w w' : World) :
  CoreOp ack w w' -> now w' < T -> Pending k h T w -> Pending k h T w'.
Proof.
  intros Hop Hnow [Ht Hu Hd Hn Hc Hh (rs & res & Hs & Hf)].
  assert (Hmove : forall (j : nat) (f : WebSocket -> WebSocket),
             (forall s, sockets w !! k = Some s -> j = k ->
                        socketCore s = (rs, res) ->
                        resolved (f s) = Some false -> readyState (f s) = CLOSED) ->
             Pending k h T (alterSocket j f w)).
  { intros j f Hjf. constructor; auto.
    destruct (decide (j = k)) as [->|Hne].
    - rewrite coreAt_alterSocket_eq. rewrite coreAt_lookup in Hs.
      destruct (sockets w !! k) as [s|] eqn:E; [|discriminate].
      assert (Hsc : socketCore s = (rs, res)) by (cbn in Hs; congruence).
      exists (readyState (f s)), (resolved (f s)). split; [reflexivity|].
      apply (Hjf s eq_refl eq_refl Hsc).
    - rewrite coreAt_alterSocket_ne by exact Hne. eauto. }
  destruct Hop as [w1 w2 (Et & En & Ec & Eh & Es)|j f w1 Hf'|j w1 Hj|j w1 Hj|j w1 _
                  |t w1 Hin Hdue|h0 w1 Hc0|apiKey w1|ms w1].
  - constructor; rewrite ?Et, ?En, ?Ec, ?Eh; auto.
    unfold coreAt. rewrite Es. eauto.
  - apply Hmove. intros s _ _ Hsc Hr. destruct (Hf' s) as [Hr' Hc'].
    unfold socketCore in Hsc. injection Hsc as <- <-.
    apply Hc', Hf. congruence.
  - apply Hmove. intros s Hlk -> Hsc Hr. exfalso.
    unfold socketCore in Hsc. injection Hsc as <- <-.
    unfold readyStateOf in Hj. rewrite Hlk in Hj. cbn in Hj.
    cbn in Hr. specialize (Hf Hr). congruence.
  - apply Hmove. intros s Hlk -> Hsc Hr.
    unfold readyStateOf in Hj. rewrite Hlk in Hj. cbn in Hj. injection Hj as Hj.
    destruct (resolved s); cbn; exact Hj.
  - apply Hmove. intros s Hlk -> Hsc Hr.
    unfold socketCore in Hsc. injection Hsc as <- <-.
    destruct (resolved s) as [b|] eqn:E; cbn in Hr; [|discriminate].
    rewrite E in Hr. cbn. apply Hf. exact Hr.
  - assert (Hlt : due t < T) by (eapply N.le_lt_trans; eassumption).
    assert (Hne : handle t <> h).
    { intros Eh. rewrite (Hu t Hin Eh) in Hlt. cbn in Hlt. lia. }
    assert (Hsock : timerSocket (callback t) <> k).
    { intros Ek. assert (Ht' : timerOf k t).
      { unfold timerOf. destruct (callback t); cbn in Ek; subst; auto. }
      rewrite (Hd t Hin Ht') in Hlt. lia. }
    destruct (runTimer_fields (callback t) (clearTimeout (handle t) w1))
      as (Et & En & Eh & Ec & _ & _).
    constructor; rewrite ?Et, ?En, ?Eh.
    + apply clearTimeout_In. split; [exact Ht|]. cbn. auto.
    + intros t' Hin' E'. apply clearTimeout_In in Hin'. apply Hu; tauto.
    + intros t' Hin' E'. apply clearTimeout_In in Hin'. apply Hd; tauto.
    + exact Hn.
    + destruct Ec as [-> | ->]; [exact Hc|discriminate].
    + exact Hh.
    + rewrite (proj1 (runTimer_coreAt _ k _) Hsock). eauto.
  - assert (Hne : h0 <> h) by congruence.
    constructor.
    + apply (clearTimeout_In h0 _ w1). split; [exact Ht|]. cbn. auto.
    + intros t' Hin' E'. apply (clearTimeout_In h0 t' w1) in Hin'. apply Hu; tauto.
    + intros t' Hin' E'. apply (clearTimeout_In h0 t' w1) in Hin'. apply Hd; tauto.
    + exact Hn.
    + discriminate.
    + exact Hh.
    + exists rs, res. split; [exact Hs|exact Hf].
  - destruct (wsOpen w1) eqn:E.
    + rewrite connect_already_open by exact E. constructor; eauto.
    + destruct (connect_fields apiKey w1 E) as (_ & Et & En & Eh & Ec & Es & _).
      assert (Hk : (k < List.length (sockets w1))%nat).
      { apply coreAt_is_Some. rewrite Hs. eauto. }
      constructor; rewrite ?Et, ?En, ?Eh, ?Ec.
      * apply in_app_iff. left. exact Ht.
      * intros t' Hin' E'. apply in_app_iff in Hin' as [Hin'|[<-|[<-|[]]]];
          [apply Hu; assumption|cbn in E'; lia|cbn in E'; lia].
      * intros t' Hin' E'. apply in_app_iff in Hin' as [Hin'|[<-|[<-|[]]]];
          [apply Hd; assumption| |]; destruct E' as [E'|E']; cbn in E';
          try discriminate; injection E' as E'; lia.
      * exact Hn.
      * intros [= E']. lia.
      * lia.
      * rewrite coreAt_lookup, Es, lookup_app_l by exact Hk.
        rewrite <- coreAt_lookup. eauto.
  - constructor; try assumption. exists rs, res. split; [exact Hs|exact Hf].
Qed.

Lemma Pending_CoreOps (ack : nat -> Prop) (k h : nat) (T : N) (w w' : World) :
  CoreOps ack w w' -> now w' < T -> Pending k h T w -> Pending k h T w'.
Proof.
  induction 1 as [|w1 w2 w3 H12 H23 IH]; intros Hnow Hp; [exact Hp|].
  apply IH; [exact Hnow|].
  eapply Pending_CoreOp; [exact H12| |exact Hp].
  eapply N.le_lt_trans; [eapply now_CoreOps; exact H23|exact Hnow].
Qed.

Lemma NotTrue_CoreOp (ack : nat -> Prop) (k : nat) (w w' : World) :
  CoreOp ack w w' -> ~ ack k -> NotTrue k w -> NotTrue k w'.
Proof.
  intros Hop Hack Hnt.
  assert (Hmove : forall (j : nat) (f : WebSocket -> WebSocket),
             (forall s, j = k -> resolved (f s) = Some true -> resolved s = Some true) ->
             NotTrue k (alterSocket j f w)).
  { intros j f Hjf rs'. destruct (decide (j = k)) as [->|Hne].
    - rewrite coreAt_alterSocket_eq. intros E.
      destruct (sockets w !! k) as [s|] eqn:El; [|discriminate].
      cbn in E. unfold socketCore in E. injection E as _ E.
      apply (Hnt (readyState s)). rewrite coreAt_lookup, El. cbn.
      unfold socketCore. rewrite (Hjf s eq_refl E). reflexivity.
    - rewrite coreAt_alterSocket_ne by exact Hne. apply Hnt. }
  destruct Hop as [w1 w2 Hs|j f w1 Hf'|j w1 Hj|j w1 Hj|j w1 Hackj
                  |t w1 Hin Hdue|h0 w1 Hc0|apiKey w1|ms w1].
  - intros rs. rewrite (coreAt_sameCore k w1 w2 Hs). apply Hnt.
  - apply Hmove. intros s _ Hr. destruct (Hf' s) as [<- _]. exact Hr.
  - apply Hmove. intros s _ Hr. exact Hr.
  - apply Hmove. intros s _. destruct (resolved s) eqn:E; cbn; rewrite ?E; congruence.
  - apply Hmove. intros s -> _. contradiction.
  - intros rs' E.
    destruct (decide (timerSocket (callback t) = k)) as [Ek|Hne].
    + destruct (coreAt k w1) as [[rs res]|] eqn:Ec.
      * destruct (proj2 (runTimer_coreAt (callback t) k (clearTimeout (handle t) w1))
                    Ek rs res Ec) as [rs'' E''].
        rewrite E'' in E. injection E as _ E.
        destruct res as [[]|]; try discriminate. apply (Hnt rs). exact Ec.
      * assert (Hnone : ~ is_Some (coreAt k (runTimer (callback t)
                                               (clearTimeout (handle t) w1)))).
        { rewrite coreAt_is_Some.
          destruct (runTimer_fields (callback t) (clearTimeout (handle t) w1))
            as (_ & _ & _ & _ & -> & _).
          change (sockets (clearTimeout (handle t) w1)) with (sockets w1).
          rewrite <- coreAt_is_Some, Ec. intros [? ?]. discriminate. }
        apply Hnone. rewrite E. eauto.
    + rewrite (proj1 (runTimer_coreAt _ k _) Hne) in E. apply (Hnt rs'). exact E.
  - exact Hnt.
  - destruct (wsOpen w1) eqn:E.
    + rewrite connect_already_open by exact E. exact Hnt.
    + destruct (connect_fields apiKey w1 E) as (_ & _ & _ & _ & _ & Es & _).
      intros rs'. rewrite coreAt_lookup, Es.
      destruct (decide (k < List.length (sockets w1))%nat) as [Hk|Hk].
      * rewrite lookup_app_l by exact Hk. rewrite <- coreAt_lookup. apply Hnt.
      * rewrite lookup_app_r by lia.
        destruct (k - List.length (sockets w1))%nat as [|[|n]]; cbn; discriminate.
  - exact Hnt.
Qed.

Lemma NotTrue_CoreOps (ack : nat -> Prop) (k : nat) (w w' : World) :
  CoreOps ack w w' -> ~ ack k -> NotTrue k w -> NotTrue k w'.
Proof.
  induction 1 as [|w1 w2 w3 H12 _ IH]; intros Hack Hnt; [exact Hnt|].
  apply IH; [exact Hack|]. eapply NotTrue_CoreOp; eassumption.
Qed.

(** A promise that was resolved keeps its value. *)
Lemma resolved_CoreOp (ack : nat -> Prop) (k : nat) (b : bool) (w w' : World) :
  CoreOp ack w w' -> promiseOf k w = Some b -> promiseOf k w' = Some b.
Proof.
  intros Hop. rewrite !promiseOf_coreAt.
  destruct (coreAt k w) as [[rs res]|] eqn:Ec; [|discriminate]. intros ->.
  assert (Hmove : forall (j : nat) (f : WebSocket -> WebSocket),
             (forall s, resolved s = Some b -> resolved (f s) = Some b) ->
             match coreAt k (alterSocket j f w) with
             | Some (_, res) => res | None => None end = Some b).
  { intros j f Hjf. destruct (decide (j = k)) as [->|Hne].
    - rewrite coreAt_alterSocket_eq. rewrite coreAt_lookup in Ec.
      destruct (sockets w !! k) as [s|]; [|discriminate].
      cbn in *. unfold socketCore in *. injection Ec as _ Ec. apply Hjf. exact Ec.
    - rewrite coreAt_alterSocket_ne by exact Hne. rewrite Ec. reflexivity. }
  destruct Hop as [w1 w2 Hs|j f w1 Hf'|j w1 Hj|j w1 Hj|j w1 Hackj
                  |t w1 Hin Hdue|h0 w1 Hc0|apiKey w1|ms w1].
  - rewrite (coreAt_sameCore k w1 w2 Hs), Ec. reflexivity.
  - apply Hmove. intros s Hr. destruct (Hf' s) as [-> _]. exact Hr.
  - apply Hmove. intros s Hr. exact Hr.
  - apply Hmove. intros s Hr. rewrite Hr. cbn. exact Hr.
  - apply Hmove. intros s Hr. rewrite Hr. cbn. exact Hr.
  - destruct (decide (timerSocket (callback t) = k)) as [Ek|Hne].
    + destruct (proj2 (runTimer_coreAt (callback t) k (clearTimeout (handle t) w1))
                  Ek rs (Some b) Ec) as [rs'' ->]. reflexivity.
    + rewrite (proj1 (runTimer_coreAt _ k _) Hne).
      change (coreAt k (clearTimeout (handle t) w1)) with (coreAt k w1).
      rewrite Ec. reflexivity.
  - change (coreAt k (setConnectTimeoutId None (clearTimeout h0 w1))) with (coreAt k w1).
    rewrite Ec. reflexivity.
  - destruct (wsOpen w1) eqn:E.
    + rewrite connect_already_open by exact E. cbn [snd]. rewrite Ec. reflexivity.
    + destruct (connect_fields apiKey w1 E) as (_ & _ & _ & _ & _ & Es & _).
      assert (Hk : (k < List.length (sockets w1))%nat).
      { apply coreAt_is_Some. rewrite Ec. eauto. }
      rewrite coreAt_lookup, Es, lookup_app_l by exact Hk.
      rewrite <- coreAt_lookup, Ec. reflexivity.
  - change (coreAt k (setNow (now w1 + ms) w1)) with (coreAt k w1).
    rewrite Ec. reflexivity.
Qed.

Lemma resolved_run (k : nat) (b : bool) (es : list Event) :
  forall w w' : World,
    promiseOf k w = Some b -> run es w = Some w' -> promiseOf k w' = Some b.
Proof.
  induction es as [|e rest IH]; intros w w' Hp; cbn [run].
  - intros [= <-]. exact Hp.
  - destruct (step e w) as [w1|] eqn:E; [|discriminate].
    apply IH. apply step_CoreOps in E.
    induction E as [|x y z Hxy _ IHE]; [exact Hp|].
    apply IHE. eapply resolved_CoreOp; eassumption.
Qed.

(** *** The deadline of a connect call *)

Lemma now_fireDue (rounds : nat) :
  forall w : World, now (fireDue rounds w) = now w.
Proof.
  induction rounds as [|n IH]; intros w; cbn [fireDue]; [reflexivity|].
  destruct (List.find _ (timers w)) as [t|]; [|reflexivity].
  rewrite IH.
  destruct (runTimer_fields (callback t) (clearTimeout (handle t) w)) as (_ & -> & _).
  reflexivity.
Qed.

(** The clock moves with [Elapse] only. *)
Lemma now_step (e : Event) (w w' : World) :
  step e w = Some w' ->
  now w' = now w + match e with Elapse ms => ms | _ => 0 end.
Proof.
  assert (Hsame : forall w1 w2, sameCore w1 w2 -> now w2 = now w1 + 0).
  { intros w1 w2 (_ & -> & _). lia. }
  destruct e; cbn [step].
  - intros [= <-]. destruct (wsOpen w) eqn:E.
    + rewrite connect_already_open by exact E. cbn. lia.
    + destruct (connect_fields apiKey w E) as (_ & _ & -> & _). lia.
  - intros [= <-]. apply Hsame. unfold sendVideoFrame.
    destruct (negb _); [apply sameCore_refl|apply sameCore_sendJSON].
  - intros [= <-]. apply Hsame. unfold sendAudio.
    destruct (negb _); [apply sameCore_refl|apply sameCore_sendJSON].
  - intros [= <-]. apply Hsame. apply sameCore_sendJSON.
  - intros [= <-]. unfold disconnect. destruct (ws w); cbn; lia.
  - destruct (readyStateOf k w) as [[]|]; try discriminate. intros [= <-].
    unfold onopen, sendSetup.
    destruct (sameCore_sendJSON SetupFrame
                (notify (onStateChange settingUp None)
                   (alterSocket k (setReadyState OPEN) w))) as (_ & -> & _).
    cbn. lia.
  - destruct (readyStateOf k w) as [[]|]; try discriminate. intros [= <-].
    destruct d as [|json]; cbn [onmessage]; [lia|].
    destruct (setupComplete json) eqn:Hsc;
      [|apply Hsame, sameCore_handleMessage; exact Hsc].
    unfold handleMessage. rewrite Hsc. unfold flushSendQueue.
    change (now (resolveOnce k true ?x)) with (now x).
    match goal with
    | |- now (flushLoop ?q ?x) = _ =>
        destruct (sameCore_flushLoop q x) as (_ & -> & _)
    end.
    destruct (connectTimeoutId w); cbn; lia.
  - destruct (closeDispatched <$> sockets w !! k) as [[]|]; try discriminate.
    intros [= <-]. cbn. lia.
  - destruct (closeDispatched <$> sockets w !! k) as [[]|]; try discriminate.
    intros [= <-]. cbn. lia.
  - intros [= <-]. unfold elapse. rewrite now_fireDue. reflexivity.
Qed.

Lemma now_run (es : list Event) :
  forall w w' : World, run es w = Some w' -> now w' = now w + elapsed es.
Proof.
  induction es as [|e rest IH]; intros w w'; cbn [run].
  - intros [= <-]. cbn. lia.
  - destruct (step e w) as [w1|] eqn:E; [|discriminate]. intros H.
    rewrite (IH _ _ H), (now_step _ _ _ E). destruct e; cbn [elapsed]; lia.
Qed.

(** Right after [connect] made socket [k], the second timer of the call is
    pending and the promise is not resolved. *)
Lemma connect_Pending (apiKey : string) (w : World) :
  WellFormed w -> wsOpen w = false ->
  Pending (List.length (sockets w)) (S (nextHandle w)) (now w + 15000)
    (snd (connect apiKey w)) /\
  NotTrue (List.length (sockets w)) (snd (connect apiKey w)).
Proof.
  intros Hwf Hopen.
  destruct (connect_fields apiKey w Hopen) as (_ & Et & En & Eh & Ec & Es & _).
  assert (Hcore : coreAt (List.length (sockets w)) (snd (connect apiKey w))
                  = Some (CONNECTING, None)).
  { rewrite coreAt_lookup, Es, list_lookup_middle by reflexivity. reflexivity. }
  split.
  - constructor; rewrite ?Et, ?En, ?Eh, ?Ec.
    + apply in_app_iff. right. right. left. reflexivity.
    + intros t Hin E. apply in_app_iff in Hin as [Hin|[<-|[<-|[]]]].
      * destruct (Hwf t Hin) as [Hh _]. lia.
      * cbn in E. lia.
      * reflexivity.
    + intros t Hin E. apply in_app_iff in Hin as [Hin|[<-|[<-|[]]]].
      * destruct (Hwf t Hin) as [_ Hj]. specialize (Hj _ E). lia.
      * reflexivity.
      * reflexivity.
    + lia.
    + intros [= E]. lia.
    + lia.
    + exists CONNECTING, None. split; [exact Hcore|discriminate].
  - intros rs. rewrite Hcore. discriminate.
Qed.

Lemma noSetupCompleteOn_cons (k : nat) (e : Event) (rest : list Event) :
  noSetupCompleteOn k (e :: rest) = true ->
  ~ ackOf e k /\ noSetupCompleteOn k rest = true.
Proof.
  intros H. split.
  - intros (d & -> & Hd). cbn in H. rewrite Nat.eqb_refl, Hd in H. discriminate.
  - destruct e; cbn in H; try exact H. apply andb_true_iff in H. apply H.
Qed.

(** Within the window the second timer stays pending, whatever happens. *)
Lemma Pending_run (k h : nat) (T : N) (es : list Event) :
  forall w w' : World,
    Pending k h T w -> run es w = Some w' -> now w + elapsed es < T ->
    Pending k h T w'.
Proof.
  induction es as [|e rest IH]; intros w w' Hp; cbn [run].
  - intros [= <-] _. exact Hp.
  - destruct (step e w) as [w1|] eqn:E; [|discriminate]. intros Hrun Hlt.
    pose proof (now_step _ _ _ E) as Hn1.
    assert (Hlt1 : now w1 + elapsed rest < T).
    { rewrite Hn1. destruct e; cbn [elapsed] in Hlt; lia. }
    apply (IH w1 w'); [|exact Hrun|exact Hlt1].
    eapply Pending_CoreOps; [apply step_CoreOps; exact E| |exact Hp]. lia.
Qed.

Lemma NotTrue_run (k : nat) (es : list Event) :
  forall w w' : World,
    NotTrue k w -> noSetupCompleteOn k es = true -> run es w = Some w' ->
    NotTrue k w'.
Proof.
  induction es as [|e rest IH]; intros w w' Hnt Hno; cbn [run].
  - intros [= <-]. exact Hnt.
  - destruct (step e w) as [w1|] eqn:E; [|discriminate].
    apply noSetupCompleteOn_cons in Hno as [Hack Hno].
    apply IH; [|exact Hno].
    eapply NotTrue_CoreOps; [apply step_CoreOps; exact E|exact Hack|exact Hnt].
Qed.

Lemma filter_length_lt {A : Type} (f : A -> bool) (l : list A) (a : A) :
  In a l -> f a = false -> (List.length (List.filter f l) < List.length l)%nat.
Proof.
  induction l as [|b l IH]; intros Hin Hf; [destruct Hin|].
  pose proof (filter_length_le f l) as Hle. cbn [List.filter List.length].
  destruct Hin as [->|Hin].
  - rewrite Hf. lia.
  - specialize (IH Hin Hf). destruct (f b); cbn [List.length]; lia.
Qed.

(** Once the promise is resolved with [false] and the state is [error],
    further timeouts leave both. *)
Lemma fireDue_stable (k : nat) (rounds : nat) :
  forall w : World,
    promiseOf k w = Some false -> state w = error ->
    promiseOf k (fireDue rounds w) = Some false /\ state (fireDue rounds w) = error.
Proof.
  induction rounds as [|n IH]; intros w Hp Hs; cbn [fireDue]; [auto|].
  destruct (List.find _ (timers w)) as [t|] eqn:Hfind; [|auto].
  apply find_some in Hfind as [Hin Hdue]. apply N.leb_le in Hdue.
  apply IH.
  - apply (resolved_CoreOp (fun _ => False) k false w); [|exact Hp].
    apply co_fire; assumption.
  - apply runTimer_fields.
Qed.

(** When the clock has reached the deadline with the second timer pending,
    firing the due timers resolves the promise with [false] and leaves the
    state [error]. *)
Lemma fireDue_deadline (k h : nat) (T : N) (rounds : nat) :
  forall w : World,
    In (secondTimer k h T) (timers w) ->
    (forall t, In t (timers w) -> handle t = h -> t = secondTimer k h T) ->
    T <= now w -> NotTrue k w -> is_Some (coreAt k w) ->
    (List.length (timers w) <= rounds)%nat ->
    promiseOf k (fireDue rounds w) = Some false /\ state (fireDue rounds w) = error.
Proof.
  induction rounds as [|n IH]; intros w Hin Hu Hnow Hnt Hsome Hlen.
  - destruct (timers w); [destruct Hin|cbn in Hlen; lia].
  - cbn [fireDue].
    destruct (List.find _ (timers w)) as [t|] eqn:Hfind.
    + apply find_some in Hfind as [Hint Hdue]. apply N.leb_le in Hdue.
      destruct (decide (handle t = h)) as [Eh|Hne].
      * pose proof (Hu t Hint Eh) as ->. cbn [callback handle secondTimer].
        destruct (runTimer_fields (UntrackedTimeout k) (clearTimeout h w))
          as (_ & _ & _ & _ & _ & Hst).
        apply fireDue_stable; [|exact Hst].
        destruct Hsome as [[rs res] Hc].
        destruct (proj2 (runTimer_coreAt (UntrackedTimeout k) k (clearTimeout h w))
                    eq_refl rs res Hc) as [rs' Hc'].
        rewrite promiseOf_coreAt, Hc'. destruct res as [[]|]; try reflexivity.
        exfalso. apply (Hnt rs). exact Hc.
      * destruct (runTimer_fields (callback t) (clearTimeout (handle t) w))
          as (Et & En & _ & _ & Es & _).
        apply IH.
        -- rewrite Et. apply clearTimeout_In. split; [exact Hin|]. cbn. auto.
        -- rewrite Et. intros t' Hin' E'. apply clearTimeout_In in Hin'.
           apply Hu; tauto.
        -- rewrite En. exact Hnow.
        -- apply (NotTrue_CoreOp (fun _ => False) k w); [|tauto|exact Hnt].
           apply co_fire; assumption.
        -- rewrite coreAt_is_Some, Es. apply coreAt_is_Some. exact Hsome.
        -- rewrite Et. unfold clearTimeout. cbn [timers setTimers].
           assert (Hf : negb (handle t =? handle t)%nat = false)
             by (rewrite Nat.eqb_refl; reflexivity).
           pose proof (filter_length_lt
                         (fun t0 => negb (handle t0 =? handle t)%nat)
                         (timers w) t Hint Hf) as Hlt.
           lia.
    + exfalso. apply (find_none _ _ Hfind) in Hin. cbn in Hin.
      apply N.leb_gt in Hin. lia.
Qed.

Lemma notified_flushLoop (queue : list Frame) :
  forall w : World, notified (flushLoop queue w) = notified w.
Proof.
  induction queue as [|f rest IH]; intros w; cbn [flushLoop]; [reflexivity|].
  destruct (ws w) as [k|]; [|reflexivity].
  destruct (readyStateOf k w) as [[]|]; try reflexivity. rewrite IH. reflexivity.
Qed.

(** The acknowledgment of the setup on socket [k]: the state is [ready], and
    the promise of the call holds [true] unless it was resolved before. *)
Lemma handleMessage_resolves (k : nat) (json : ServerMessage) (w : World)
    (rs : ReadyState) (res : option bool) :
  setupComplete json = true -> coreAt k w = Some (rs, res) ->
  state (handleMessage k json w) = ready /\
  promiseOf k (handleMessage k json w)
  = match res with Some b => Some b | None => Some true end.
Proof.
  intros Hsc Hc. unfold handleMessage, flushSendQueue. rewrite Hsc.
  set (w1 := match connectTimeoutId w with
             | Some h => setConnectTimeoutId None (clearTimeout h w)
             | None => w
             end).
  set (w2 := notify (onStateChange ready None) w1).
  assert (Hc2 : coreAt k (flushLoop (sendQueue w2) w2) = Some (rs, res)).
  { rewrite (coreAt_sameCore k _ _ (sameCore_flushLoop _ w2)).
    unfold w2, w1. destruct (connectTimeoutId w); exact Hc. }
  split.
  - unfold state. change (notified (resolveOnce k true ?x)) with (notified x).
    rewrite notified_flushLoop. reflexivity.
  - rewrite promiseOf_coreAt. unfold resolveOnce.
    rewrite coreAt_alterSocket_eq. rewrite coreAt_lookup in Hc2.
    destruct (sockets (flushLoop (sendQueue w2) w2) !! k) as [s|]; [|discriminate].
    cbn in Hc2. unfold socketCore in Hc2. injection Hc2 as <- <-.
    cbn. destruct (resolved s) eqn:E; cbn; rewrite ?E; reflexivity.
Qed.

(** C2.  A call of [connect] that makes a socket [k] (the transport is not
    open at the call) returns the promise of that socket.  Whatever happens
    in the 15 s after the call (the transport may open, messages may
    arrive), if no [setupComplete] arrives on the socket, then when the
    15 s have passed the promise is resolved with [false] and the state is
    [error]; if a [setupComplete] arrives on the socket within the 15 s, the
    state becomes [ready] and the promise is resolved with [true], and
    keeps that value. *)
Theorem connect_times_out_false_or_resolves_true
    (before : list Event) (w0 : World) (apiKey : string) (es : list Event) :
  run before initialWorld = Some w0 -> wsOpen w0 = false ->
  elapsed es < 15000 ->
  fst (connect apiKey w0) = PromiseOfSocket (List.length (sockets w0)) /\
  (forall (w1 : World) (ms : N),
      noSetupCompleteOn (List.length (sockets w0)) es = true ->
      run (Connect apiKey :: es) w0 = Some w1 ->
      15000 <= elapsed es + ms ->
      exists w2 : World,
        step (Elapse ms) w1 = Some w2 /\
        promiseOf (List.length (sockets w0)) w2 = Some false /\
        state w2 = error) /\
  (forall (w1 w2 : World) (json : ServerMessage),
      setupComplete json = true ->
      run (Connect apiKey :: es) w0 = Some w1 ->
      step (WsMessage (List.length (sockets w0)) (Json json)) w1 = Some w2 ->
      state w2 = ready /\
      promiseOf (List.length (sockets w0)) w2 = Some true /\
      forall (later : list Event) (w3 : World),
        run later w2 = Some w3 ->
        promiseOf (List.length (sockets w0)) w3 = Some true).
Proof.
  intros Hreach Hopen Hwin.
  pose proof (WellFormed_run before _ _ WellFormed_initial Hreach) as Hwf.
  destruct (connect_Pending apiKey w0 Hwf Hopen) as [Hp Hnt].
  destruct (connect_fields apiKey w0 Hopen) as (Hfst & _ & Enow & _).
  set (k := List.length (sockets w0)) in *.
  split; [exact Hfst|]. split.
  - intros w1 ms Hno Hrun Hdead. cbn [run step] in Hrun.
    pose proof (Pending_run _ _ _ es _ _ Hp Hrun ltac:(rewrite Enow; lia))
      as [Ht Hu _ _ _ _ (rs & res & Hs & _)].
    pose proof (NotTrue_run k es _ _ Hnt Hno Hrun) as Hnt1.
    pose proof (now_run es _ _ Hrun) as Hn1. rewrite Enow in Hn1.
    eexists. split; [reflexivity|]. unfold elapse.
    apply (fireDue_deadline k (S (nextHandle w0)) (now w0 + 15000)).
    + exact Ht.
    + exact Hu.
    + cbn [now setNow]. lia.
    + exact Hnt1.
    + change (coreAt k (setNow (now w1 + ms) w1)) with (coreAt k w1).
      rewrite Hs. eauto.
    + apply le_n.
  - intros w1 w2 json Hsc Hrun Hmsg. cbn [run step] in Hrun.
    pose proof (Pending_run _ _ _ es _ _ Hp Hrun ltac:(rewrite Enow; lia))
      as [_ _ _ _ _ _ (rs & res & Hs & Hfalse)].
    cbn [step] in Hmsg.
    destruct (readyStateOf k w1) as [[]|] eqn:Hrs; try discriminate.
    injection Hmsg as <-. cbn [onmessage].
    rewrite readyStateOf_coreAt, Hs in Hrs. cbn in Hrs. injection Hrs as ->.
    destruct (handleMessage_resolves k json w1 _ _ Hsc Hs) as [Hst Hpr].
    assert (Htrue : promiseOf k (handleMessage k json w1) = Some true).
    { rewrite Hpr. destruct res as [[]|]; try reflexivity.
      specialize (Hfalse eq_refl). discriminate. }
    split; [exact Hst|]. split; [exact Htrue|].
    intros later w3 Hlater. apply (resolved_run k true later _ _ Htrue Hlater).
Qed.

Lemma fireDue_state_stable (rounds : nat) :
  forall w : World, state w = error -> state (fireDue rounds w) = error.
Proof.
  induction rounds as [|n IH]; intros w Hs; cbn [fireDue]; [exact Hs|].
  destruct (List.find _ (timers w)) as [t|]; [|exact Hs].
  apply IH. apply runTimer_fields.
Qed.

(** Every call of [connect] that makes a socket leaves the state [error]
    when its 15 s have passed, whatever happened in between, an
    acknowledged setup included: the second timer of the call is never
    cleared. *)
Lemma every_connect_ends_in_error
    (before : list Event) (w0 w1 : World) (apiKey : string) (es : list Event)
    (ms : N) :
  run before initialWorld = Some w0 -> wsOpen w0 = false ->
  elapsed es < 15000 ->
  run (Connect apiKey :: es) w0 = Some w1 ->
  15000 <= elapsed es + ms ->
  state (elapse ms w1) = error.
Proof.
  intros Hreach Hopen Hwin Hrun Hdead.
  pose proof (WellFormed_run before _ _ WellFormed_initial Hreach) as Hwf.
  destruct (connect_Pending apiKey w0 Hwf Hopen) as [Hp _].
  destruct (connect_fields apiKey w0 Hopen) as (_ & _ & Enow & _).
  cbn [run step] in Hrun.
  pose proof (Pending_run _ _ _ es _ _ Hp Hrun ltac:(rewrite Enow; lia))
    as [Ht _ _ _ _ _ _].
  pose proof (now_run es _ _ Hrun) as Hn1. rewrite Enow in Hn1.
  unfold elapse. cbn [timers setNow].
  destruct (timers w1) as [|t0 rest] eqn:Etimers; [destruct Ht|].
  cbn [List.length fireDue timers setNow now]. rewrite Etimers.
  destruct (List.find _ (t0 :: rest)) as [t|] eqn:Hfind.
  - apply fireDue_state_stable. apply runTimer_fields.
  - exfalso. apply (find_none _ _ Hfind) in Ht. cbn in Ht.
    apply N.leb_gt in Ht. lia.
Qed.

Lemma connect_times_out_false_or_resolves_true_witness :
  exists w2 : World,
    step (Elapse 14700)
      (default initialWorld
         (run (Connect "key" :: openedNotAcknowledged) initialWorld)) = Some w2 /\
    promiseOf 0 w2 = Some false /\ state w2 = error.
Proof.
  apply (proj1 (proj2 (connect_times_out_false_or_resolves_true
                         [] initialWorld "key" openedNotAcknowledged
                         eq_refl eq_refl eq_refl))).
  - reflexivity.
  - vm_compute. reflexivity.
  - vm_compute. discriminate.
Defined.

(** *** The setup message comes first *)

Lemma SetupFirst_same (w w' : World) :
  sockets w' = sockets w -> (ws w' = ws w \/ ws w' = None) ->
  SetupFirst w -> SetupFirst w'.
Proof.
  intros Es Ew H k s Hk. rewrite Es in Hk.
  destruct (H k s Hk) as [[H1 H2]|H1]; [left|right; exact H1].
  split; [exact H1|]. intros Hws. apply H2.
  destruct Ew as [Ew|Ew]; congruence.
Qed.

Lemma SetupFirst_alter (j : nat) (f : WebSocket -> WebSocket) (w : World) :
  (forall s, sent (f s) = sent s /\ (readyState (f s) = OPEN -> readyState s = OPEN)) ->
  SetupFirst w -> SetupFirst (alterSocket j f w).
Proof.
  intros Hf H k s Hk. unfold alterSocket in Hk. cbn [sockets setSockets] in Hk.
  cbn [alterSocket ws setSockets].
  destruct (decide (j = k)) as [->|Hne].
  - rewrite list_lookup_alter_eq in Hk.
    destruct (sockets w !! k) as [s0|] eqn:E; [|discriminate].
    cbn in Hk. injection Hk as <-.
    destruct (Hf s0) as [Hs Hr]. rewrite Hs.
    destruct (H k s0 E) as [[H1 H2]|H1]; [left|right; exact H1].
    split; [exact H1|]. intros Hws Ho. apply (H2 Hws). apply Hr, Ho.
  - rewrite list_lookup_alter_ne in Hk by exact Hne. apply (H k s Hk).
Qed.

Lemma SetupFirst_resolveOnce (k : nat) (ok : bool) (w : World) :
  SetupFirst w -> SetupFirst (resolveOnce k ok w).
Proof.
  apply SetupFirst_alter. intros s. destruct (resolved s); cbn; auto.
Qed.

Lemma SetupFirst_wsClose (k : nat) (w : World) :
  SetupFirst w -> SetupFirst (wsClose k w).
Proof.
  apply SetupFirst_alter. intros s.
  destruct (readyState s) eqn:E; cbn; rewrite ?E; split; auto; discriminate.
Qed.

Lemma SetupFirst_dispatchClose (k : nat) (w : World) :
  SetupFirst w -> SetupFirst (dispatchClose k w).
Proof. apply SetupFirst_alter. intros s. cbn. split; [reflexivity|discriminate]. Qed.

(** A frame given to the current socket while it is open follows the setup
    message. *)
Lemma SetupFirst_wsSend (k : nat) (f : Frame) (w : World) :
  ws w = Some k -> readyStateOf k w = Some OPEN ->
  SetupFirst w -> SetupFirst (wsSend k f w).
Proof.
  intros Hws Hopen H j s Hj. unfold wsSend, alterSocket in Hj.
  cbn [sockets setSockets] in Hj. cbn [wsSend alterSocket ws setSockets].
  destruct (decide (k = j)) as [->|Hne].
  - rewrite list_lookup_alter_eq in Hj.
    unfold readyStateOf in Hopen.
    destruct (sockets w !! j) as [s0|] eqn:E; [|discriminate].
    cbn in Hj, Hopen. injection Hj as <-. injection Hopen as Hopen.
    destruct (H j s0 E) as [[_ H2]|[rest H1]].
    + exfalso. exact (H2 Hws Hopen).
    + right. exists (rest ++ [f]). cbn [sent]. rewrite H1. reflexivity.
  - rewrite list_lookup_alter_ne in Hj by exact Hne. apply (H j s Hj).
Qed.

Lemma SetupFirst_sendJSON (f : Frame) (w : World) :
  SetupFirst w -> SetupFirst (sendJSON f w).
Proof.
  intros H. unfold sendJSON.
  destruct (ws w) as [k|] eqn:Hws;
    [|apply (SetupFirst_same w); [reflexivity|left; reflexivity|exact H]].
  destruct (readyStateOf k w) as [[]|] eqn:Hr;
    try (apply (SetupFirst_same w); [reflexivity|left; reflexivity|exact H]).
  apply SetupFirst_wsSend; assumption.
Qed.

Lemma readyStateOf_wsSend (j k : nat) (f : Frame) (w : World) :
  readyStateOf j (wsSend k f w) = readyStateOf j w.
Proof.
  unfold readyStateOf, wsSend, alterSocket. cbn [sockets setSockets].
  destruct (decide (k = j)) as [->|Hne].
  - rewrite list_lookup_alter_eq. destruct (sockets w !! j); reflexivity.
  - rewrite list_lookup_alter_ne by exact Hne. reflexivity.
Qed.

Lemma SetupFirst_flushLoop (queue : list Frame) :
  forall w : World, SetupFirst w -> SetupFirst (flushLoop queue w).
Proof.
  induction queue as [|f rest IH]; intros w H; cbn [flushLoop]; [exact H|].
  destruct (ws w) as [k|] eqn:Hws; [|exact H].
  destruct (readyStateOf k w) as [[]|] eqn:Hr; try exact H.
  apply IH. apply SetupFirst_wsSend; [exact Hws|exact Hr|].
  apply (SetupFirst_same w); [reflexivity|left; reflexivity|exact H].
Qed.

Lemma ws_fold_notify {A : Type} (mk : A -> Notification) (l : list A) :
  forall w : World, ws (fold_left (fun w' a => notify (mk a) w') l w) = ws w.
Proof. induction l as [|a l IH]; intros w; cbn; [reflexivity|]. rewrite IH. reflexivity. Qed.

Lemma ws_handlePart (p : Part) (w : World) : ws (handlePart p w) = ws w.
Proof.
  unfold handlePart. destruct (inlineData p) as [[[mt|] [d|]]|]; destruct (text p);
    try reflexivity; destruct (JsString.startsWith mt "audio/"); reflexivity.
Qed.

Lemma ws_fold_handlePart (parts : list Part) :
  forall w : World, ws (fold_left (fun w' p => handlePart p w') parts w) = ws w.
Proof.
  induction parts as [|p l IH]; intros w; cbn; [reflexivity|].
  rewrite IH. apply ws_handlePart.
Qed.

Lemma ws_handleTranscription (mk : string -> Notification) (t : option string)
    (w : World) :
  ws (handleTranscription mk t w) = ws w.
Proof.
  unfold handleTranscription. destruct t as [txt|]; [|reflexivity].
  destruct (String.eqb _ _); reflexivity.
Qed.

Lemma SetupFirst_handleMessage (k : nat) (json : ServerMessage) (w : World) :
  SetupFirst w -> SetupFirst (handleMessage k json w).
Proof.
  intros H. unfold handleMessage. destruct (setupComplete json).
  - apply SetupFirst_resolveOnce, SetupFirst_flushLoop.
    apply (SetupFirst_same w); [|left|exact H];
      destruct (connectTimeoutId w); reflexivity.
  - destruct (goAway json);
      [apply (SetupFirst_same w); [reflexivity|left; reflexivity|exact H]|].
    destruct (toolCallFunctionCalls json) as [calls|].
    + apply (SetupFirst_same w); [|left|exact H].
      * apply (sentPrefix_fold_notify (fun c => onToolCall (fcId c) (fcName c) (fcArgs c))).
      * apply (ws_fold_notify (fun c => onToolCall (fcId c) (fcName c) (fcArgs c))).
    + destruct (serverContent json) as [sc|]; [|exact H].
      destruct (interrupted sc);
        [apply (SetupFirst_same w); [reflexivity|left; reflexivity|exact H]|].
      apply (SetupFirst_same w); [|left|exact H].
      * rewrite !sockets_handleTranscription.
        destruct (turnComplete sc), (modelTurnParts sc);
          cbn [sockets notify setIsModelSpeaking];
          try apply sockets_fold_handlePart; reflexivity.
      * rewrite !ws_handleTranscription.
        destruct (turnComplete sc), (modelTurnParts sc);
          cbn [ws notify setIsModelSpeaking];
          try apply ws_fold_handlePart; reflexivity.
Qed.

Lemma SetupFirst_runTimer (cb : TimerCallback) (w : World) :
  SetupFirst w -> SetupFirst (runTimer cb w).
Proof.
  intros H. destruct cb as [k|k]; cbn [runTimer].
  - assert (H1 : SetupFirst (notify (onStateChange error (Some "Connection timed out"%string))
                               (resolveOnce k false (setConnectTimeoutId None w)))).
    { apply (SetupFirst_same (resolveOnce k false (setConnectTimeoutId None w)));
        [reflexivity|left; reflexivity|].
      apply SetupFirst_resolveOnce.
      apply (SetupFirst_same w); [reflexivity|left; reflexivity|exact H]. }
    case_bool_decide; [apply SetupFirst_wsClose|]; exact H1.
  - assert (H1 : SetupFirst (notify (onStateChange error (Some "Connection timed out"%string))
                               (resolveOnce k false w))).
    { apply (SetupFirst_same (resolveOnce k false w));
        [reflexivity|left; reflexivity|].
      apply SetupFirst_resolveOnce. exact H. }
    case_bool_decide; [apply SetupFirst_wsClose|]; exact H1.
Qed.

Lemma SetupFirst_fireDue (rounds : nat) :
  forall w : World, SetupFirst w -> SetupFirst (fireDue rounds w).
Proof.
  induction rounds as [|n IH]; intros w H; cbn [fireDue]; [exact H|].
  destruct (List.find _ (timers w)) as [t|]; [|exact H].
  apply IH, SetupFirst_runTimer.
  apply (SetupFirst_same w); [reflexivity|left; reflexivity|exact H].
Qed.

Lemma SetupFirst_connect (apiKey : string) (w : World) :
  SetupFirst w -> SetupFirst (snd (connect apiKey w)).
Proof.
  intros H. unfold connect. destruct (wsOpen w); [exact H|].
  intros k s Hk. cbn in Hk. cbn [snd ws setTimeout setConnectTimeoutId setNextHandle
    setTimers setWs setSockets notify].
  destruct (decide (k < List.length (sockets w))%nat) as [Hlt|Hge].
  - rewrite lookup_app_l in Hk by exact Hlt.
    destruct (H k s Hk) as [[H1 _]|H1]; [left|right; exact H1].
    split; [exact H1|]. intros Heq. injection Heq as Heq. cbn in Heq. lia.
  - rewrite lookup_app_r in Hk by lia.
    destruct (k - List.length (sockets w))%nat as [|n] eqn:E; [|destruct n; discriminate].
    cbn in Hk. injection Hk as <-. left. split; [reflexivity|]. intros _. discriminate.
Qed.

(** The open event: the setup message is the first frame of the socket that
    opened, when it is the current one; otherwise nothing is ever sent on
    it. *)
Lemma SetupFirst_open (k : nat) (w : World) :
  readyStateOf k w = Some CONNECTING ->
  SetupFirst w -> SetupFirst (onopen k (alterSocket k (setReadyState OPEN) w)).
Proof.
  intros Hconn H. unfold onopen, sendSetup, sendJSON.
  set (w1 := alterSocket k (setReadyState OPEN) w).
  change (ws (notify (onStateChange settingUp None) w1)) with (ws w).
  assert (Hlk : forall j s, sockets w1 !! j = Some s ->
                  exists s0, sockets w !! j = Some s0 /\ sent s = sent s0 /\
                             (j <> k -> s = s0)).
  { intros j s Hj. subst w1. unfold alterSocket in Hj. cbn [sockets setSockets] in Hj.
    destruct (decide (k = j)) as [->|Hne].
    - rewrite list_lookup_alter_eq in Hj.
      destruct (sockets w !! j) as [s0|]; [|discriminate].
      cbn in Hj. injection Hj as <-. exists s0. split; [reflexivity|].
      split; [reflexivity|]. congruence.
    - rewrite list_lookup_alter_ne in Hj by exact Hne. exists s. auto. }
  assert (Hquiet : forall w2 : World,
             sockets w2 = sockets w1 -> ws w2 = ws w -> ws w <> Some k ->
             SetupFirst w2).
  { intros w2 Es Ew Hnk j s Hj. rewrite Es in Hj.
    destruct (Hlk j s Hj) as (s0 & Hs0 & Hsent & Hsame).
    destruct (H j s0 Hs0) as [[H1 H2]|H1]; [left|right; rewrite Hsent; exact H1].
    rewrite Hsent. split; [exact H1|]. rewrite Ew. intros Hws.
    assert (Hjk : j <> k) by congruence.
    rewrite (Hsame Hjk). apply H2, Hws. }
  destruct (ws w) as [j|] eqn:Hws; [|apply Hquiet; [reflexivity|exact Hws|discriminate]].
  destruct (decide (j = k)) as [->|Hne].
  - (* the current socket opens: the setup message is sent on it *)
    assert (Hopen : readyStateOf k (notify (onStateChange settingUp None) w1) = Some OPEN).
    { subst w1. unfold readyStateOf, alterSocket in *. cbn [sockets setSockets notify].
      rewrite list_lookup_alter_eq. destruct (sockets w !! k); [reflexivity|discriminate]. }
    rewrite Hopen.
    intros i s Hi. unfold wsSend, alterSocket in Hi. cbn [sockets setSockets notify] in Hi.
    cbn [wsSend alterSocket ws setSockets notify].
    destruct (decide (k = i)) as [->|Hki].
    + rewrite list_lookup_alter_eq in Hi.
      destruct (sockets w1 !! i) as [s1|] eqn:E1; [|discriminate].
      cbn in Hi. injection Hi as <-.
      destruct (Hlk i s1 E1) as (s0 & Hs0 & Hsent & _).
      right. cbn [sent]. rewrite Hsent.
      destruct (H i s0 Hs0) as [[H1 _]|[rest H1]]; rewrite H1.
      * exists []. reflexivity.
      * exists (rest ++ [SetupFrame]). reflexivity.
    + rewrite list_lookup_alter_ne in Hi by exact Hki.
      destruct (Hlk i s Hi) as (s0 & Hs0 & Hsent & Hsame).
      assert (Hik : i <> k) by congruence.
      rewrite (Hsame Hik).
      destruct (H i s0 Hs0) as [[H1 _]|H1]; [left|right; exact H1].
      split; [exact H1|]. subst w1. cbn. rewrite Hws. congruence.
  - (* another socket is the current one *)
    assert (Hr : readyStateOf j (notify (onStateChange settingUp None) w1)
                 = readyStateOf j w).
    { subst w1. unfold readyStateOf, alterSocket. cbn [sockets setSockets notify].
      rewrite list_lookup_alter_ne by congruence. reflexivity. }
    rewrite Hr.
    assert (Hq : SetupFirst (notify (onStateChange settingUp None) w1)).
    { apply Hquiet; [reflexivity|subst w1; cbn; exact Hws|congruence]. }
    destruct (readyStateOf j w) as [[]|] eqn:Hrj;
      try (apply (SetupFirst_same (notify (onStateChange settingUp None) w1));
           [reflexivity|left; reflexivity|exact Hq]).
    apply SetupFirst_wsSend; [subst w1; cbn; exact Hws|exact Hr|exact Hq].
Qed.

Lemma SetupFirst_step (e : Event) (w w' : World) :
  step e w = Some w' -> SetupFirst w -> SetupFirst w'.
Proof.
  intros Hstep H. destruct e; cbn [step] in Hstep.
  - injection Hstep as <-. apply SetupFirst_connect, H.
  - injection Hstep as <-. unfold sendVideoFrame.
    destruct (negb _); [exact H|apply SetupFirst_sendJSON, H].
  - injection Hstep as <-. unfold sendAudio.
    destruct (negb _); [exact H|apply SetupFirst_sendJSON, H].
  - injection Hstep as <-. apply SetupFirst_sendJSON, H.
  - injection Hstep as <-. unfold disconnect.
    apply (SetupFirst_same
             (match ws w with Some k => setWs None (wsClose k w) | None => w end));
      [reflexivity|left; reflexivity|].
    destruct (ws w) as [k|]; [|exact H].
    apply (SetupFirst_same (wsClose k w)); [reflexivity|right; reflexivity|].
    apply SetupFirst_wsClose, H.
  - destruct (readyStateOf k w) as [[]|] eqn:Hr; try discriminate.
    injection Hstep as <-. apply SetupFirst_open; assumption.
  - destruct (readyStateOf k w) as [[]|]; try discriminate. injection Hstep as <-.
    destruct d; cbn [onmessage]; [exact H|apply SetupFirst_handleMessage, H].
  - destruct (closeDispatched <$> sockets w !! k) as [[]|]; try discriminate.
    injection Hstep as <-. unfold onclose, onerror.
    apply SetupFirst_resolveOnce.
    apply (SetupFirst_same
             (resolveOnce k false
                (notify (onStateChange error (Some "WebSocket error"%string))
                   (dispatchClose k w))));
      [reflexivity|right; reflexivity|].
    apply SetupFirst_resolveOnce.
    apply (SetupFirst_same (dispatchClose k w)); [reflexivity|left; reflexivity|].
    apply SetupFirst_dispatchClose, H.
  - destruct (closeDispatched <$> sockets w !! k) as [[]|]; try discriminate.
    injection Hstep as <-. unfold onclose.
    apply SetupFirst_resolveOnce.
    apply (SetupFirst_same (dispatchClose k w)); [reflexivity|right; reflexivity|].
    apply SetupFirst_dispatchClose, H.
  - injection Hstep as <-. unfold elapse. apply SetupFirst_fireDue.
    apply (SetupFirst_same w); [reflexivity|left; reflexivity|exact H].
Qed.

(** X14.  Whatever methods are called and whatever events the host
    dispatches, in any order, the first frame given to a socket is the
    setup message: at every reachable state every socket has been given no
    frame at all or a list of frames that starts with the setup message. *)
Theorem setup_is_first_frame_on_every_socket (es : list Event) (w : World) (k : nat) :
  run es initialWorld = Some w ->
  sentOn k w = [] \/ exists rest : list Frame, sentOn k w = SetupFrame :: rest.
Proof.
  intros Hrun.
  assert (H : SetupFirst w).
  { assert (H0 : SetupFirst initialWorld) by (intros j s Hj; discriminate).
    revert Hrun H0. generalize initialWorld as w0.
    induction es as [|e es IH]; intros w0 Hrun H0; cbn [run] in Hrun.
    - injection Hrun as <-. exact H0.
    - destruct (step e w0) as [w1|] eqn:E; [|discriminate].
      apply (IH w1 Hrun). eapply SetupFirst_step; eassumption. }
  unfold sentOn. destruct (sockets w !! k) as [s|] eqn:E; [|left; reflexivity].
  destruct (H k s E) as [[H1 _]|H1]; [left; exact H1|right; exact H1].
Qed.


Lemma setup_is_first_frame_on_every_socket_witness :
  exists w : World,
    run overtakingTrace initialWorld = Some w /\
    (sentOn 0 w = [] \/ exists rest : list Frame, sentOn 0 w = SetupFrame :: rest).
Proof.
  eexists. split; [vm_compute; reflexivity|].
  apply (setup_is_first_frame_on_every_socket overtakingTrace _ 0).
  vm_compute. reflexivity.
Defined.

(** *** Frames go to the current socket, while it is open *)

Lemma Quiet_refl (w : World) : Quiet w w.
Proof. intros k. reflexivity. Qed.

Lemma Quiet_trans (w1 w2 w3 : World) : Quiet w1 w2 -> Quiet w2 w3 -> Quiet w1 w3.
Proof. intros H12 H23 k. rewrite H23. apply H12. Qed.

Lemma Quiet_same (w w' : World) : sockets w' = sockets w -> Quiet w w'.
Proof. intros E k. unfold sentOn. rewrite E. reflexivity. Qed.

Lemma Quiet_alter (j : nat) (f : WebSocket -> WebSocket) (w : World) :
  (forall s, sent (f s) = sent s) -> Quiet w (alterSocket j f w).
Proof.
  intros Hf k. unfold sentOn, alterSocket. cbn [sockets setSockets].
  destruct (decide (j = k)) as [->|Hne].
  - rewrite list_lookup_alter_eq. destruct (sockets w !! k) as [s|]; cbn; [apply Hf|reflexivity].
  - rewrite list_lookup_alter_ne by exact Hne. reflexivity.
Qed.

Lemma Quiet_resolveOnce (k : nat) (ok : bool) (w : World) : Quiet w (resolveOnce k ok w).
Proof. apply Quiet_alter. intros s. destruct (resolved s); reflexivity. Qed.

Lemma Quiet_wsClose (k : nat) (w : World) : Quiet w (wsClose k w).
Proof. apply Quiet_alter. intros s. destruct (readyState s); reflexivity. Qed.

Lemma Quiet_dispatchClose (k : nat) (w : World) : Quiet w (dispatchClose k w).
Proof. apply Quiet_alter. intros s. reflexivity. Qed.

Lemma Keeps_same (w w' : World) : sockets w' = sockets w -> ws w' = ws w -> Keeps w w'.
Proof.
  intros Es Ew. split; [exact Ew|]. intros k. unfold sentOn, readyStateOf.
  rewrite Es. split; reflexivity.
Qed.

Lemma Keeps_resolveOnce (k : nat) (ok : bool) (w : World) : Keeps w (resolveOnce k ok w).
Proof.
  split; [reflexivity|]. intros j. split; [apply Quiet_resolveOnce|].
  unfold readyStateOf, resolveOnce, alterSocket. cbn [sockets setSockets].
  destruct (decide (k = j)) as [->|Hne].
  - rewrite list_lookup_alter_eq. destruct (sockets w !! j) as [s|]; [|reflexivity].
    cbn. destruct (resolved s); reflexivity.
  - rewrite list_lookup_alter_ne by exact Hne. reflexivity.
Qed.

Lemma SentOnOpen_quiet (w w' : World) : Quiet w w' -> SentOnOpen w w'.
Proof. intros H k. left. apply H. Qed.

Lemma SentOnOpen_after_quiet (w w1 w2 : World) :
  Quiet w w1 -> SentOnOpen w1 w2 -> SentOnOpen w w2.
Proof. intros Hq H k. destruct (H k) as [E|E]; [left; rewrite E; apply Hq|right; exact E]. Qed.

Lemma SentOnOpen_then_keeps (w w1 w2 : World) :
  SentOnOpen w w1 -> Keeps w1 w2 -> SentOnOpen w w2.
Proof.
  intros H [Kw Kk] k. destruct (Kk k) as [Ks Kr].
  destruct (H k) as [E|[E1 E2]]; [left; congruence|right].
  split; congruence.
Qed.

Lemma SentOnOpen_wsSend (k : nat) (f : Frame) (w : World) :
  ws w = Some k -> readyStateOf k w = Some OPEN -> SentOnOpen w (wsSend k f w).
Proof.
  intros Hws Hopen j. destruct (decide (k = j)) as [->|Hne].
  - right. split; [exact Hws|]. rewrite readyStateOf_wsSend. exact Hopen.
  - left. unfold sentOn, wsSend, alterSocket. cbn [sockets setSockets].
    rewrite list_lookup_alter_ne by exact Hne. reflexivity.
Qed.

Lemma SentOnOpen_sendJSON (f : Frame) (w : World) : SentOnOpen w (sendJSON f w).
Proof.
  unfold sendJSON.
  destruct (ws w) as [k|] eqn:Hws; [|apply SentOnOpen_quiet, Quiet_same; reflexivity].
  destruct (readyStateOf k w) as [[]|] eqn:Hr;
    try (apply SentOnOpen_quiet, Quiet_same; reflexivity).
  apply SentOnOpen_wsSend; assumption.
Qed.

Lemma sentOn_wsSend_ne (j k : nat) (f : Frame) (w : World) :
  j <> k -> sentOn j (wsSend k f w) = sentOn j w.
Proof.
  intros Hne. unfold sentOn, wsSend, alterSocket. cbn [sockets setSockets].
  rewrite list_lookup_alter_ne by congruence. reflexivity.
Qed.

Lemma flushLoop_current (k : nat) (queue : list Frame) :
  forall w : World,
    ws w = Some k -> readyStateOf k w = Some OPEN ->
    ws (flushLoop queue w) = Some k /\
    readyStateOf k (flushLoop queue w) = Some OPEN /\
    forall j : nat, j <> k -> sentOn j (flushLoop queue w) = sentOn j w.
Proof.
  induction queue as [|f rest IH]; intros w Hws Hr; cbn [flushLoop]; [auto|].
  rewrite Hws, Hr.
  destruct (IH (wsSend k f (setSendQueue rest w))) as (H1 & H2 & H3).
  - exact Hws.
  - rewrite readyStateOf_wsSend. exact Hr.
  - split; [exact H1|]. split; [exact H2|].
    intros j Hne. rewrite (H3 j Hne).
    apply (sentOn_wsSend_ne j k f (setSendQueue rest w) Hne).
Qed.

Lemma SentOnOpen_flushLoop (queue : list Frame) (w : World) :
  SentOnOpen w (flushLoop queue w).
Proof.
  destruct (ws w) as [k|] eqn:Hws;
    [|destruct queue; cbn [flushLoop]; rewrite ?Hws; apply SentOnOpen_quiet, Quiet_refl].
  destruct (readyStateOf k w) as [[]|] eqn:Hr;
    try (destruct queue; cbn [flushLoop]; rewrite ?Hws, ?Hr;
         apply SentOnOpen_quiet, Quiet_refl).
  destruct (flushLoop_current k queue w Hws Hr) as (H1 & H2 & H3).
  intros j. destruct (decide (j = k)) as [->|Hne]; [right; auto|left; apply H3, Hne].
Qed.

Lemma Keeps_quiet (w w' : World) : Keeps w w' -> Quiet w w'.
Proof. intros [_ H] k. apply H. Qed.

Lemma SentOnOpen_handleMessage (k : nat) (json : ServerMessage) (w : World) :
  SentOnOpen w (handleMessage k json w).
Proof.
  unfold handleMessage. destruct (setupComplete json).
  - eapply SentOnOpen_then_keeps; [|apply Keeps_resolveOnce].
    eapply SentOnOpen_after_quiet; [|apply SentOnOpen_flushLoop].
    apply Quiet_same. destruct (connectTimeoutId w); reflexivity.
  - apply SentOnOpen_quiet, Quiet_same.
    destruct (goAway json); [reflexivity|].
    destruct (toolCallFunctionCalls json) as [calls|].
    + apply (sentPrefix_fold_notify (fun c => onToolCall (fcId c) (fcName c) (fcArgs c))).
    + destruct (serverContent json) as [sc|]; [|reflexivity].
      destruct (interrupted sc); [reflexivity|].
      rewrite !sockets_handleTranscription.
      destruct (turnComplete sc), (modelTurnParts sc);
        cbn [sockets notify setIsModelSpeaking];
        try apply sockets_fold_handlePart; reflexivity.
Qed.

Lemma Quiet_runTimer (cb : TimerCallback) (w : World) : Quiet w (runTimer cb w).
Proof.
  destruct cb as [k|k]; cbn [runTimer].
  - apply Quiet_trans with (notify (onStateChange error (Some "Connection timed out"%string))
                              (resolveOnce k false (setConnectTimeoutId None w))).
    + apply Quiet_trans with (resolveOnce k false (setConnectTimeoutId None w));
        [|apply Quiet_same; reflexivity].
      apply Quiet_trans with (setConnectTimeoutId None w);
        [apply Quiet_same; reflexivity|apply Quiet_resolveOnce].
    + case_bool_decide; [apply Quiet_wsClose|apply Quiet_refl].
  - apply Quiet_trans with (notify (onStateChange error (Some "Connection timed out"%string))
                              (resolveOnce k false w)).
    + apply Quiet_trans with (resolveOnce k false w);
        [apply Quiet_resolveOnce|apply Quiet_same; reflexivity].
    + case_bool_decide; [apply Quiet_wsClose|apply Quiet_refl].
Qed.

Lemma Quiet_fireDue (rounds : nat) : forall w : World, Quiet w (fireDue rounds w).
Proof.
  induction rounds as [|n IH]; intros w; cbn [fireDue]; [apply Quiet_refl|].
  destruct (List.find _ (timers w)) as [t|]; [|apply Quiet_refl].
  eapply Quiet_trans; [|apply IH].
  eapply Quiet_trans; [|apply Quiet_runTimer].
  apply Quiet_same. reflexivity.
Qed.

Lemma Quiet_connect (apiKey : string) (w : World) : Quiet w (snd (connect apiKey w)).
Proof.
  unfold connect. destruct (wsOpen w); [apply Quiet_refl|].
  intros k. unfold sentOn. cbn.
  destruct (sockets w !! k) as [s|] eqn:E.
  - rewrite lookup_app_l by (eapply lookup_lt_Some; exact E). rewrite E. reflexivity.
  - apply lookup_ge_None in E.
    destruct (decide (k = List.length (sockets w))) as [->|Hne].
    + rewrite list_lookup_middle by reflexivity. reflexivity.
    + rewrite lookup_ge_None_2; [reflexivity|]. rewrite length_app. cbn. lia.
Qed.

(** X15.  In every step from any state, a socket that is given a frame is
    the current socket of the client and is open when the step ends, and
    the frames are appended to what it was given before: [send] is never
    called on a socket that is connecting, closing or closed, nor on a
    socket of an earlier [connect]. *)
Theorem frames_go_to_the_current_open_socket (e : Event) (w w' : World) (k : nat) :
  step e w = Some w' ->
  sentOn k w' <> sentOn k w ->
  ws w' = Some k /\ readyStateOf k w' = Some OPEN /\
  exists more : list Frame, sentOn k w' = sentOn k w ++ more.
Proof.
  intros Hstep Hsent.
  assert (H : SentOnOpen w w').
  { destruct e; cbn [step] in Hstep.
    - injection Hstep as <-. apply SentOnOpen_quiet, Quiet_connect.
    - injection Hstep as <-. unfold sendVideoFrame.
      destruct (negb _); [apply SentOnOpen_quiet, Quiet_refl|apply SentOnOpen_sendJSON].
    - injection Hstep as <-. unfold sendAudio.
      destruct (negb _); [apply SentOnOpen_quiet, Quiet_refl|apply SentOnOpen_sendJSON].
    - injection Hstep as <-. apply SentOnOpen_sendJSON.
    - injection Hstep as <-. apply SentOnOpen_quiet. unfold disconnect.
      apply Quiet_trans with
        (match ws w with Some k => setWs None (wsClose k w) | None => w end);
        [|apply Quiet_same; reflexivity].
      destruct (ws w) as [j|]; [|apply Quiet_refl].
      eapply Quiet_trans; [apply Quiet_wsClose|apply Quiet_same; reflexivity].
    - destruct (readyStateOf k0 w) as [[]|]; try discriminate. injection Hstep as <-.
      unfold onopen, sendSetup.
      eapply SentOnOpen_after_quiet; [|apply SentOnOpen_sendJSON].
      eapply Quiet_trans; [apply (Quiet_alter k0 (setReadyState OPEN)); reflexivity|].
      apply Quiet_same. reflexivity.
    - destruct (readyStateOf k0 w) as [[]|]; try discriminate. injection Hstep as <-.
      destruct d; cbn [onmessage];
        [apply SentOnOpen_quiet, Quiet_refl|apply SentOnOpen_handleMessage].
    - destruct (closeDispatched <$> sockets w !! k0) as [[]|]; try discriminate.
      injection Hstep as <-. apply SentOnOpen_quiet. unfold onclose, onerror.
      eapply Quiet_trans; [|apply Quiet_resolveOnce].
      eapply Quiet_trans;
        [|apply (Quiet_same _ (notify _ (notify _ (setWs None _)))); reflexivity].
      eapply Quiet_trans; [|apply Quiet_resolveOnce].
      eapply Quiet_trans; [apply Quiet_dispatchClose|apply Quiet_same; reflexivity].
    - destruct (closeDispatched <$> sockets w !! k0) as [[]|]; try discriminate.
      injection Hstep as <-. apply SentOnOpen_quiet. unfold onclose.
      eapply Quiet_trans; [|apply Quiet_resolveOnce].
      eapply Quiet_trans; [apply Quiet_dispatchClose|apply Quiet_same; reflexivity].
    - injection Hstep as <-. apply SentOnOpen_quiet. unfold elapse.
      eapply Quiet_trans; [|apply Quiet_fireDue]. apply Quiet_same. reflexivity. }
  destruct (H k) as [E|[E1 E2]]; [contradiction|].
  split; [exact E1|]. split; [exact E2|].
  apply (sentPrefix_step e w w' Hstep k).
Qed.

Lemma frames_go_to_the_current_open_socket_witness :
  ws (sendVideoFrame "jpeg" settingUpWorld) = Some 0%nat /\
  readyStateOf 0 (sendVideoFrame "jpeg" settingUpWorld) = Some OPEN /\
  exists more : list Frame,
    sentOn 0 (sendVideoFrame "jpeg" settingUpWorld) = sentOn 0 settingUpWorld ++ more.
Proof.
  apply (frames_go_to_the_current_open_socket (SendVideoFrame "jpeg") settingUpWorld).
  - reflexivity.
  - vm_compute. discriminate.
Defined.

End SessionFacts.

(** ** Facts about [normalizeBbox] *)

Module DetectionFacts.

Import Audio Detection.

Lemma clamp_numeric (lo : Q) (v d : value) :
  lo <= 1 -> isNumeric v ->
  exists q : Q,
    Math_max (Fin lo) (Math_min (Fin 1) (Number (nullishCoalesce (num (Number v)) d)))
    = Fin q /\ lo <= q /\ q <= 1.
Proof.
  intros Hlo Hv. destruct v as [|[| | |p]]; cbn in *; try contradiction.
  - exists (Qmax lo 1). split; [reflexivity|]. split; [apply Q.le_max_l|].
    apply Q.max_lub; lra.
  - exists lo. split; [reflexivity|]. lra.
  - exists (Qmax lo (Qmin 1 p)). split; [reflexivity|]. split; [apply Q.le_max_l|].
    apply Q.max_lub; [lra|apply Q.le_min_l].
Qed.

Lemma clamp_not_numeric (lo : Q) (v d : value) :
  ~ isNumeric v ->
  Math_max (Fin lo) (Math_min (Fin 1) (Number (nullishCoalesce (num (Number v)) d))) = NaN.
Proof.
  intros Hv. destruct v as [|[| | |p]]; cbn in *; try reflexivity; exfalso; apply Hv; exact I.
Qed.

(** X16.  When its four fields are numbers other than NaN, the box
    [normalizeBbox] returns is finite with [x] and [y] in [0, 1] and
    [width] and [height] in [0.01, 1], infinite fields included: a box on
    the frame, of positive width and height. *)
Theorem normalizeBbox_numeric_in_range (b : PartialBbox) :
  isNumeric (argX b) -> isNumeric (argY b) ->
  isNumeric (argWidth b) -> isNumeric (argHeight b) ->
  exists box : Tracking.BoundingBox,
    finiteBox (normalizeBbox b) = Some box /\
    (0 <= Tracking.x box /\ Tracking.x box <= 1) /\
    (0 <= Tracking.y box /\ Tracking.y box <= 1) /\
    (0.01 <= Tracking.width box /\ Tracking.width box <= 1) /\
    (0.01 <= Tracking.height box /\ Tracking.height box <= 1).
Proof.
  intros Hx Hy Hw Hh.
  destruct (clamp_numeric 0 (argX b) (num (Fin 0)) ltac:(lra) Hx) as (qx & Ex & Hqx).
  destruct (clamp_numeric 0 (argY b) (num (Fin 0)) ltac:(lra) Hy) as (qy & Ey & Hqy).
  destruct (clamp_numeric 0.01 (argWidth b) (num (Fin 0.1)) ltac:(lra) Hw) as (qw & Ew & Hqw).
  destruct (clamp_numeric 0.01 (argHeight b) (num (Fin 0.1)) ltac:(lra) Hh) as (qh & Eh & Hqh).
  exists {| Tracking.x := qx; Tracking.y := qy; Tracking.width := qw; Tracking.height := qh |}.
  unfold finiteBox, normalizeBbox. cbn [x y width height].
  rewrite Ex, Ey, Ew, Eh. cbn [Tracking.x Tracking.y Tracking.width Tracking.height].
  split; [reflexivity|]. tauto.
Qed.

Lemma normalizeBbox_numeric_in_range_witness :
  exists box : Tracking.BoundingBox,
    finiteBox (normalizeBbox rawBox) = Some box /\
    (0 <= Tracking.x box /\ Tracking.x box <= 1) /\
    (0 <= Tracking.y box /\ Tracking.y box <= 1) /\
    (0.01 <= Tracking.width box /\ Tracking.width box <= 1) /\
    (0.01 <= Tracking.height box /\ Tracking.height box <= 1).
Proof.
  apply (normalizeBbox_numeric_in_range rawBox); exact I.
Defined.

(** X17.  A field of the argument that is missing ([undefined]) or NaN
    comes out of [normalizeBbox] as NaN: [Number(undefined)] is NaN, which
    [??] does not replace, so the fallbacks 0 and 0.1 are never used. *)
Theorem normalizeBbox_missing_field_gives_NaN (b : PartialBbox) :
  (~ isNumeric (argX b) -> x (normalizeBbox b) = NaN) /\
  (~ isNumeric (argY b) -> y (normalizeBbox b) = NaN) /\
  (~ isNumeric (argWidth b) -> width (normalizeBbox b) = NaN) /\
  (~ isNumeric (argHeight b) -> height (normalizeBbox b) = NaN) /\
  (forall v : value, isNumeric v <-> v <> undefined /\ v <> num NaN).
Proof.
  repeat split; try apply clamp_not_numeric.
  - intros ->. exact H.
  - intros ->. exact H.
  - intros [H1 H2]. destruct v as [|[| | |p]]; cbn; auto.
Qed.

End DetectionFacts.

(** ** Facts about [hitTest.ts] *)

Module HitTestFacts.

Import Tracking Audio HitTest.

Lemma contains_iff (normX normY : Q) (item : DetectedItem) :
  contains normX normY item = true <->
  x (bbox item) <= normX /\ normX <= x (bbox item) + width (bbox item) /\
  y (bbox item) <= normY /\ normY <= y (bbox item) + height (bbox item).
Proof.
  unfold contains. rewrite !andb_true_iff, !Qle_bool_iff. tauto.
Qed.

(** The head of the sorted list is the first of the items of least area. *)
Lemma sort_head (l : list DetectedItem) :
  l <> [] ->
  exists (m : DetectedItem) (pre post : list DetectedItem),
    head (sort compareArea l) = Some m /\ l = pre ++ m :: post /\
    (forall o, In o pre -> area m < area o) /\
    (forall o, In o post -> area m <= area o).
Proof.
  induction l as [|a l IH]; intros Hne; [congruence|].
  destruct l as [|b l'].
  - exists a, [], []. simpl. repeat split; auto; intros o [].
  - destruct IH as (m & pre & post & Hhd & Hl & Hpre & Hpost); [congruence|].
    change (sort compareArea (a :: b :: l'))
      with (insert compareArea a (sort compareArea (b :: l'))).
    destruct (sort compareArea (b :: l')) as [|s rest] eqn:Es; [discriminate|].
    cbn [head] in Hhd. injection Hhd as ->.
    cbn [insert].
    destruct (Qle_bool (compareArea a m) 0) eqn:Hc.
    + apply Qle_bool_iff in Hc. unfold compareArea in Hc. fold (area a) (area m) in Hc.
      exists a, [], (b :: l'). cbn [head app]. repeat split; auto.
      * intros o [].
      * intros o Ho. rewrite Hl in Ho. apply in_app_or in Ho.
        destruct Ho as [Ho|[<-|Ho]].
        -- apply Hpre in Ho. lra.
        -- lra.
        -- apply Hpost in Ho. lra.
    + apply Qle_bool_false_iff in Hc. unfold compareArea in Hc.
      fold (area a) (area m) in Hc.
      exists m, (a :: pre), post. cbn [head app]. rewrite Hl. repeat split; auto.
      intros o [<-|Ho]; [lra|]. apply Hpre. exact Ho.
Qed.

Lemma filter_split {A : Type} (f : A -> bool) (l : list A) :
  forall (hpre hpost : list A) (m : A),
    List.filter f l = hpre ++ m :: hpost ->
    exists pre post : list A,
      l = pre ++ m :: post /\ f m = true /\
      List.filter f pre = hpre /\ List.filter f post = hpost.
Proof.
  induction l as [|a l IH]; intros hpre hpost m H; simpl in H.
  - destruct hpre; discriminate.
  - destruct (f a) eqn:Ea.
    + destruct hpre as [|h hpre]; simpl in H.
      * injection H as <- H. exists [], l. simpl. auto.
      * injection H as <- H. destruct (IH _ _ _ H) as (pre & post & -> & Hm & Hp & Hq).
        exists (a :: pre), post. simpl. rewrite Ea, Hp. auto.
    + destruct (IH _ _ _ H) as (pre & post & -> & Hm & Hp & Hq).
      exists (a :: pre), post. simpl. rewrite Ea. auto.
Qed.

(** X18.  [findItemAtPoint] returns [null] exactly when no box contains the
    point (edges included); otherwise it returns an item of the list whose
    box contains the point and has the least area among those that do,
    the first such item in list order. *)
Theorem findItemAtPoint_first_smallest_hit
    (items : list DetectedItem) (normX normY : Q) :
  (findItemAtPoint items normX normY = None <->
   forall it : DetectedItem, In it items -> contains normX normY it = false) /\
  (forall it : DetectedItem,
      findItemAtPoint items normX normY = Some it ->
      exists pre post : list DetectedItem,
        items = pre ++ it :: post /\
        (x (bbox it) <= normX /\ normX <= x (bbox it) + width (bbox it) /\
         y (bbox it) <= normY /\ normY <= y (bbox it) + height (bbox it)) /\
        (forall o, In o pre -> contains normX normY o = true -> area it < area o) /\
        (forall o, In o post -> contains normX normY o = true -> area it <= area o)).
Proof.
  unfold findItemAtPoint.
  set (hit := List.filter (contains normX normY) items).
  assert (Hhit : forall it, In it hit <-> In it items /\ contains normX normY it = true)
    by (intros it; apply filter_In).
  assert (Hfound : forall m hpre hpost,
             hit = hpre ++ m :: hpost ->
             (forall o, In o hpre -> area m < area o) ->
             (forall o, In o hpost -> area m <= area o) ->
             exists pre post : list DetectedItem,
               items = pre ++ m :: post /\
               (x (bbox m) <= normX /\ normX <= x (bbox m) + width (bbox m) /\
                y (bbox m) <= normY /\ normY <= y (bbox m) + height (bbox m)) /\
               (forall o, In o pre -> contains normX normY o = true -> area m < area o) /\
               (forall o, In o post -> contains normX normY o = true -> area m <= area o)).
  { intros m hpre hpost E Hpre Hpost.
    destruct (filter_split _ _ _ _ _ E) as (pre & post & Hl & Hm & Hp & Hq).
    exists pre, post. split; [exact Hl|]. split; [apply contains_iff; exact Hm|].
    split; intros o Ho Hc.
    - apply Hpre. rewrite <- Hp. apply filter_In. auto.
    - apply Hpost. rewrite <- Hq. apply filter_In. auto. }
  destruct hit as [|h1 [|h2 rest]] eqn:E.
  - cbn. split.
    + split; [|reflexivity]. intros _ it Hin.
      destruct (contains normX normY it) eqn:Hc; [|reflexivity].
      exfalso. apply (proj2 (Hhit it)). auto.
    + intros it H. discriminate.
  - cbn. split.
    + split; [discriminate|]. intros H. exfalso.
      assert (Hin : In h1 [h1]) by (now left).
      apply Hhit in Hin as [Hin Hc]. rewrite (H _ Hin) in Hc. discriminate.
    + intros it [= <-]. apply (Hfound h1 [] []); auto; intros o [].
  - change ((List.length (h1 :: h2 :: rest) =? 0)%nat) with false.
    change ((List.length (h1 :: h2 :: rest) =? 1)%nat) with false. cbv iota.
    destruct (sort_head (h1 :: h2 :: rest)) as (m & hpre & hpost & Hhd & Hl & Hpre & Hpost);
      [discriminate|].
    rewrite Hhd. split.
    + split; [discriminate|]. intros H. exfalso.
      assert (Hin : In h1 (h1 :: h2 :: rest)) by (now left).
      apply Hhit in Hin as [Hin Hc]. rewrite (H _ Hin) in Hc. discriminate.
    + intros it [= <-]. apply (Hfound m hpre hpost); auto.
Qed.

End HitTestFacts.

(** ** Facts about the strings of the source *)

Module JsStringFacts.

Import JsString.

Lemma prefix_iff (p s : string) :
  String.prefix p s = true <-> exists rest : string, s = (p ++ rest)%string.
Proof.
  revert s. induction p as [|c p IH]; intros s.
  - split; [intros _; exists s; reflexivity|intros _; destruct s; reflexivity].
  - destruct s as [|d s]; simpl.
    + split; [discriminate|intros [rest H]; discriminate].
    + destruct (Ascii.ascii_dec c d) as [->|Hne].
      * rewrite IH. split; intros [rest H]; exists rest.
        -- rewrite H. reflexivity.
        -- change (String d s = String d (p ++ rest)) in H. congruence.
      * split; [discriminate|]. intros [rest H].
        change (String d s = String c (p ++ rest)) in H. congruence.
Qed.

Lemma truthy_iff (s : string) : truthy s = true <-> s <> ""%string.
Proof.
  unfold truthy. rewrite negb_true_iff. destruct (String.eqb_spec s ""); split; congruence.
Qed.

End JsStringFacts.

(** ** Facts about [env.ts] *)

Module EnvFacts.

Import JsString JsStringFacts Env.

Lemma isDedalusApiKey_iff (key : string) :
  isDedalusApiKey key = true <-> exists rest : string, key = ("dsk-" ++ rest)%string.
Proof.
  unfold isDedalusApiKey, startsWith. rewrite andb_true_iff, prefix_iff, truthy_iff.
  split; [tauto|]. intros [rest ->]. split; [discriminate|exists rest; reflexivity].
Qed.

(** X20.  [getGeminiLiveKey] never returns a Dedalus key (a string that
    starts with "dsk-"): it returns the empty string, or
    [VITE_GEMINI_LIVE_API_KEY], or, when that variable is not set,
    [VITE_GEMINI_API_KEY].  A live key that is set, also to the empty
    string, decides the result alone. *)
Theorem getGeminiLiveKey_is_never_a_dedalus_key (e : ImportMetaEnv) :
  isDedalusApiKey (getGeminiLiveKey e) = false /\
  (forall rest : string, getGeminiLiveKey e <> ("dsk-" ++ rest)%string) /\
  (getGeminiLiveKey e = ""%string \/
   VITE_GEMINI_LIVE_API_KEY e = Some (getGeminiLiveKey e) \/
   (VITE_GEMINI_LIVE_API_KEY e = None /\
    VITE_GEMINI_API_KEY e = Some (getGeminiLiveKey e))) /\
  (forall live : string,
      VITE_GEMINI_LIVE_API_KEY e = Some live ->
      getGeminiLiveKey e = if isDedalusApiKey live then ""%string else live).
Proof.
  assert (H : isDedalusApiKey (getGeminiLiveKey e) = false).
  { unfold getGeminiLiveKey.
    destruct (isDedalusApiKey (geminiLiveApiKey e)) eqn:E; [reflexivity|exact E]. }
  split; [exact H|]. split; [|split].
  - intros rest Heq.
    assert (Ht : isDedalusApiKey (getGeminiLiveKey e) = true)
      by (apply isDedalusApiKey_iff; exists rest; exact Heq).
    congruence.
  - unfold getGeminiLiveKey, geminiLiveApiKey, geminiApiKey.
    destruct (VITE_GEMINI_LIVE_API_KEY e) as [live|]; cbn [coalesce orElse].
    + destruct (isDedalusApiKey live); auto.
    + destruct (VITE_GEMINI_API_KEY e) as [key|]; cbn [orElse].
      * destruct (isDedalusApiKey key); auto.
      * left. reflexivity.
  - intros live Hl. unfold getGeminiLiveKey, geminiLiveApiKey. rewrite Hl. reflexivity.
Qed.

End EnvFacts.

(** ** Facts about [getOverlaySnippet] *)

Module OverlayFacts.

Import JsString JsStringFacts Rag Overlay.

Lemma getOverlaySnippet_fields (label : string) (p : PersonProfile)
    (relevanceFromApi : option string) :
  getOverlaySnippet label (Some p) relevanceFromApi
  = {| emphasis := if isOnShoppingList label p || hasRelevance relevanceFromApi
                   then high else none;
       badge := if isOnShoppingList label p then Some "On list"%string else None;
       line := if hasRelevance relevanceFromApi then trim <$> relevanceFromApi
               else None |}.
Proof.
  unfold getOverlaySnippet, hasRelevance.
  destruct (isOnShoppingList label p), relevanceFromApi as [r|]; cbn;
    try destruct (truthy (trim r)); reflexivity.
Qed.

Lemma hasRelevance_iff (relevanceFromApi : option string) :
  hasRelevance relevanceFromApi = true <->
  exists r : string, relevanceFromApi = Some r /\ trim r <> ""%string.
Proof.
  unfold hasRelevance. destruct relevanceFromApi as [r|].
  - rewrite truthy_iff. split; [intros H; exists r; auto|intros (r' & [= <-] & H); exact H].
  - split; [discriminate|intros (r & H & _); discriminate].
Qed.

(** X22.  The snippet of [getOverlaySnippet] carries the badge "On list"
    exactly when there is a profile whose shopping list has the label, and
    a line exactly when there is a profile and the relevance text is not
    blank, the line being that text trimmed.  Its emphasis is [high] when
    it carries a badge or a line and [none] when it carries neither;
    [medium] is never returned. *)
Theorem overlay_emphasis_matches_content
    (label : string) (profile : option PersonProfile) (relevanceFromApi : option string) :
  (badge (getOverlaySnippet label profile relevanceFromApi) = Some "On list"%string <->
   exists p : PersonProfile, profile = Some p /\ isOnShoppingList label p = true) /\
  (badge (getOverlaySnippet label profile relevanceFromApi) = None \/
   badge (getOverlaySnippet label profile relevanceFromApi) = Some "On list"%string) /\
  (forall t : string,
      line (getOverlaySnippet label profile relevanceFromApi) = Some t <->
      profile <> None /\ t <> ""%string /\
      exists r : string, relevanceFromApi = Some r /\ trim r = t) /\
  (emphasis (getOverlaySnippet label profile relevanceFromApi) = high <->
   badge (getOverlaySnippet label profile relevanceFromApi) <> None \/
   line (getOverlaySnippet label profile relevanceFromApi) <> None) /\
  (emphasis (getOverlaySnippet label profile relevanceFromApi) = none <->
   badge (getOverlaySnippet label profile relevanceFromApi) = None /\
   line (getOverlaySnippet label profile relevanceFromApi) = None).
Proof.
  destruct profile as [p|].
  - rewrite getOverlaySnippet_fields. cbn [badge line emphasis].
    pose proof (hasRelevance_iff relevanceFromApi) as Hrel.
    assert (Hline : forall t : string,
               (if hasRelevance relevanceFromApi then trim <$> relevanceFromApi else None)
               = Some t <->
               t <> ""%string /\ exists r : string, relevanceFromApi = Some r /\ trim r = t).
    { intros t. destruct (hasRelevance relevanceFromApi) eqn:Hh.
      - destruct (proj1 Hrel eq_refl) as (r & -> & Hne). cbn. split.
        + intros [= <-]. split; [exact Hne|]. exists r. auto.
        + intros (_ & r' & [= <-] & <-). reflexivity.
      - split; [discriminate|]. intros (Hne & r & Hr & <-).
        assert (Ht : false = true) by (apply Hrel; exists r; auto).
        discriminate. }
    split; [|split; [|split; [|split]]].
    + destruct (isOnShoppingList label p) eqn:Hon.
      * split; [intros _; exists p; auto|intros _; reflexivity].
      * split; [discriminate|]. intros (q & [= <-] & H). congruence.
    + destruct (isOnShoppingList label p); auto.
    + intros t. rewrite Hline. split; [intros H; split; [discriminate|exact H]|tauto].
    + destruct (isOnShoppingList label p), (hasRelevance relevanceFromApi) eqn:Hh;
        cbn [orb].
      * split; [intros _; left; discriminate|intros _; reflexivity].
      * split; [intros _; left; discriminate|intros _; reflexivity].
      * split; [intros _; right|intros _; reflexivity].
        destruct (proj1 Hrel eq_refl) as (r & -> & _). discriminate.
      * split; [discriminate|]. intros [H|H]; congruence.
    + destruct (isOnShoppingList label p), (hasRelevance relevanceFromApi) eqn:Hh;
        cbn [orb].
      * split; [discriminate|]. intros [H _]. discriminate.
      * split; [discriminate|]. intros [H _]. discriminate.
      * split; [discriminate|]. intros [_ H].
        destruct (proj1 Hrel eq_refl) as (r & -> & _). discriminate.
      * split; auto.
  - cbn [getOverlaySnippet badge line emphasis].
    split; [|split; [|split; [|split]]].
    + split; [discriminate|]. intros (q & Hq & _). discriminate.
    + left. reflexivity.
    + intros t. split; [discriminate|]. intros (H & _). congruence.
    + split; [discriminate|]. intros [H|H]; congruence.
    + split; auto.
Qed.

End OverlayFacts.

(** ** Facts about the detection frame *)

Module CameraFacts.

Import Camera.

Lemma Qmax_inject_Z (a b : Z) : Qmax (inject_Z a) (inject_Z b) == inject_Z (Z.max a b).
Proof.
  destruct (Z.max_spec a b) as [[Hlt ->]|[Hle ->]].
  - apply Q.max_r. rewrite <- Zle_Qle. lia.
  - apply Q.max_l. rewrite <- Zle_Qle. lia.
Qed.

Lemma Math_round_bounds (q : Q) (lo hi : Z) :
  inject_Z lo <= q -> q <= inject_Z hi -> (lo <= Math_round q <= hi)%Z.
Proof.
  intros Hlo Hhi. unfold Math_round. split.
  - rewrite <- (Qfloor_Z lo). apply Qfloor_resp_le. lra.
  - assert (H : (Qfloor (q + 0.5) < hi + 1)%Z).
    { rewrite Zlt_Qlt. eapply Qle_lt_trans; [apply Qfloor_le|].
      rewrite inject_Z_plus. change (inject_Z 1) with 1. lra. }
    lia.
Qed.

Lemma Math_round_inject_Z (q : Q) (z : Z) : q == inject_Z z -> Math_round q = z.
Proof.
  intros H. assert (Hb : (z <= Math_round q <= z)%Z)
    by (apply Math_round_bounds; rewrite H; apply Qle_refl).
  lia.
Qed.

(** One side of the frame when the video is scaled down. *)
Lemma scaled_side (s m M : Z) :
  (0 <= s <= m)%Z -> (1 <= M < m)%Z ->
  (0 <= Math_round (inject_Z s * (inject_Z M / inject_Z m)) <= s)%Z /\
  (Math_round (inject_Z s * (inject_Z M / inject_Z m)) <= M)%Z /\
  (s = m -> Math_round (inject_Z s * (inject_Z M / inject_Z m)) = M).
Proof.
  intros Hs HM.
  assert (Hm : 0 < inject_Z m) by (change 0 with (inject_Z 0); rewrite <- Zlt_Qlt; lia).
  assert (Hs0 : 0 <= inject_Z s) by (change 0 with (inject_Z 0); rewrite <- Zle_Qle; lia).
  assert (Hsm : inject_Z s <= inject_Z m) by (rewrite <- Zle_Qle; lia).
  assert (HM0 : 0 < inject_Z M) by (change 0 with (inject_Z 0); rewrite <- Zlt_Qlt; lia).
  assert (HMm : inject_Z M < inject_Z m) by (rewrite <- Zlt_Qlt; lia).
  set (x := inject_Z s * (inject_Z M / inject_Z m)).
  assert (Ex : x * inject_Z m == inject_Z s * inject_Z M) by (subst x; field; lra).
  assert (Hx0 : 0 <= x).
  { subst x. apply Qmult_le_0_compat; [exact Hs0|].
    apply Qle_shift_div_l; [exact Hm|]. lra. }
  assert (Hxs : x <= inject_Z s).
  { apply (Qmult_le_r _ _ (inject_Z m) Hm). rewrite Ex. nra. }
  assert (HxM : x <= inject_Z M).
  { apply (Qmult_le_r _ _ (inject_Z m) Hm). rewrite Ex. nra. }
  split; [|split].
  - apply Math_round_bounds; [exact Hx0|exact Hxs].
  - apply (Math_round_bounds x 0 M); [exact Hx0|exact HxM].
  - intros ->. apply Math_round_inject_Z. subst x. field. lra.
Qed.

(** X23.  For a video of width other than 0 and a whole [maxSize] of at
    least 1, the canvas of [captureFrameToJpegForDetection] is never
    larger than the video in either direction and its longer side is the
    smaller of [maxSize] and the longer side of the video; with the video
    ready and a 2D context, the result is what follows the first comma of
    the data URL of a canvas of that size. *)
Theorem detection_frame_fits_maxSize (w h : N) (maxSize : Z) :
  w <> 0%N -> (1 <= maxSize)%Z ->
  (Z.max (fst (detectionSize w h (inject_Z maxSize)))
         (snd (detectionSize w h (inject_Z maxSize)))
   = Z.min (Z.max (Z.of_N w) (Z.of_N h)) maxSize) /\
  (0 <= fst (detectionSize w h (inject_Z maxSize)) <= Z.of_N w)%Z /\
  (0 <= snd (detectionSize w h (inject_Z maxSize)) <= Z.of_N h)%Z /\
  (forall (host : CanvasHost) (ready : nat) (quality : Q),
      (2 <= ready)%nat -> hasContext host = true ->
      captureFrameToJpegForDetection host
        {| readyState := ready; videoWidth := w; videoHeight := h |}
        (inject_Z maxSize) quality
      = match toDataURL host (fst (detectionSize w h (inject_Z maxSize)))
                (snd (detectionSize w h (inject_Z maxSize))) quality with
        | Some url => splitComma [] url !! 1%nat
        | None => None
        end).
Proof.
  intros Hw HM.
  set (m := Z.max (Z.of_N w) (Z.of_N h)).
  assert (Hm : (0 < m)%Z) by lia.
  assert (Hmq : 0 < inject_Z m) by (change 0 with (inject_Z 0); rewrite <- Zlt_Qlt; lia).
  assert (Escale : inject_Z maxSize / Qmax (inject_Z (Z.of_N w)) (inject_Z (Z.of_N h))
                   == inject_Z maxSize / inject_Z m).
  { rewrite Qmax_inject_Z. reflexivity. }
  assert (Hsize :
    detectionSize w h (inject_Z maxSize)
    = if Qle_bool 1 (inject_Z maxSize / inject_Z m)
      then (Z.of_N w, Z.of_N h)
      else (Math_round (inject_Z (Z.of_N w) * (inject_Z maxSize / inject_Z m)),
            Math_round (inject_Z (Z.of_N h) * (inject_Z maxSize / inject_Z m)))).
  { unfold detectionSize. cbv zeta.
    rewrite (Qleb_comp 1 1 (Qeq_refl 1) _ _ Escale).
    destruct (Qle_bool 1 (inject_Z maxSize / inject_Z m)); [reflexivity|].
    f_equal; unfold Math_round; apply Qfloor_comp; rewrite Escale; reflexivity. }
  assert (Hdims :
    Z.max (fst (detectionSize w h (inject_Z maxSize)))
          (snd (detectionSize w h (inject_Z maxSize))) = Z.min m maxSize /\
    (0 <= fst (detectionSize w h (inject_Z maxSize)) <= Z.of_N w)%Z /\
    (0 <= snd (detectionSize w h (inject_Z maxSize)) <= Z.of_N h)%Z).
  { rewrite Hsize.
    destruct (Qle_bool 1 (inject_Z maxSize / inject_Z m)) eqn:E.
    - apply Qle_bool_iff in E.
      apply (Qmult_le_r _ _ (inject_Z m) Hmq) in E.
      assert (E' : inject_Z maxSize / inject_Z m * inject_Z m == inject_Z maxSize)
        by (field; lra).
      rewrite E', Qmult_1_l in E. rewrite <- Zle_Qle in E.
      cbn [fst snd]. fold m. lia.
    - assert (Hlt : (maxSize < m)%Z).
      { destruct (Z_lt_le_dec maxSize m) as [H|H]; [exact H|].
        exfalso. apply Qle_bool_false_iff in E.
        assert (1 <= inject_Z maxSize / inject_Z m); [|lra].
        apply Qle_shift_div_l; [exact Hmq|]. rewrite Qmult_1_l, <- Zle_Qle. exact H. }
      cbn [fst snd].
      destruct (scaled_side (Z.of_N w) m maxSize ltac:(lia) ltac:(lia)) as (Hw1 & Hw2 & Hw3).
      destruct (scaled_side (Z.of_N h) m maxSize ltac:(lia) ltac:(lia)) as (Hh1 & Hh2 & Hh3).
      split; [|split; assumption].
      destruct (Z.max_spec (Z.of_N w) (Z.of_N h)) as [[Hlt' Hmax]|[Hle Hmax]];
        fold m in Hmax.
      + specialize (Hh3 (eq_sym Hmax)). lia.
      + specialize (Hw3 (eq_sym Hmax)). lia. }
  split; [apply Hdims|]. split; [apply Hdims|]. split; [apply Hdims|].
  intros host ready quality Hready Hctx.
  unfold captureFrameToJpegForDetection. cbn [readyState videoWidth videoHeight].
  replace (ready <? 2)%nat with false by (symmetry; apply Nat.ltb_ge; exact Hready).
  replace (w =? 0)%N with false by (symmetry; apply N.eqb_neq; exact Hw).
  cbn [orb]. destruct (detectionSize w h (inject_Z maxSize)) as [dw dh].
  rewrite Hctx. reflexivity.
Qed.

Lemma detection_frame_fits_maxSize_witness :
  Z.max (fst (detectionSize 1920 1080 640)) (snd (detectionSize 1920 1080 640))
  = Z.min (Z.max 1920 1080) 640.
Proof.
  apply (proj1 (detection_frame_fits_maxSize 1920 1080 640 ltac:(discriminate) ltac:(lia))).
Defined.

End CameraFacts.
